(** * Session continuity and context enrichment of the Telegram assistant

    A shallow embedding of the parts of the assistant that carry state or
    parse text: the session manager ([session.ts]), the CLI spawner
    ([spawner.ts]), the memory-intent post-processor ([supabase.ts]), the
    text handler ([message.ts]) and the decision parsing of the smart
    check-in ([cron.ts]), followed by the properties established for them. *)

From Stdlib Require Import Ascii String DecimalString.
From Stdlib Require Import NArith ZArith QArith Bool Lia List.
Import ListNotations.


Local Open Scope N_scope.

(* ================================================================== *)
(** * JavaScript strings *)
(* ================================================================== *)

(** A JavaScript string is a sequence of UTF-16 code units. *)
Definition char16 := N.
Definition jsstring := list char16.

Definition ch (a : ascii) : char16 := N_of_ascii a.

(** An ASCII literal of the source, as a sequence of code units. *)
Definition lit (s : string) : jsstring := map ch (list_ascii_of_string s).

(** [!!s]: the empty string is the only falsy string. *)
Definition truthy (s : jsstring) : bool :=
  match s with [] => false | _ :: _ => true end.

(** [a || b] on values that may be [undefined]: [a] when it is a non-empty
    string, otherwise [b]. *)
Definition or_else (a b : option jsstring) : option jsstring :=
  match a with
  | Some s => if truthy s then Some s else b
  | None => b
  end.

Definition jsstring_eqb (a b : jsstring) : bool :=
  if list_eq_dec N.eq_dec a b then true else false.

(** ECMAScript [WhiteSpace] and [LineTerminator] code units: what [\s] and
    [trim] recognise. *)
Definition is_line_terminator (c : char16) : bool :=
  (c =? 10) || (c =? 13) || (c =? 8232) || (c =? 8233).

Definition is_space (c : char16) : bool :=
  (c =? 9) || (c =? 11) || (c =? 12) || (c =? 32) || (c =? 160)
  || (c =? 5760) || ((8192 <=? c) && (c <=? 8202)) || (c =? 8239)
  || (c =? 8287) || (c =? 12288) || (c =? 65279)
  || is_line_terminator c.

Definition is_lower (c : char16) : bool := (97 <=? c) && (c <=? 122).
Definition is_upper (c : char16) : bool := (65 <=? c) && (c <=? 90).

Definition upper (c : char16) : char16 := if is_lower c then c - 32 else c.
Definition lower (c : char16) : char16 := if is_upper c then c + 32 else c.

(** [Canonicalize] of a regular expression without the [u] flag maps a code
    unit to its upper case unless that would turn a code unit of 128 or
    more into one below 128.  Every letter the patterns of this program
    name is ASCII, so a code unit is compared with a pattern letter exactly
    as ASCII upper-casing compares them. *)
Definition canonicalize (c : char16) : char16 := upper c.

(** [String.prototype.toUpperCase].  The program applies it to the capture
    of [(YES|NO)] only, which holds ASCII letters. *)
Definition toUpperCase (s : jsstring) : jsstring := map upper s.

Fixpoint drop_while (p : char16 -> bool) (s : jsstring) : jsstring :=
  match s with
  | c :: s' => if p c then drop_while p s' else s
  | [] => []
  end.

(** [String.prototype.trim]. *)
Definition trim (s : jsstring) : jsstring :=
  rev (drop_while is_space (rev (drop_while is_space s))).

(** [pat] is a prefix of [s]: what is left of [s] after it. *)
Fixpoint strip_prefix (pat s : jsstring) : option jsstring :=
  match pat, s with
  | [], _ => Some s
  | a :: pat', c :: s' => if a =? c then strip_prefix pat' s' else None
  | _ :: _, [] => None
  end.

(** [s.replace(pat, '')] with a string pattern: the first occurrence of
    [pat] is removed, a string without occurrence is returned as it is. *)
Fixpoint remove_first (pat s : jsstring) : jsstring :=
  match strip_prefix pat s with
  | Some rest => rest
  | None => match s with
            | c :: s' => c :: remove_first pat s'
            | [] => []
            end
  end.

(** [parts.join(sep)]. *)
Fixpoint join (sep : jsstring) (parts : list jsstring) : jsstring :=
  match parts with
  | [] => []
  | [p] => p
  | p :: ps => p ++ sep ++ join sep ps
  end.

(** The decimal rendering of an integer inside a template literal. *)
Definition number_to_string (z : Z) : jsstring :=
  lit (NilZero.string_of_int (Z.to_int z)).

(** [s] occurs in [t]. *)
Definition occurs (s t : jsstring) : Prop :=
  exists pre post, t = pre ++ s ++ post.

(* ================================================================== *)
(** * Regular expressions *)
(* ================================================================== *)

(** The fragment of ECMAScript regular expressions the program uses:
    literals, classes, greedy and lazy repetition of a one-character atom,
    a greedy optional group, alternation, capture groups, a positive
    lookahead and the end-of-input assertion. *)
Module RegExp.

Record flags := { ignoreCase : bool; dotAll : bool }.

(** A class item. *)
Inductive cset :=
| CChar (a : char16)             (* a single character *)
| CRange (lo hi : char16)        (* [lo-hi] *)
| CSpace                         (* \s *)
| CDot.                          (* . *)

Inductive regex :=
| Empty
| Str (l : jsstring)             (* a literal run of characters *)
| Atom (cs : list cset)          (* one character of a class *)
| Seq (r1 r2 : regex)
| Alt (r1 r2 : regex)            (* r1|r2 *)
| Star (greedy : bool) (cs : list cset)   (* a* and a*? *)
| Plus (greedy : bool) (cs : list cset)   (* a+ and a+? *)
| Opt (r : regex)                (* (?:r)? *)
| Group (n : nat) (r : regex)    (* the n-th capture group *)
| Lookahead (r : regex)          (* (?=r) *)
| EndOfInput.                    (* $ without the m flag *)

Definition captures := list (nat * jsstring).

Fixpoint get_cap (n : nat) (caps : captures) : option jsstring :=
  match caps with
  | [] => None
  | (m, s) :: caps' => if Nat.eqb n m then Some s else get_cap n caps'
  end.

Definition set_cap (n : nat) (s : jsstring) (caps : captures) : captures :=
  (n, s) :: caps.

(** The characters of [s] in front of its suffix [s']. *)
Definition consumed (s s' : jsstring) : jsstring :=
  firstn (length s - length s') s.

Section Matcher.
Variable f : flags.

Definition char_eq (a c : char16) : bool :=
  if ignoreCase f then canonicalize a =? canonicalize c else a =? c.

Definition cset_mem (it : cset) (c : char16) : bool :=
  match it with
  | CChar a => c =? a
  | CRange lo hi => (lo <=? c) && (c <=? hi)
  | CSpace => is_space c
  | CDot => dotAll f || negb (is_line_terminator c)
  end.

(** A character belongs to a class when some member of the class has the
    same canonical form. *)
Definition class_match (cs : list cset) (c : char16) : bool :=
  existsb (fun it =>
    cset_mem it c
    || (ignoreCase f && (cset_mem it (upper c) || cset_mem it (lower c)))) cs.

Fixpoint strip_lit (l s : jsstring) : option jsstring :=
  match l, s with
  | [], _ => Some s
  | a :: l', c :: s' => if char_eq a c then strip_lit l' s' else None
  | _ :: _, [] => None
  end.

Section Repeat.
Variable R : Type.
Variable p : char16 -> bool.
Variable k : jsstring -> option R.

(** Greedy repetition: the longest run first, giving characters back
    one at a time while the continuation fails. *)
Fixpoint star_greedy (s : jsstring) : option R :=
  match s with
  | c :: s' =>
      if p c then
        match star_greedy s' with
        | Some x => Some x
        | None => k s
        end
      else k s
  | [] => k []
  end.

(** Lazy repetition: the continuation first, one more character each
    time it fails. *)
Fixpoint star_lazy (s : jsstring) : option R :=
  match k s with
  | Some x => Some x
  | None =>
      match s with
      | c :: s' => if p c then star_lazy s' else None
      | [] => None
      end
  end.
End Repeat.

Arguments star_greedy {R} p k s.
Arguments star_lazy {R} p k s.

Definition star {R : Type} (greedy : bool) (p : char16 -> bool)
    (k : jsstring -> option R) (s : jsstring) : option R :=
  if greedy then star_greedy p k s else star_lazy p k s.

(** The backtracking matcher, in continuation-passing style: [run r s
    caps k] matches [r] at the front of [s] and hands what is left of the
    input and the captures to [k]; a failure of [k] makes the matcher try
    its next alternative. *)
Fixpoint run (r : regex) {R : Type} (s : jsstring) (caps : captures)
    (k : jsstring -> captures -> option R) {struct r} : option R :=
  match r with
  | Empty => k s caps
  | Str l =>
      match strip_lit l s with
      | Some s' => k s' caps
      | None => None
      end
  | Atom cs =>
      match s with
      | c :: s' => if class_match cs c then k s' caps else None
      | [] => None
      end
  | Seq r1 r2 => run r1 s caps (fun s1 caps1 => run r2 s1 caps1 k)
  | Alt r1 r2 =>
      match run r1 s caps k with
      | Some x => Some x
      | None => run r2 s caps k
      end
  | Star g cs => star g (class_match cs) (fun s' => k s' caps) s
  | Plus g cs =>
      match s with
      | c :: s' =>
          if class_match cs c
          then star g (class_match cs) (fun s'' => k s'' caps) s'
          else None
      | [] => None
      end
  | Opt r1 =>
      match run r1 s caps k with
      | Some x => Some x
      | None => k s caps
      end
  | Group n r1 =>
      run r1 s caps (fun s' caps' => k s' (set_cap n (consumed s s') caps'))
  | Lookahead r1 =>
      match run r1 s caps (fun _ caps' => Some caps') with
      | Some caps' => k s caps'
      | None => None
      end
  | EndOfInput =>
      match s with
      | [] => k [] caps
      | _ :: _ => None
      end
  end.

(** A match result: [index], [m[0]] and the capture groups. *)
Record result := { index : nat; matched : jsstring; groups : captures }.

(** [m[n]]; [None] is [undefined], a group that took no part. *)
Definition group (n : nat) (m : result) : option jsstring :=
  get_cap n (groups m).

(** A match of [r] at the front of [s]: [m[0]], the capture groups and
    the rest of the input. *)
Definition match_at (r : regex) (s : jsstring)
    : option (jsstring * captures * jsstring) :=
  run r s [] (fun s' caps => Some (consumed s s', caps, s')).

(** [RegExp.prototype.exec] from offset [i], of which [s] is the input
    from there on: the leftmost match. *)
Fixpoint exec_from (r : regex) (i : nat) (s : jsstring)
    : option (result * jsstring) :=
  match match_at r s with
  | Some (m0, caps, rest) =>
      Some ({| index := i; matched := m0; groups := caps |}, rest)
  | None =>
      match s with
      | _ :: s' => exec_from r (S i) s'
      | [] => None
      end
  end.

(** [s.match(r)] for a pattern without the [g] flag. *)
Definition str_match (r : regex) (s : jsstring) : option result :=
  option_map fst (exec_from r 0 s).

(** [s.matchAll(r)] for a pattern with the [g] flag: the matches from left
    to right, each search starting where the previous match ended (one
    further after an empty match).  [skip] counts the characters of the
    subject still covered by the previous match. *)
Fixpoint matchAll_from (r : regex) (skip i : nat) (s : jsstring)
    : list result :=
  match skip with
  | S skip' =>
      match s with
      | _ :: s' => matchAll_from r skip' (S i) s'
      | [] => []
      end
  | O =>
      match match_at r s with
      | Some (m0, caps, _) =>
          {| index := i; matched := m0; groups := caps |}
          :: match s with
             | _ :: s' => matchAll_from r (pred (length m0)) (S i) s'
             | [] => []
             end
      | None =>
          match s with
          | _ :: s' => matchAll_from r 0 (S i) s'
          | [] => []
          end
      end
  end.

Definition matchAll (r : regex) (s : jsstring) : list result :=
  matchAll_from r 0 0 s.

End Matcher.

Arguments star_greedy {R} p k s.
Arguments star_lazy {R} p k s.
Arguments star {R} greedy p k s.

End RegExp.

Import RegExp.

Notation "r1 >> r2" := (Seq r1 r2) (at level 61, right associativity).

(** [\s*] *)
Definition spaces : regex := Star true [CSpace].

Definition flags_i : flags := {| ignoreCase := true; dotAll := false |}.
Definition flags_is : flags := {| ignoreCase := true; dotAll := true |}.

(* ================================================================== *)
(** * Results of calls that may throw *)
(* ================================================================== *)

Inductive outcome (A : Type) :=
| Returned (a : A)
| Thrown (message : jsstring).

Arguments Returned {A} a.
Arguments Thrown {A} message.

(* ================================================================== *)
(** * Numbers that hold whole values *)
(* ================================================================== *)

(** A number of the program is a double.  The whole number a double can
    hold that is nearest to [z]: [z] itself below 2^53 in magnitude;
    beyond, [z] rounded to 53 significant bits, a tie going to the even
    significand. *)
Definition round_to_double (z : Z) : Z :=
  let a := Z.abs z in
  if (a <? 2 ^ 53)%Z then z
  else
    let ulp := (2 ^ (Z.log2 a - 52))%Z in
    let q := (a / ulp)%Z in
    let r := (a mod ulp)%Z in
    let q' :=
      if (2 * r <? ulp)%Z then q
      else if (ulp <? 2 * r)%Z then (q + 1)%Z
      else if Z.even q then q else (q + 1)%Z in
    (Z.sgn z * (q' * ulp))%Z.

(** [a + b] on numbers that hold whole values: the exact sum, rounded to
    a double.  (A sum of magnitude 2^1024 or more is infinite; the counters
    of the program are far below.) *)
Definition number_add (a b : Z) : Z := round_to_double (a + b).

(* ================================================================== *)
(** * Session manager ([session.ts]) *)
(* ================================================================== *)

Inductive PermissionMode := mode_default | acceptEdits | plan | bypass.
Inductive ClaudeModel := opus | sonnet | haiku.
Inductive ThinkingLevel := high | medium | low.

(** Token counts are numbers that hold whole values; timestamps are the
    ISO strings [new Date().toISOString()] returns. *)
Record TokenUsage := {
  totalInput : Z;
  totalOutput : Z;
  sessionInput : Z;
  sessionOutput : Z;
  lastUpdated : jsstring
}.

Record SessionState := {
  sessionId : option jsstring;
  lastActivity : jsstring;
  currentProject : option jsstring;
  permissionMode : PermissionMode;
  model : ClaudeModel;
  thinkingLevel : ThinkingLevel;
  verbose : bool;
  tokenUsage : TokenUsage
}.

(** What [getTokenUsage] returns.  The costs are the exact rationals of
    which the program computes the floating-point value. *)
Record UsageStats := {
  stats_input : Z;
  stats_output : Z;
  stats_total : Z;
  stats_sessionInput : Z;
  stats_sessionOutput : Z;
  stats_sessionTotal : Z;
  stats_cost : Q;
  stats_sessionCost : Q
}.

Module SessionManager.

(** The manager: [state] is [null] until [init] has run; [file] is the
    content of [session.json], [None] while the file does not exist. *)
Record t := {
  state : option SessionState;
  file : option SessionState
}.

(** The manager as constructed. *)
Definition create (disk : option SessionState) : t :=
  {| state := None; file := disk |}.

Definition with_state (st : SessionState) (m : t) : t :=
  {| state := Some st; file := file m |}.

(** [load]: the file when it can be read, the defaults otherwise.  [now]
    is the current time, [cfgMode] and [cfgModel] are the configured
    permission mode and model. *)
Definition load (now : jsstring) (cfgMode : PermissionMode)
    (cfgModel : ClaudeModel) (m : t) : t :=
  match file m with
  | Some st => with_state st m
  | None =>
      with_state
        {| sessionId := None;
           lastActivity := now;
           currentProject := None;
           permissionMode := cfgMode;
           model := cfgModel;
           thinkingLevel := medium;
           verbose := false;
           tokenUsage := {| totalInput := 0; totalOutput := 0;
                            sessionInput := 0; sessionOutput := 0;
                            lastUpdated := now |} |} m
  end.

Definition init := load.

Definition save (m : t) : t :=
  match state m with
  | None => m
  | Some st => {| state := Some st; file := Some st |}
  end.

Definition getState (m : t) : outcome SessionState :=
  match state m with
  | None => Thrown (lit "Session not initialized. Call init() first.")
  | Some st => Returned st
  end.

(** A mutator: nothing before initialisation, otherwise the update
    followed by [save]. *)
Definition mutate (upd : SessionState -> SessionState) (m : t) : t :=
  match state m with
  | None => m
  | Some st => save (with_state (upd st) m)
  end.

Definition updateSessionId (now : jsstring) (id : jsstring) : t -> t :=
  mutate (fun st =>
    {| sessionId := Some id;
       lastActivity := now;
       currentProject := currentProject st;
       permissionMode := permissionMode st;
       model := model st;
       thinkingLevel := thinkingLevel st;
       verbose := verbose st;
       tokenUsage := tokenUsage st |}).

Definition setProject (projectId : option jsstring) : t -> t :=
  mutate (fun st =>
    {| sessionId := sessionId st;
       lastActivity := lastActivity st;
       currentProject := projectId;
       permissionMode := permissionMode st;
       model := model st;
       thinkingLevel := thinkingLevel st;
       verbose := verbose st;
       tokenUsage := tokenUsage st |}).

Definition setPermissionMode (mode : PermissionMode) : t -> t :=
  mutate (fun st =>
    {| sessionId := sessionId st;
       lastActivity := lastActivity st;
       currentProject := currentProject st;
       permissionMode := mode;
       model := model st;
       thinkingLevel := thinkingLevel st;
       verbose := verbose st;
       tokenUsage := tokenUsage st |}).

Definition setModel (mdl : ClaudeModel) : t -> t :=
  mutate (fun st =>
    {| sessionId := sessionId st;
       lastActivity := lastActivity st;
       currentProject := currentProject st;
       permissionMode := permissionMode st;
       model := mdl;
       thinkingLevel := thinkingLevel st;
       verbose := verbose st;
       tokenUsage := tokenUsage st |}).

Definition clear (now : jsstring) : t -> t :=
  mutate (fun st =>
    {| sessionId := None;
       lastActivity := now;
       currentProject := currentProject st;
       permissionMode := permissionMode st;
       model := model st;
       thinkingLevel := thinkingLevel st;
       verbose := verbose st;
       tokenUsage := tokenUsage st |}).

Definition touch (now : jsstring) : t -> t :=
  mutate (fun st =>
    {| sessionId := sessionId st;
       lastActivity := now;
       currentProject := currentProject st;
       permissionMode := permissionMode st;
       model := model st;
       thinkingLevel := thinkingLevel st;
       verbose := verbose st;
       tokenUsage := tokenUsage st |}).

Definition setThinkingLevel (level : ThinkingLevel) : t -> t :=
  mutate (fun st =>
    {| sessionId := sessionId st;
       lastActivity := lastActivity st;
       currentProject := currentProject st;
       permissionMode := permissionMode st;
       model := model st;
       thinkingLevel := level;
       verbose := verbose st;
       tokenUsage := tokenUsage st |}).

Definition setVerbose (v : bool) : t -> t :=
  mutate (fun st =>
    {| sessionId := sessionId st;
       lastActivity := lastActivity st;
       currentProject := currentProject st;
       permissionMode := permissionMode st;
       model := model st;
       thinkingLevel := thinkingLevel st;
       verbose := v;
       tokenUsage := tokenUsage st |}).

(** The counters after [recordUsage]: the session counters start from
    zero for a new session, then all four grow. *)
Definition add_usage (now : jsstring) (tokensIn tokensOut : Z)
    (newSession : bool) (u : TokenUsage) : TokenUsage :=
  let sessIn := if newSession then 0%Z else sessionInput u in
  let sessOut := if newSession then 0%Z else sessionOutput u in
  {| totalInput := number_add (totalInput u) tokensIn;
     totalOutput := number_add (totalOutput u) tokensOut;
     sessionInput := number_add sessIn tokensIn;
     sessionOutput := number_add sessOut tokensOut;
     lastUpdated := now |}.

Definition recordUsage (now : jsstring) (tokensIn tokensOut : Z)
    (newSession : bool) : t -> t :=
  mutate (fun st =>
    {| sessionId := sessionId st;
       lastActivity := lastActivity st;
       currentProject := currentProject st;
       permissionMode := permissionMode st;
       model := model st;
       thinkingLevel := thinkingLevel st;
       verbose := verbose st;
       tokenUsage := add_usage now tokensIn tokensOut newSession
                       (tokenUsage st) |}).

(** Price per token, input and output. *)
Definition pricing (mdl : ClaudeModel) : Q * Q :=
  match mdl with
  | opus => (15 # 1000000, 75 # 1000000)
  | sonnet => (3 # 1000000, 15 # 1000000)
  | haiku => (25 # 100000000, 125 # 100000000)
  end%Q.

Definition getTokenUsage (m : t) : outcome UsageStats :=
  match state m with
  | None =>
      Returned {| stats_input := 0; stats_output := 0; stats_total := 0;
                  stats_sessionInput := 0; stats_sessionOutput := 0;
                  stats_sessionTotal := 0;
                  stats_cost := 0; stats_sessionCost := 0 |}
  | Some st =>
      let u := tokenUsage st in
      let price := pricing (model st) in
      let cost := (inject_Z (totalInput u) * fst price
                   + inject_Z (totalOutput u) * snd price)%Q in
      let sessionCost := (inject_Z (sessionInput u) * fst price
                          + inject_Z (sessionOutput u) * snd price)%Q in
      Returned {| stats_input := totalInput u;
                  stats_output := totalOutput u;
                  stats_total := number_add (totalInput u) (totalOutput u);
                  stats_sessionInput := sessionInput u;
                  stats_sessionOutput := sessionOutput u;
                  stats_sessionTotal :=
                    number_add (sessionInput u) (sessionOutput u);
                  stats_cost := cost;
                  stats_sessionCost := sessionCost |}
  end.

End SessionManager.

(* ================================================================== *)
(** * CLI spawner ([spawner.ts]) *)
(* ================================================================== *)

Record Config := {
  claude_path : jsstring;
  agentTeams_enabled : bool;
  user_name : jsstring;
  user_timezone : jsstring;
  workspace_dir : jsstring
}.

Record ClaudeSpawnOptions := {
  prompt : jsstring;
  resume : bool;
  opt_sessionId : option jsstring;
  workingDir : option jsstring;
  opt_model : option ClaudeModel;
  opt_permissionMode : option PermissionMode;
  imagePath : option jsstring;
  teamMode : bool
}.

Record ClaudeResponse := {
  content : jsstring;
  resp_sessionId : option jsstring;
  error : option jsstring
}.

(** What became of the child process: it ran to its end, or spawning or
    reading it threw ([Some] the message of an [Error], [None] any other
    thrown value). *)
Inductive ProcessRun :=
| Exited (stdout stderr : jsstring) (exitCode : Z)
| SpawnThrew (message : option jsstring).

Module ClaudeSpawner.

(** [/Session ID:\s*([a-f0-9-]+)/i] *)
Definition sessionRe : regex :=
  Str (lit "Session ID:") >> spaces
  >> Group 1 (Plus true [CRange (ch "a") (ch "f"); CRange (ch "0") (ch "9");
                         CChar (ch "-")]).

(** [sessionMatch?.[1]] *)
Definition sessionMatch (stdout : jsstring) : option jsstring :=
  match str_match flags_i sessionRe stdout with
  | Some m => group 1 m
  | None => None
  end.

Definition spawn (options : ClaudeSpawnOptions) (proc : ProcessRun)
    : ClaudeResponse :=
  match proc with
  | Exited stdout stderr exitCode =>
      if negb (exitCode =? 0)%Z then
        {| content := [];
           resp_sessionId := None;
           error := or_else (Some stderr)
                      (Some (lit "Claude exited with code "
                             ++ number_to_string exitCode)) |}
      else
        {| content := trim stdout;
           resp_sessionId := or_else (sessionMatch stdout)
                               (opt_sessionId options);
           error := None |}
  | SpawnThrew message =>
      {| content := [];
         resp_sessionId := None;
         error := Some match message with
                       | Some msg => msg
                       | None => lit "Unknown spawn error"
                       end |}
  end.

Definition model_name (m : ClaudeModel) : jsstring :=
  match m with
  | opus => lit "opus"
  | sonnet => lit "sonnet"
  | haiku => lit "haiku"
  end.

Definition mode_name (m : PermissionMode) : jsstring :=
  match m with
  | mode_default => lit "default"
  | acceptEdits => lit "acceptEdits"
  | plan => lit "plan"
  | bypass => lit "bypass"
  end.

Definition buildArgs (cfg : Config) (options : ClaudeSpawnOptions)
    : list jsstring :=
  let args := [lit "-p"; prompt options] in
  let args :=
    match opt_sessionId options with
    | Some id => if resume options && truthy id
                 then args ++ [lit "--resume"; id] else args
    | None => args
    end in
  let args :=
    match opt_model options with
    | Some m => args ++ [lit "--model"; model_name m]
    | None => args
    end in
  let args :=
    match opt_permissionMode options with
    | Some mode_default | None => args
    | Some m => args ++ [lit "--mode"; mode_name m]
    end in
  let args := args ++ [lit "--output-format"; lit "text"] in
  if agentTeams_enabled cfg && teamMode options
  then args ++ [lit "--teammate-mode"; lit "in-process"]
  else args.

(** The four workspace documents; each may be missing. *)
Record WorkspaceFiles := {
  agents : option jsstring;
  tools : option jsstring;
  soul : option jsstring;
  memory : option jsstring
}.

(** [if (doc) parts.push(header, doc)] *)
Definition push_section (header : jsstring) (doc : option jsstring)
    (parts : list jsstring) : list jsstring :=
  match doc with
  | Some d => if truthy d then parts ++ [header; d] else parts
  | None => parts
  end.

Definition hdr_soul := lit "
## WHO YOU ARE
".
Definition hdr_agents := lit "
## WORKSPACE GUIDE
".
Definition hdr_tools := lit "
## LOCAL ENVIRONMENT
".
Definition hdr_memory := lit "
## YOUR MEMORY
".
Definition hdr_context := lit "
## FACTS & GOALS
".
Definition hdr_relevant := lit "
## RELEVANT PAST CONTEXT
".

Definition preamble : list jsstring :=
  [lit "You are a personal AI assistant responding via Telegram.";
   lit "You have full Claude Code capabilities: tools, file access, web search, git, and more.";
   lit "Keep responses concise and conversational for Telegram."].

(** The em dash of the instructions is the code unit U+2014. *)
Definition instructions : list jsstring :=
  [lit "
## MEMORY MANAGEMENT";
   lit "When the user shares important information, use these tags in your response:";
   lit "- [REMEMBER: fact to store] " ++ [8212] ++ lit " for facts to remember";
   lit "- [GOAL: task | DEADLINE: optional date] " ++ [8212] ++ lit " for goals";
   lit "- [DONE: search text] " ++ [8212] ++ lit " to mark a goal as completed";
   [];
   lit "These tags are automatically processed and hidden from the user."].

Definition hdr_user := lit "
## USER MESSAGE
".

(** The array [parts] at the end of [buildEnrichedPrompt].  [timeStr] is
    the current time as [toLocaleString] renders it in the user's time
    zone. *)
Definition enrichedParts (cfg : Config) (timeStr : jsstring)
    (userMessage : jsstring) (workspaceFiles : WorkspaceFiles)
    (memoryContext relevantMessages : option jsstring) : list jsstring :=
  let parts := [] in
  let parts := parts ++ preamble in
  let parts :=
    if truthy (user_name cfg)
    then parts ++ [lit "
You are assisting " ++ user_name cfg ++ lit "."]
    else parts in
  let parts := parts ++ [lit "Current time: " ++ timeStr] in
  let parts := push_section hdr_soul (soul workspaceFiles) parts in
  let parts := push_section hdr_agents (agents workspaceFiles) parts in
  let parts := push_section hdr_tools (tools workspaceFiles) parts in
  let parts := push_section hdr_memory (memory workspaceFiles) parts in
  let parts := push_section hdr_context memoryContext parts in
  let parts := push_section hdr_relevant relevantMessages parts in
  let parts := parts ++ instructions in
  let parts := parts ++ [hdr_user ++ userMessage] in
  parts.

Definition buildEnrichedPrompt (cfg : Config) (timeStr : jsstring)
    (userMessage : jsstring) (workspaceFiles : WorkspaceFiles)
    (memoryContext relevantMessages : option jsstring) : jsstring :=
  join (lit "
") (enrichedParts cfg timeStr userMessage workspaceFiles
        memoryContext relevantMessages).

End ClaudeSpawner.

(* ================================================================== *)
(** * The store: the [messages] and [memory] tables ([schema.sql]) *)
(* ================================================================== *)

(** The characters of a string as the store receives them: a surrogate
    pair is one character, and half a pair arrives as U+FFFD. *)
Definition is_high_surrogate (c : char16) : bool :=
  (55296 <=? c) && (c <=? 56319).
Definition is_low_surrogate (c : char16) : bool :=
  (56320 <=? c) && (c <=? 57343).

Fixpoint code_points (s : jsstring) : list N :=
  match s with
  | [] => []
  | c :: s' =>
      if is_high_surrogate c then
        match s' with
        | d :: s'' =>
            if is_low_surrogate d
            then (65536 + (c - 55296) * 1024 + (d - 56320)) :: code_points s''
            else 65533 :: code_points s'
        | [] => [65533]
        end
      else if is_low_surrogate c then 65533 :: code_points s'
      else c :: code_points s'
  end.

Inductive MemoryType := fact | goal | completed_goal | preference.

Definition MemoryType_eqb (a b : MemoryType) : bool :=
  match a, b with
  | fact, fact | goal, goal | completed_goal, completed_goal
  | preference, preference => true
  | _, _ => false
  end.

(** A row of [memory].  [deadline] and [completed_at] are time stamps, as
    the server read them. *)
Record MemoryRow := {
  id : N;
  created_at : N;
  type : MemoryType;
  mem_content : jsstring;
  deadline : option jsstring;
  completed_at : option jsstring
}.

Inductive Role := user | assistant | system.

Record MessageRow := {
  msg_role : Role;
  msg_content : jsstring;
  msg_channel : jsstring
}.

(** The requests the client sends to the store. *)
Inductive Request :=
| InsertMessage (role : Role) (text : jsstring)
| InsertMemory (ty : MemoryType) (text : jsstring) (dl : option jsstring)
| SelectGoalIds (pattern : jsstring) (limit : nat)
| UpdateCompleted (row : N) (at_time : jsstring).

(** What the database server decides, not the program: whether it takes a
    text as the value of a [TEXT] column, how it reads a text as the value
    of a [TIMESTAMPTZ] column ([None]: it refuses the text), and the small
    letter its collation gives a character. *)
Record Server := {
  text_in : jsstring -> bool;
  timestamptz_in : jsstring -> option jsstring;
  lower_char : N -> N
}.

(** The store.  [memory] lists the rows of the table in the order in which
    a query without an order clause returns them; an insert appends its
    row.  [clock] is the store's [NOW()], [next_id] the next generated key;
    [requests] records the requests received, oldest first. *)
Record Store := {
  server : Server;
  messages : list MessageRow;
  memory : list MemoryRow;
  clock : N;
  next_id : N;
  requests : list Request
}.

Definition empty_store (srv : Server) : Store :=
  {| server := srv; messages := []; memory := []; clock := 0; next_id := 0;
     requests := [] |}.

Module Sql.

(** [LIKE] patterns: [%] stands for any run of characters (the API layer
    reads [*] as [%]), [_] for any one character, and a backslash takes
    the next character literally.  [ILIKE] compares a character of the
    pattern with a character of the text by the small letters the
    collation gives them. *)
Definition is_percent (c : N) : bool :=
  (c =? 37) || (c =? 42).
Definition is_underscore (c : N) : bool := c =? 95.
Definition is_escape (c : N) : bool := c =? 92.

Section Like.
Variable lower : N -> N.

Definition same_letter (a c : N) : bool := lower a =? lower c.

Fixpoint like (pattern : list N) (text : list N) : bool :=
  match pattern with
  | [] => match text with [] => true | _ :: _ => false end
  | p :: pattern' =>
      if is_percent p then
        (fix any (t : list N) : bool :=
           like pattern' t
           || match t with
              | _ :: t' => any t'
              | [] => false
              end) text
      else if is_underscore p then
        match text with
        | _ :: text' => like pattern' text'
        | [] => false
        end
      else if is_escape p then
        match pattern' with
        | e :: pattern'' =>
            match text with
            | c :: text' => same_letter e c && like pattern'' text'
            | [] => false
            end
        | [] => false
        end
      else
        match text with
        | c :: text' => same_letter p c && like pattern' text'
        | [] => false
        end
  end.

End Like.

(** [content ILIKE pattern] on the server [srv]. *)
Definition ilike (srv : Server) (pattern : jsstring) (text : jsstring)
    : bool :=
  like (lower_char srv) (code_points pattern) (code_points text).

(** An insert the server refuses leaves the tables as they are. *)
Definition insert_message (role : Role) (text : jsstring) (db : Store)
    : Store :=
  {| server := server db;
     messages :=
       if text_in (server db) text
       then messages db
            ++ [{| msg_role := role; msg_content := text;
                   msg_channel := lit "telegram" |}]
       else messages db;
     memory := memory db;
     clock := clock db + 1;
     next_id := next_id db;
     requests := requests db ++ [InsertMessage role text] |}.

(** The row of an insert into [memory], when the server takes the
    content and reads the deadline, if there is one. *)
Definition new_row (ty : MemoryType) (text : jsstring)
    (dl : option jsstring) (db : Store) : option MemoryRow :=
  if text_in (server db) text then
    match dl with
    | None =>
        Some {| id := next_id db; created_at := clock db; type := ty;
                mem_content := text; deadline := None;
                completed_at := None |}
    | Some d =>
        match timestamptz_in (server db) d with
        | Some ts =>
            Some {| id := next_id db; created_at := clock db; type := ty;
                    mem_content := text; deadline := Some ts;
                    completed_at := None |}
        | None => None
        end
    end
  else None.

Definition insert_memory (ty : MemoryType) (text : jsstring)
    (dl : option jsstring) (db : Store) : Store :=
  {| server := server db;
     messages := messages db;
     memory := match new_row ty text dl db with
               | Some row => memory db ++ [row]
               | None => memory db
               end;
     clock := clock db + 1;
     next_id := match new_row ty text dl db with
                | Some _ => next_id db + 1
                | None => next_id db
                end;
     requests := requests db ++ [InsertMemory ty text dl] |}.

(** [select('id').eq('type', 'goal').ilike('content', pattern).limit(n)] *)
Definition select_goal_ids (pattern : jsstring) (limit : nat) (db : Store)
    : list N * Store :=
  (map id
     (firstn limit
        (filter (fun r => MemoryType_eqb (type r) goal
                          && ilike (server db) pattern (mem_content r))
                (memory db))),
   {| server := server db;
      messages := messages db; memory := memory db; clock := clock db;
      next_id := next_id db;
      requests := requests db ++ [SelectGoalIds pattern limit] |}).

Definition complete_row (at_time : jsstring) (r : MemoryRow) : MemoryRow :=
  {| id := id r; created_at := created_at r; type := completed_goal;
     mem_content := mem_content r; deadline := deadline r;
     completed_at := Some at_time |}.

(** [update({type: 'completed_goal', completed_at}).eq('id', row)];
    [at_time] is an ISO time stamp of the program's clock. *)
Definition update_completed (row : N) (at_time : jsstring) (db : Store)
    : Store :=
  {| server := server db;
     messages := messages db;
     memory := map (fun r => if id r =? row then complete_row at_time r
                             else r) (memory db);
     clock := clock db + 1;
     next_id := next_id db;
     requests := requests db ++ [UpdateCompleted row at_time] |}.

End Sql.

(* ================================================================== *)
(** * Memory system ([supabase.ts]) *)
(* ================================================================== *)

Module MemorySystem.

Definition dot_plus_lazy : regex := Plus false [CDot].

(** [/\[REMEMBER:\s*(.+?)\]/gi] *)
Definition rememberRe : regex :=
  Str (lit "[REMEMBER:") >> spaces >> Group 1 dot_plus_lazy >> Str (lit "]").

(** [/\[GOAL:\s*(.+?)(?:\s*\|\s*DEADLINE:\s*(.+?))?\]/gi] *)
Definition goalRe : regex :=
  Str (lit "[GOAL:") >> spaces >> Group 1 dot_plus_lazy
  >> Opt (spaces >> Str (lit "|") >> spaces >> Str (lit "DEADLINE:")
          >> spaces >> Group 2 dot_plus_lazy)
  >> Str (lit "]").

(** [/\[DONE:\s*(.+?)\]/gi] *)
Definition doneRe : regex :=
  Str (lit "[DONE:") >> spaces >> Group 1 dot_plus_lazy >> Str (lit "]").

Definition saveMessage (role : Role) (text : jsstring) (db : Store) : Store :=
  Sql.insert_message role text db.

Definition saveFact (text : jsstring) (db : Store) : Store :=
  Sql.insert_memory fact text None db.

(** [deadline || null] *)
Definition saveGoal (text : jsstring) (dl : option jsstring) (db : Store)
    : Store :=
  Sql.insert_memory goal text (or_else dl None) db.

Definition completeGoal (now : jsstring) (searchText : jsstring)
    (db : Store) : Store :=
  let '(data, db) :=
    Sql.select_goal_ids (lit "%" ++ searchText ++ lit "%") 1 db in
  match data with
  | row :: _ => Sql.update_completed row now db
  | [] => db
  end.

(** [match[1]]: the first group takes part in every match of the three
    patterns. *)
Definition group1 (m : result) : jsstring :=
  match group 1 m with
  | Some s => s
  | None => []
  end.

(** One loop of [processMemoryIntents]: for each match, the store call,
    then the matched text removed from [clean]. *)
Definition for_each_match (call : result -> Store -> Store)
    (ms : list result) (st : jsstring * Store) : jsstring * Store :=
  fold_left (fun '(clean, db) m => (remove_first (matched m) clean, call m db))
            ms st.

(** [now] is the time at which the goals are completed. *)
Definition processMemoryIntents (now : jsstring) (response : jsstring)
    (db : Store) : jsstring * Store :=
  let st := (response, db) in
  let st := for_each_match (fun m => saveFact (group1 m))
              (matchAll flags_i rememberRe response) st in
  let st := for_each_match
              (fun m => saveGoal (group1 m) (or_else (group 2 m) None))
              (matchAll flags_i goalRe response) st in
  let st := for_each_match (fun m => completeGoal now (group1 m))
              (matchAll flags_i doneRe response) st in
  (trim (fst st), snd st).

End MemorySystem.

(* ================================================================== *)
(** * Text handler ([message.ts]) *)
(* ================================================================== *)

Inductive Outbound :=
| ChatAction (action : jsstring)      (* ctx.replyWithChatAction *)
| Reply (text : jsstring)             (* ctx.reply *)
| Response (text : jsstring).         (* this.sendResponse *)

(** The objects the handler works on: the session manager, the store and
    the chat (what has been sent, oldest first). *)
Record World := {
  session : SessionManager.t;
  store : Store;
  chat : list Outbound
}.

(** What the handler reads from its surroundings while it runs: the
    workspace documents, the memory context and the relevant context
    rendered from the store, the working directory of the process, and the
    clock. *)
Record Env := {
  env_files : ClaudeSpawner.WorkspaceFiles;
  env_memoryContext : jsstring;
  env_relevantContext : jsstring;
  env_timeStr : jsstring;
  env_cwd : jsstring;
  env_now : jsstring
}.

Module MessageHandler.

Definition say (o : Outbound) (w : World) : World :=
  {| session := session w; store := store w; chat := chat w ++ [o] |}.

Definition on_store (f : Store -> Store) (w : World) : World :=
  {| session := session w; store := f (store w); chat := chat w |}.

Definition on_session (f : SessionManager.t -> SessionManager.t) (w : World)
    : World :=
  {| session := f (session w); store := store w; chat := chat w |}.

(** [handleText] up to the call of [spawn]: the options of the call, or
    the error [getState] throws. *)
Definition handleText_request (cfg : Config) (env : Env) (text : jsstring)
    (w : World) : World * outcome ClaudeSpawnOptions :=
  let w := say (ChatAction (lit "typing")) w in
  let w := on_store (MemorySystem.saveMessage user text) w in
  let enrichedPrompt :=
    ClaudeSpawner.buildEnrichedPrompt cfg (env_timeStr env) text
      (env_files env) (Some (env_memoryContext env))
      (Some (env_relevantContext env)) in
  match SessionManager.getState (session w) with
  | Thrown e => (w, Thrown e)
  | Returned state =>
      (w, Returned
            {| prompt := enrichedPrompt;
               resume := match sessionId state with
                         | Some sid => truthy sid
                         | None => false
                         end;
               opt_sessionId := or_else (sessionId state) None;
               workingDir := Some (env_cwd env);
               opt_model := Some (model state);
               opt_permissionMode := Some (permissionMode state);
               imagePath := None;
               teamMode := false |})
  end.

(** [handleText] from the answer of [spawn] on. *)
Definition handleText_resume (env : Env) (response : ClaudeResponse)
    (w : World) : World :=
  match or_else (error response) None with
  | Some e =>
      say (Reply ([9888; 65039] ++ lit " Error: " ++ e)) w
  | None =>
      let w :=
        match or_else (resp_sessionId response) None with
        | Some sid =>
            on_session (SessionManager.updateSessionId (env_now env) sid) w
        | None => w
        end in
      let '(cleanResponse, db) :=
        MemorySystem.processMemoryIntents (env_now env) (content response)
          (store w) in
      let w := on_store (fun _ => db) w in
      let w := on_store (MemorySystem.saveMessage assistant cleanResponse) w in
      let w := say (Response cleanResponse) w in
      on_session (SessionManager.touch (env_now env)) w
  end.

(** [handleText] on a message; [text] is [ctx.message?.text] and [proc]
    what becomes of the child process. *)
Definition handleText (cfg : Config) (env : Env) (text : option jsstring)
    (proc : ProcessRun) (w : World) : World :=
  match or_else text None with
  | None => w
  | Some text =>
      match handleText_request cfg env text w with
      | (w, Thrown _) => w
      | (w, Returned options) =>
          handleText_resume env (ClaudeSpawner.spawn options proc) w
      end
  end.

End MessageHandler.

(* ================================================================== *)
(** * Smart check-in ([cron.ts]) *)
(* ================================================================== *)

Inductive CronEffect :=
| SendTelegram (message : jsstring)
| AppendToTodayLog (text : jsstring).

Module CronScheduler.

(** [/DECISION:\s*(YES|NO)/i] *)
Definition decisionRe : regex :=
  Str (lit "DECISION:") >> spaces
  >> Group 1 (Alt (Str (lit "YES")) (Str (lit "NO"))).

(** [/MESSAGE:\s*(.+?)(?=\nREASON:|$)/is] *)
Definition messageRe : regex :=
  Str (lit "MESSAGE:") >> spaces >> Group 1 (Plus false [CDot])
  >> Lookahead (Alt (Str (lit "
REASON:")) EndOfInput).

(** [decisionMatch?.[1]?.toUpperCase() === 'YES'] *)
Definition shouldCheckin (text : jsstring) : bool :=
  match str_match flags_i decisionRe text with
  | Some m =>
      match group 1 m with
      | Some d => jsstring_eqb (toUpperCase d) (lit "YES")
      | None => false
      end
  | None => false
  end.

(** [messageMatch?.[1]?.trim()] *)
Definition message (text : jsstring) : option jsstring :=
  match str_match flags_is messageRe text with
  | Some m => option_map trim (group 1 m)
  | None => None
  end.

(** The message to send, if one is to be sent. *)
Definition decide (text : jsstring) : option jsstring :=
  match message text with
  | Some msg =>
      if shouldCheckin text && truthy msg
         && negb (jsstring_eqb msg (lit "none"))
      then Some msg else None
  | None => None
  end.

Definition quiet_hours (hour : Z) : bool :=
  ((23 <=? hour) || (hour <? 8))%Z.

(** [smartCheckin]: [hour] is the local hour, [enrichedPrompt] the
    decision request built from the workspace and the goals, and [proc]
    what becomes of the child process. *)
Definition smartCheckin (hour : Z) (enrichedPrompt : jsstring)
    (workspaceDir : jsstring) (proc : ProcessRun) : list CronEffect :=
  if quiet_hours hour then []
  else
    let response :=
      ClaudeSpawner.spawn
        {| prompt := enrichedPrompt; resume := false;
           opt_sessionId := None; workingDir := Some workspaceDir;
           opt_model := None; opt_permissionMode := None;
           imagePath := None; teamMode := false |} proc in
    match or_else (error response) None with
    | Some _ => []
    | None =>
        match decide (content response) with
        | Some msg =>
            [SendTelegram msg;
             AppendToTodayLog (lit "[Smart Check-in]
" ++ msg)]
        | None => []
        end
    end.

End CronScheduler.

(* ================================================================== *)
(** * What a match is *)
(* ================================================================== *)

Module RegExpSpec.

Section Spec.
Variable f : flags.

(** [m] reads as the literal [l]. *)
Definition lit_eq (l m : jsstring) : Prop :=
  Forall2 (fun a c => char_eq f a c = true) l m.

Definition all (p : char16 -> bool) (m : jsstring) : Prop :=
  forallb p m = true.

(** [rmatch r s caps s' caps']: some way of matching [r] at the front of
    [s] leaves [s'] and turns the captures [caps] into [caps']. *)
Inductive rmatch : regex -> jsstring -> captures -> jsstring -> captures
                 -> Prop :=
| M_Empty s caps : rmatch Empty s caps s caps
| M_Str l m s caps : lit_eq l m -> rmatch (Str l) (m ++ s) caps s caps
| M_Atom cs c s caps :
  class_match f cs c = true -> rmatch (Atom cs) (c :: s) caps s caps
| M_Seq r1 r2 s caps s1 caps1 s2 caps2 :
  rmatch r1 s caps s1 caps1 -> rmatch r2 s1 caps1 s2 caps2 ->
  rmatch (Seq r1 r2) s caps s2 caps2
| M_AltL r1 r2 s caps s' caps' :
  rmatch r1 s caps s' caps' -> rmatch (Alt r1 r2) s caps s' caps'
| M_AltR r1 r2 s caps s' caps' :
  rmatch r2 s caps s' caps' -> rmatch (Alt r1 r2) s caps s' caps'
| M_Star g cs m s caps :
  all (class_match f cs) m -> rmatch (Star g cs) (m ++ s) caps s caps
| M_Plus g cs c m s caps :
  class_match f cs c = true -> all (class_match f cs) m ->
  rmatch (Plus g cs) (c :: m ++ s) caps s caps
| M_OptSome r s caps s' caps' :
  rmatch r s caps s' caps' -> rmatch (Opt r) s caps s' caps'
| M_OptNone r s caps : rmatch (Opt r) s caps s caps
| M_Group n r s caps s' caps' :
  rmatch r s caps s' caps' ->
  rmatch (Group n r) s caps s' (set_cap n (consumed s s') caps')
| M_Lookahead r s caps s' caps' :
  rmatch r s caps s' caps' -> rmatch (Lookahead r) s caps s caps'
| M_EndOfInput caps : rmatch EndOfInput [] caps [] caps.

End Spec.

End RegExpSpec.

Import RegExpSpec.


(* ================================================================== *)
(** * Vocabulary of the statements *)
(* ================================================================== *)

(** The class of the continuation-token pattern, [[a-f0-9-]] under the
    [i] flag. *)
Definition token_char (c : char16) : bool :=
  class_match flags_i
    [CRange (ch "a") (ch "f"); CRange (ch "0") (ch "9"); CChar (ch "-")] c.

(** [stdout] carries the marker: the words [Session ID:] in any letter
    case, white space, and a token [tok] of token characters. *)
Definition marker_at (stdout pre tok post : jsstring) : Prop :=
  exists mk ws,
    stdout = pre ++ mk ++ ws ++ tok ++ post
    /\ lit_eq flags_i (lit "Session ID:") mk
    /\ all is_space ws
    /\ tok <> [] /\ all token_char tok.

Definition has_marker (stdout : jsstring) : Prop :=
  exists pre tok post, marker_at stdout pre tok post.

(** [w], up to the case of letters, opens [s]: what follows it in [s]. *)
Fixpoint opens_with (w s : jsstring) : option jsstring :=
  match w, s with
  | [], _ => Some s
  | a :: w', c :: s' => if lower a =? lower c then opens_with w' s' else None
  | _ :: _, [] => None
  end.

(** [m] is the word [w] up to the case of letters. *)
Definition reads_as (w m : jsstring) : Prop :=
  Forall2 (fun a c => lower a = lower c) w m.

(** [test] holds at no place of [pre ++ rest] that lies inside [pre]. *)
Fixpoint begins_nowhere (test : jsstring -> bool) (pre rest : jsstring)
    : bool :=
  match pre with
  | [] => true
  | _ :: pre' => negb (test (pre ++ rest)) && begins_nowhere test pre' rest
  end.

(** The characters of a token: the digits, the letters a to f in either
    case, and the dash. *)
Definition hex_or_dash (c : char16) : bool :=
  ((48 <=? c) && (c <=? 57)) || ((97 <=? c) && (c <=? 102))
  || ((65 <=? c) && (c <=? 70)) || (c =? 45).

(** A marker begins [s]: the words [Session ID:], white space, and a
    character of a token. *)
Definition marker_begins (s : jsstring) : bool :=
  match opens_with (lit "Session ID:") s with
  | Some rest =>
      match drop_while is_space rest with
      | c :: _ => hex_or_dash c
      | [] => false
      end
  | None => false
  end.

(** The first marker of [stdout] stands behind [pre] and its token, taken
    to its full length, is [tok]. *)
Definition first_marker_at (stdout pre tok post : jsstring) : Prop :=
  exists mk ws,
    stdout = pre ++ mk ++ ws ++ tok ++ post
    /\ reads_as (lit "Session ID:") mk
    /\ all is_space ws
    /\ tok <> [] /\ all hex_or_dash tok
    /\ match post with
       | [] => True
       | c :: _ => hex_or_dash c = false
       end
    /\ begins_nowhere marker_begins pre (mk ++ ws ++ tok ++ post) = true.

(** What follows the words [Session ID:], after white space, is the end of
    the output or a character that is not a token character. *)
Definition foreign_token (post : jsstring) : bool :=
  match drop_while is_space post with
  | [] => true
  | c :: _ => negb (token_char c)
  end.

(** Every occurrence of the words [Session ID:] in [stdout], in any letter
    case, is followed by a foreign token. *)
Fixpoint marker_tokens_foreign (stdout : jsstring) : bool :=
  match strip_lit flags_i (lit "Session ID:") stdout with
  | Some post => foreign_token post
  | None => true
  end
  && match stdout with
     | [] => true
     | _ :: stdout' => marker_tokens_foreign stdout'
     end.

(** The first place of a text, from the left, at which [here] finds
    something, and what it finds there. *)
Fixpoint first_of {A : Type} (here : jsstring -> option A) (s : jsstring)
    : option A :=
  match here s with
  | Some a => Some a
  | None =>
      match s with
      | [] => None
      | _ :: s' => first_of here s'
      end
  end.

(** The decision that opens a text: the word [DECISION:], white space,
    then [YES] ([true]) or [NO] ([false]), the letters in any case and
    whatever follows the word. *)
Definition decision_here (s : jsstring) : option bool :=
  match opens_with (lit "DECISION:") s with
  | Some rest =>
      match opens_with (lit "YES") (drop_while is_space rest) with
      | Some _ => Some true
      | None =>
          match opens_with (lit "NO") (drop_while is_space rest) with
          | Some _ => Some false
          | None => None
          end
      end
  | None => None
  end.

Definition first_decision (text : jsstring) : option bool :=
  first_of decision_here text.

(** A message ends in front of a line that begins with [REASON:], the
    letters in any case, and at the end of the text. *)
Definition message_ends (s : jsstring) : bool :=
  match s with
  | [] => true
  | _ :: _ =>
      match opens_with (10 :: lit "REASON:") s with
      | Some _ => true
      | None => false
      end
  end.

(** The part of a text in front of the first place at which a message
    ends. *)
Fixpoint message_rest (s : jsstring) : jsstring :=
  if message_ends s then []
  else match s with
       | c :: s' => c :: message_rest s'
       | [] => []
       end.

(** The message that opens a text: the word [MESSAGE:], the letters in
    any case, white space, then at least one character and what follows
    it up to the first place at which a message ends, trimmed.  When only
    white space follows the word, the message is empty; when nothing
    follows it, there is no message. *)
Definition message_here (s : jsstring) : option jsstring :=
  match opens_with (lit "MESSAGE:") s with
  | Some rest =>
      match drop_while is_space rest with
      | c :: word => Some (trim (c :: message_rest word))
      | [] =>
          match rest with
          | [] => None
          | _ :: _ => Some []
          end
      end
  | None => None
  end.

Definition first_message (text : jsstring) : option jsstring :=
  first_of message_here text.

(** Something is found. *)
Definition found {A : Type} (o : option A) : bool :=
  match o with
  | Some _ => true
  | None => false
  end.

(** [text] holds, somewhere, [DECISION:] in any letter case, white space
    and the word [YES] in any letter case. *)
Definition says_yes_at (text : jsstring) : Prop :=
  exists pre mk ws y post,
    text = pre ++ mk ++ ws ++ y ++ post
    /\ lit_eq flags_i (lit "DECISION:") mk
    /\ all is_space ws
    /\ lit_eq flags_i (lit "YES") y.

(** The same, as a test: [text] begins with such words, or some later part
    of it does. *)
Definition yes_here (text : jsstring) : bool :=
  match strip_lit flags_i (lit "DECISION:") text with
  | Some rest =>
      match strip_lit flags_i (lit "YES") (drop_while is_space rest) with
      | Some _ => true
      | None => false
      end
  | None => false
  end.

Fixpoint says_yes (text : jsstring) : bool :=
  yes_here text
  || match text with
     | [] => false
     | _ :: text' => says_yes text'
     end.

(** [Number.isSafeInteger]: a whole number below 2^53 in magnitude. *)
Definition safe_integer (z : Z) : Prop :=
  (- 9007199254740992 < z < 9007199254740992)%Z.

(** The decimal numeral of a whole number from 0 to 999, digit by digit. *)
Definition digit (d : Z) : char16 := Z.to_N (48 + d).

Definition decimal (n : Z) : jsstring :=
  if (n <? 10)%Z then [digit n]
  else if (n <? 100)%Z then [digit (n / 10); digit (n mod 10)]
  else [digit (n / 100); digit ((n / 10) mod 10); digit (n mod 10)].

(** [pat] occurs in [s], as a test. *)
Fixpoint contains (pat s : jsstring) : bool :=
  match strip_prefix pat s with
  | Some _ => true
  | None =>
      match s with
      | [] => false
      | _ :: s' => contains pat s'
      end
  end.

(** The optional sections of the prompt, in the order of the source: the
    header line and the document of each. *)
Definition sections (files : ClaudeSpawner.WorkspaceFiles)
    (memoryContext relevantMessages : option jsstring)
    : list (jsstring * option jsstring) :=
  [(ClaudeSpawner.hdr_soul, ClaudeSpawner.soul files);
   (ClaudeSpawner.hdr_agents, ClaudeSpawner.agents files);
   (ClaudeSpawner.hdr_tools, ClaudeSpawner.tools files);
   (ClaudeSpawner.hdr_memory, ClaudeSpawner.memory files);
   (ClaudeSpawner.hdr_context, memoryContext);
   (ClaudeSpawner.hdr_relevant, relevantMessages)].

(** The text of a document; a missing document has none. *)
Definition text_of (doc : option jsstring) : jsstring :=
  match doc with
  | Some d => d
  | None => []
  end.

(** A section is present when its document is a non-empty string. *)
Definition present (sec : jsstring * option jsstring) : bool :=
  truthy (text_of (snd sec)).

(** The line that names the user, if the user has a name. *)
Definition identity_part (cfg : Config) : list jsstring :=
  if truthy (user_name cfg)
  then [lit "
You are assisting " ++ user_name cfg ++ lit "."]
  else [].

(** The two items a present section contributes. *)
Definition section_parts (sec : jsstring * option jsstring) : list jsstring :=
  [fst sec; text_of (snd sec)].

(** The parts of the prompt, written as the fixed sequence of its
    sections. *)
Definition ordered_parts (cfg : Config) (timeStr userMessage : jsstring)
    (secs : list (jsstring * option jsstring)) : list jsstring :=
  ClaudeSpawner.preamble
  ++ identity_part cfg
  ++ [lit "Current time: " ++ timeStr]
  ++ flat_map section_parts (filter present secs)
  ++ ClaudeSpawner.instructions
  ++ [ClaudeSpawner.hdr_user ++ userMessage].

(** The texts the builder always emits, line by line. *)
Definition fixed_lines : list jsstring :=
  ClaudeSpawner.preamble ++ ClaudeSpawner.instructions
  ++ [lit "## USER MESSAGE"].

(** A title: a line that begins with a hash, holds no line feed and does
    not end with a full stop. *)
Definition is_title (t : jsstring) : bool :=
  match t with
  | c :: _ =>
      (c =? 35) && negb (existsb (N.eqb 10) t) && negb (last t 0 =? 46)
  | [] => false
  end.

(** The rows a [DONE] search text selects on the server [srv]: the open
    goals whose content is like the text between two percent signs. *)
Definition done_hit (srv : Server) (searchText : jsstring) (r : MemoryRow)
    : bool :=
  MemoryType_eqb (type r) goal
  && Sql.ilike srv (lit "%" ++ searchText ++ lit "%") (mem_content r).

(** A search text without pattern characters: no percent sign, star,
    underscore or backslash. *)
Definition plain_char (c : N) : bool :=
  negb ((c =? 37) || (c =? 42) || (c =? 95) || (c =? 92)).

Definition plain_text (s : jsstring) : bool :=
  forallb plain_char (code_points s).

(** The characters [m] are those of [text] up to the small letters the
    server gives them. *)
Definition same_text (srv : Server) (text : jsstring) (m : list N) : Prop :=
  Forall2 (fun a c => lower_char srv a = lower_char srv c)
          (code_points text) m.

(** [content] holds [text], up to the case of letters. *)
Definition holds_text (srv : Server) (text content : jsstring) : Prop :=
  exists pre m post,
    code_points content = pre ++ m ++ post /\ same_text srv text m.

(** A character of the text of a tag: no line terminator, no bracket and
    no vertical bar. *)
Definition tag_char (c : char16) : bool :=
  negb (is_line_terminator c) && negb (c =? ch "[") && negb (c =? ch "]")
  && negb (c =? ch "|").

(** The text of a tag: characters of a tag, the first and the last of
    which are not white space. *)
Definition tag_text (t : jsstring) : bool :=
  match t with
  | [] => false
  | c :: _ =>
      negb (is_space c) && negb (is_space (last t 0)) && forallb tag_char t
  end.

Definition remember_tag (X : jsstring) : jsstring :=
  lit "[REMEMBER: " ++ X ++ lit "]".

Definition goal_tag (Y Z : jsstring) : jsstring :=
  lit "[GOAL: " ++ Y ++ lit " | DEADLINE: " ++ Z ++ lit "]".

Definition done_tag (Y : jsstring) : jsstring :=
  lit "[DONE: " ++ Y ++ lit "]".

(** A continuation whose failure does not depend on the captures. *)
Definition blind {R : Type} (k : jsstring -> captures -> option R) : Prop :=
  forall s c1 c2, k s c1 = None -> k s c2 = None.

(** The head of [s], if any, does not satisfy [p]. *)
Definition stops (p : char16 -> bool) (s : jsstring) : Prop :=
  match s with
  | [] => True
  | c :: _ => p c = false
  end.

(** The deadline clause of the goal pattern. *)
Definition deadline_clause : regex :=
  spaces >> Str (lit "|") >> spaces >> Str (lit "DEADLINE:") >> spaces
  >> Group 2 MemorySystem.dot_plus_lazy.

(** A pattern that begins with an opening bracket and a tag name. *)
Definition tag_pattern (a : char16) (name : jsstring) (r : regex) : regex :=
  Str (ch "[" :: a :: name) >> r.

(** Text without opening bracket. *)
Definition no_open (s : jsstring) : Prop := all (fun c => negb (c =? 91)) s.

(** A response that holds the three tags between two texts. *)
Definition three_tags (X Y Z pre post : jsstring) : jsstring :=
  pre ++ remember_tag X ++ goal_tag Y Z ++ done_tag Y ++ post.

(** The store after the three calls of a response that holds the three
    tags. *)
Definition after_tags (now X Y Z : jsstring) (db : Store) : Store :=
  MemorySystem.completeGoal now Y
    (MemorySystem.saveGoal Y (Some Z) (MemorySystem.saveFact X db)).

(** A request of a goal completion: the query, or the update. *)
Definition is_completion (q : Request) : Prop :=
  match q with
  | SelectGoalIds _ _ | UpdateCompleted _ _ => True
  | InsertMessage _ _ | InsertMemory _ _ _ => False
  end.

(** The summary of an uninitialised manager. *)
Definition zero_stats : UsageStats :=
  {| stats_input := 0; stats_output := 0; stats_total := 0;
     stats_sessionInput := 0; stats_sessionOutput := 0;
     stats_sessionTotal := 0; stats_cost := 0; stats_sessionCost := 0 |}.

(** Objects of the examples. *)
Module Sample.

Definition cfg : Config :=
  {| claude_path := lit "claude"; agentTeams_enabled := false;
     user_name := lit "Ann"; user_timezone := lit "UTC";
     workspace_dir := lit "/home/ann/workspace" |}.

Definition usage0 : TokenUsage :=
  {| totalInput := 1000; totalOutput := 400; sessionInput := 70;
     sessionOutput := 30; lastUpdated := lit "2026-01-01T00:00:00.000Z" |}.

Definition state0 : SessionState :=
  {| sessionId := Some (lit "0000-aaaa");
     lastActivity := lit "2026-01-01T00:00:00.000Z";
     currentProject := None;
     permissionMode := mode_default;
     model := sonnet;
     thinkingLevel := medium;
     verbose := false;
     tokenUsage := usage0 |}.

Definition manager0 : SessionManager.t :=
  {| SessionManager.state := Some state0;
     SessionManager.file := Some state0 |}.

(** A server that takes the texts without NUL in which every half of a
    surrogate pair has its other half, reads the calendar dates written
    year-month-day as midnight UTC of that day, and gives the letters of
    Latin-1 their small letters. *)
Fixpoint well_formed_text (s : jsstring) : bool :=
  match s with
  | [] => true
  | c :: s' =>
      if is_high_surrogate c then
        match s' with
        | d :: s'' => is_low_surrogate d && well_formed_text s''
        | [] => false
        end
      else negb (is_low_surrogate c) && negb (c =? 0) && well_formed_text s'
  end.

Definition is_digit (c : char16) : bool := (48 <=? c) && (c <=? 57).

Definition two_digits (a b : char16) : N := (a - 48) * 10 + (b - 48).

Definition leap_year (y : N) : bool :=
  ((y mod 4 =? 0) && negb (y mod 100 =? 0)) || (y mod 400 =? 0).

Definition days_in_month (y m : N) : N :=
  if m =? 2 then (if leap_year y then 29 else 28)
  else if (m =? 4) || (m =? 6) || (m =? 9) || (m =? 11) then 30
  else 31.

Definition iso_date (s : jsstring) : option jsstring :=
  match s with
  | [y1; y2; y3; y4; h1; m1; m2; h2; d1; d2] =>
      let y := two_digits y1 y2 * 100 + two_digits y3 y4 in
      let m := two_digits m1 m2 in
      let d := two_digits d1 d2 in
      if forallb is_digit [y1; y2; y3; y4; m1; m2; d1; d2]
         && (h1 =? 45) && (h2 =? 45)
         && (1 <=? y) && (1 <=? m) && (m <=? 12)
         && (1 <=? d) && (d <=? days_in_month y m)
      then Some (s ++ lit "T00:00:00+00:00") else None
  | _ => None
  end.

Definition latin_lower (c : N) : N :=
  if ((65 <=? c) && (c <=? 90))
     || ((192 <=? c) && (c <=? 222) && negb (c =? 215))
  then c + 32 else c.

Definition server0 : Server :=
  {| text_in := well_formed_text; timestamptz_in := iso_date;
     lower_char := latin_lower |}.

Definition store0 : Store := empty_store server0.

Definition world0 : World :=
  {| session := manager0; store := store0; chat := [] |}.

Definition no_files : ClaudeSpawner.WorkspaceFiles :=
  {| ClaudeSpawner.agents := Some []; ClaudeSpawner.tools := Some [];
     ClaudeSpawner.soul := Some []; ClaudeSpawner.memory := Some [] |}.

Definition env_at (now : string) : Env :=
  {| env_files := no_files; env_memoryContext := [];
     env_relevantContext := []; env_timeStr := lit "Monday";
     env_cwd := lit "/home/ann/bot"; env_now := lit now |}.

(** Two open goals, "Call mom" stored before "Call mom again". *)
Definition two_goals : Store :=
  MemorySystem.saveGoal (lit "Call mom again") None
    (MemorySystem.saveGoal (lit "Call mom") None store0).

Definition options0 : ClaudeSpawnOptions :=
  {| prompt := lit "hello"; resume := true;
     opt_sessionId := Some (lit "0000-aaaa"); workingDir := None;
     opt_model := Some sonnet; opt_permissionMode := Some mode_default;
     imagePath := None; teamMode := false |}.

End Sample.
(* ================================================================== *)
(** * Strings: basic facts *)
(* ================================================================== *)

Lemma consumed_app (m s : jsstring) : consumed (m ++ s) s = m.
Proof.
  unfold consumed. rewrite length_app.
  replace (length m + length s - length s)%nat with (length m) by lia.
  rewrite firstn_app, firstn_all, Nat.sub_diag. simpl. apply app_nil_r.
Qed.

Lemma consumed_cons_app (c : char16) (m s : jsstring) :
  consumed (c :: m ++ s) s = c :: m.
Proof. apply (consumed_app (c :: m) s). Qed.

Lemma jsstring_eqb_eq (a b : jsstring) : jsstring_eqb a b = true <-> a = b.
Proof.
  unfold jsstring_eqb. destruct (list_eq_dec N.eq_dec a b); split;
    intros; congruence.
Qed.

Lemma jsstring_eqb_refl (a : jsstring) : jsstring_eqb a a = true.
Proof. now apply jsstring_eqb_eq. Qed.

Lemma jsstring_eqb_neq (a b : jsstring) : a <> b -> jsstring_eqb a b = false.
Proof.
  intros H. destruct (jsstring_eqb a b) eqn:E; [|reflexivity].
  now apply jsstring_eqb_eq in E.
Qed.

Lemma truthy_nonempty (s : jsstring) : truthy s = true <-> s <> [].
Proof. destruct s; simpl; split; intros; congruence. Qed.

Lemma or_else_idem (a : option jsstring) :
  or_else (or_else a None) None = or_else a None.
Proof. destruct a as [[|c s]|]; reflexivity. Qed.

Lemma or_else_some (s : jsstring) (b : option jsstring) :
  s <> [] -> or_else (Some s) b = Some s.
Proof. destruct s; simpl; congruence. Qed.

(* ================================================================== *)
(** * The matcher finds only matches *)
(* ================================================================== *)

Section Soundness.
Variable f : flags.

Lemma strip_lit_sound (l s s' : jsstring) :
  strip_lit f l s = Some s' -> exists m, s = m ++ s' /\ lit_eq f l m.
Proof.
  revert s. induction l as [|a l IH]; intros s H; simpl in H.
  - inversion H; subst. exists []. split; [reflexivity|constructor].
  - destruct s as [|c s]; [discriminate|].
    destruct (char_eq f a c) eqn:E; [|discriminate].
    destruct (IH _ H) as (m & -> & Hm).
    exists (c :: m). split; [reflexivity|]. now constructor.
Qed.

Lemma strip_lit_complete (l m s : jsstring) :
  lit_eq f l m -> strip_lit f l (m ++ s) = Some s.
Proof.
  induction 1 as [|a c l m E _ IH]; simpl; [reflexivity|].
  now rewrite E.
Qed.

Lemma star_greedy_sound (R : Type) (p : char16 -> bool)
    (k : jsstring -> option R) (s : jsstring) (x : R) :
  star_greedy p k s = Some x ->
  exists m s', s = m ++ s' /\ all p m /\ k s' = Some x.
Proof.
  induction s as [|c s IH]; simpl; intros H.
  - exists [], []. now repeat split.
  - destruct (p c) eqn:Ep.
    + destruct (star_greedy p k s) eqn:E.
      * inversion H; subst. destruct (IH eq_refl) as (m & s' & -> & Hm & Hk).
        exists (c :: m), s'. repeat split; trivial.
        unfold all in *. simpl. now rewrite Ep.
      * exists [], (c :: s). now repeat split.
    + exists [], (c :: s). now repeat split.
Qed.

Lemma star_lazy_sound (R : Type) (p : char16 -> bool)
    (k : jsstring -> option R) (s : jsstring) (x : R) :
  star_lazy p k s = Some x ->
  exists m s', s = m ++ s' /\ all p m /\ k s' = Some x.
Proof.
  induction s as [|c s IH]; simpl; intros H.
  - destruct (k []) eqn:E; [|discriminate].
    inversion H; subst. exists [], []. now repeat split.
  - destruct (k (c :: s)) eqn:E.
    + inversion H; subst. exists [], (c :: s). now repeat split.
    + destruct (p c) eqn:Ep; [|discriminate].
      destruct (IH H) as (m & s' & -> & Hm & Hk).
      exists (c :: m), s'. repeat split; trivial.
      unfold all in *. simpl. now rewrite Ep.
Qed.

Lemma star_sound (R : Type) (g : bool) (p : char16 -> bool)
    (k : jsstring -> option R) (s : jsstring) (x : R) :
  star g p k s = Some x ->
  exists m s', s = m ++ s' /\ all p m /\ k s' = Some x.
Proof.
  destruct g; [apply star_greedy_sound|apply star_lazy_sound].
Qed.

(** Whatever the matcher hands to its continuation is a match. *)
Lemma run_sound (r : regex) :
  forall (R : Type) (s : jsstring) (caps : captures)
         (k : jsstring -> captures -> option R) (x : R),
    run f r s caps k = Some x ->
    exists s' caps', rmatch f r s caps s' caps' /\ k s' caps' = Some x.
Proof.
  induction r as [|l|cs|r1 IH1 r2 IH2|r1 IH1 r2 IH2|g cs|g cs|r IH|n r IH
                 |r IH|]; intros R s caps k x H; simpl in H.
  - exists s, caps. split; [constructor|assumption].
  - destruct (strip_lit f l s) as [s'|] eqn:E; [|discriminate].
    destruct (strip_lit_sound _ _ _ E) as (m & -> & Hm).
    exists s', caps. split; [now constructor|assumption].
  - destruct s as [|c s]; [discriminate|].
    destruct (class_match f cs c) eqn:E; [|discriminate].
    exists s, caps. split; [now constructor|assumption].
  - destruct (IH1 _ _ _ _ _ H) as (s1 & caps1 & M1 & H1).
    destruct (IH2 _ _ _ _ _ H1) as (s2 & caps2 & M2 & H2).
    exists s2, caps2. split; [econstructor; eassumption|assumption].
  - destruct (run f r1 s caps k) eqn:E.
    + inversion H; subst.
      destruct (IH1 _ _ _ _ _ E) as (s' & caps' & M & Hk).
      exists s', caps'. split; [now apply M_AltL|assumption].
    + destruct (IH2 _ _ _ _ _ H) as (s' & caps' & M & Hk).
      exists s', caps'. split; [now apply M_AltR|assumption].
  - destruct (star_sound _ _ _ _ _ _ H) as (m & s' & -> & Hm & Hk).
    exists s', caps. split; [now constructor|assumption].
  - destruct s as [|c s]; [discriminate|].
    destruct (class_match f cs c) eqn:E; [|discriminate].
    destruct (star_sound _ _ _ _ _ _ H) as (m & s' & -> & Hm & Hk).
    exists s', caps. split; [now constructor|assumption].
  - destruct (run f r s caps k) eqn:E.
    + inversion H; subst.
      destruct (IH _ _ _ _ _ E) as (s' & caps' & M & Hk).
      exists s', caps'. split; [now apply M_OptSome|assumption].
    + exists s, caps. split; [apply M_OptNone|assumption].
  - destruct (IH _ _ _ _ _ H) as (s' & caps' & M & Hk).
    exists s', (set_cap n (consumed s s') caps').
    split; [now constructor|assumption].
  - destruct (run f r s caps (fun _ caps' => Some caps')) as [caps1|] eqn:E;
      [|discriminate].
    destruct (IH _ _ _ _ _ E) as (s' & caps' & M & Hk).
    inversion Hk; subst.
    exists s, caps1. split; [econstructor; eassumption|assumption].
  - destruct s; [|discriminate].
    exists [], caps. split; [constructor|assumption].
Qed.

(** A match consumes a prefix of the input. *)
Lemma rmatch_suffix (r : regex) (s : jsstring) (caps : captures)
    (s' : jsstring) (caps' : captures) :
  rmatch f r s caps s' caps' -> exists m, s = m ++ s'.
Proof.
  induction 1.
  - now exists [].
  - now exists m.
  - now exists [c].
  - destruct IHrmatch1 as (m1 & ->). destruct IHrmatch2 as (m2 & ->).
    exists (m1 ++ m2). now rewrite app_assoc.
  - assumption.
  - assumption.
  - now exists m.
  - now exists (c :: m).
  - assumption.
  - now exists [].
  - assumption.
  - now exists [].
  - now exists [].
Qed.

Lemma match_at_sound (r : regex) (s m0 : jsstring) (caps : captures)
    (rest : jsstring) :
  match_at f r s = Some (m0, caps, rest) ->
  rmatch f r s [] rest caps /\ s = m0 ++ rest.
Proof.
  unfold match_at. intros H.
  destruct (run_sound _ _ _ _ _ _ H) as (s' & caps' & M & Hk).
  inversion Hk; subst. split; [assumption|].
  destruct (rmatch_suffix _ _ _ _ _ M) as (m & ->). now rewrite consumed_app.
Qed.

(** The leftmost match starts somewhere in the subject. *)
Lemma exec_from_sound (r : regex) (s : jsstring) :
  forall (i : nat) (m : result) (rest : jsstring),
    exec_from f r i s = Some (m, rest) ->
    exists pre, s = pre ++ matched m ++ rest
                /\ index m = (i + length pre)%nat
                /\ rmatch f r (matched m ++ rest) [] rest (groups m).
Proof.
  induction s as [|c s IH]; intros i m rest H; simpl in H.
  - destruct (match_at f r []) as [[[m0 caps] rest0]|] eqn:E; [|discriminate].
    inversion H; subst. destruct (match_at_sound _ _ _ _ _ E) as (M & Hs).
    exists []. simpl. rewrite <- Hs. repeat split; [lia|assumption].
  - destruct (match_at f r (c :: s)) as [[[m0 caps] rest0]|] eqn:E.
    + inversion H; subst. destruct (match_at_sound _ _ _ _ _ E) as (M & Hs).
      exists []. simpl. rewrite <- Hs. repeat split; [lia|assumption].
    + destruct (IH _ _ _ H) as (pre & -> & Hi & M).
      exists (c :: pre). simpl. repeat split; [lia|assumption].
Qed.

Lemma exec_from_front (r : regex) (i : nat) (s m0 : jsstring)
    (caps : captures) (rest : jsstring) :
  match_at f r s = Some (m0, caps, rest) ->
  exec_from f r i s
  = Some ({| index := i; matched := m0; groups := caps |}, rest).
Proof. intros H. destruct s; simpl; now rewrite H. Qed.

Lemma exec_from_none (r : regex) (s : jsstring) :
  forall (i : nat), exec_from f r i s = None ->
    forall pre s0, s = pre ++ s0 -> match_at f r s0 = None.
Proof.
  induction s as [|c s IH]; intros i H pre s0 Hs; simpl in H.
  - destruct pre; [|discriminate]. simpl in Hs. subst s0.
    destruct (match_at f r []) as [[[? ?] ?]|]; [discriminate|reflexivity].
  - destruct (match_at f r (c :: s)) as [[[? ?] ?]|] eqn:E; [discriminate|].
    destruct pre as [|c' pre]; simpl in Hs.
    + now subst s0.
    + inversion Hs; subst. eapply IH; [eassumption|reflexivity].
Qed.

Lemma exec_from_some (r : regex) (s : jsstring) :
  forall (i : nat) pre s0, s = pre ++ s0 -> match_at f r s0 <> None ->
    exec_from f r i s <> None.
Proof.
  intros i pre s0 Hs Hm Hn. apply Hm. eapply exec_from_none; eassumption.
Qed.

End Soundness.

(* ================================================================== *)
(** * The matcher finds a match when there is one *)
(* ================================================================== *)

Section Completeness.
Variable f : flags.


Lemma star_greedy_none_ext (R1 R2 : Type) (p : char16 -> bool)
    (k1 : jsstring -> option R1) (k2 : jsstring -> option R2) :
  (forall s, k1 s = None -> k2 s = None) ->
  forall s, star_greedy p k1 s = None -> star_greedy p k2 s = None.
Proof.
  intros Hk. induction s as [|c s IH]; simpl; intros H.
  - now apply Hk.
  - destruct (p c).
    + destruct (star_greedy p k1 s); [discriminate|].
      rewrite (IH eq_refl). now apply Hk.
    + now apply Hk.
Qed.

Lemma star_lazy_none_ext (R1 R2 : Type) (p : char16 -> bool)
    (k1 : jsstring -> option R1) (k2 : jsstring -> option R2) :
  (forall s, k1 s = None -> k2 s = None) ->
  forall s, star_lazy p k1 s = None -> star_lazy p k2 s = None.
Proof.
  intros Hk. induction s as [|c s IH]; simpl; intros H.
  - destruct (k1 []) eqn:E; [discriminate|]. now rewrite (Hk _ E).
  - destruct (k1 (c :: s)) eqn:E; [discriminate|]. rewrite (Hk _ E).
    destruct (p c); [now apply IH|reflexivity].
Qed.

Lemma star_none_ext (R1 R2 : Type) (g : bool) (p : char16 -> bool)
    (k1 : jsstring -> option R1) (k2 : jsstring -> option R2) :
  (forall s, k1 s = None -> k2 s = None) ->
  forall s, star g p k1 s = None -> star g p k2 s = None.
Proof.
  destruct g; [apply star_greedy_none_ext|apply star_lazy_none_ext].
Qed.

(** Whether the matcher fails depends on the continuation only through
    where the continuation fails. *)
Lemma run_none_ext (r : regex) :
  forall (R1 R2 : Type) (s : jsstring) (c1 c2 : captures)
         (k1 : jsstring -> captures -> option R1)
         (k2 : jsstring -> captures -> option R2),
    (forall s' d1 d2, k1 s' d1 = None -> k2 s' d2 = None) ->
    run f r s c1 k1 = None -> run f r s c2 k2 = None.
Proof.
  induction r as [|l|cs|r1 IH1 r2 IH2|r1 IH1 r2 IH2|g cs|g cs|r IH|n r IH
                 |r IH|]; intros R1 R2 s c1 c2 k1 k2 Hk H; simpl in *.
  - eapply Hk; eassumption.
  - destruct (strip_lit f l s); [eapply Hk; eassumption|reflexivity].
  - destruct s as [|c s]; [reflexivity|].
    destruct (class_match f cs c); [eapply Hk; eassumption|reflexivity].
  - eapply IH1; [|eassumption]. intros s' d1 d2. apply IH2. exact Hk.
  - destruct (run f r1 s c1 k1) eqn:E; [discriminate|].
    rewrite (IH1 _ _ _ _ c2 _ k2 Hk E). eapply IH2; eassumption.
  - eapply star_none_ext; [|eassumption]. intros s'. apply Hk.
  - destruct s as [|c s]; [reflexivity|].
    destruct (class_match f cs c); [|reflexivity].
    eapply star_none_ext; [|eassumption]. intros s'. apply Hk.
  - destruct (run f r s c1 k1) eqn:E; [discriminate|].
    rewrite (IH _ _ _ _ c2 _ k2 Hk E). eapply Hk; eassumption.
  - eapply IH; [|eassumption]. intros s' d1 d2. apply Hk.
  - destruct (run f r s c1 (fun _ caps' => Some caps')) as [d1|] eqn:E.
    + destruct (run f r s c2 (fun _ caps' => Some caps')) as [d2|];
        [eapply Hk; eassumption|reflexivity].
    + rewrite (IH _ _ s c1 c2 (fun _ caps' => Some caps')
                 (fun _ caps' => Some caps')); trivial.
      intros; discriminate.
  - destruct s; [eapply Hk; eassumption|reflexivity].
Qed.

Lemma star_greedy_complete (R : Type) (p : char16 -> bool)
    (k : jsstring -> option R) (m s : jsstring) :
  all p m -> k s <> None -> star_greedy p k (m ++ s) <> None.
Proof.
  unfold all. induction m as [|c m IH]; simpl; intros Hm Hk.
  - destruct s as [|c s]; simpl; [assumption|].
    destruct (p c); [|assumption].
    destruct (star_greedy p k s); [discriminate|assumption].
  - apply andb_prop in Hm. destruct Hm as [Hc Hm]. rewrite Hc.
    destruct (star_greedy p k (m ++ s)) eqn:E; [discriminate|].
    now elim (IH Hm Hk).
Qed.

Lemma star_lazy_complete (R : Type) (p : char16 -> bool)
    (k : jsstring -> option R) (m s : jsstring) :
  all p m -> k s <> None -> star_lazy p k (m ++ s) <> None.
Proof.
  unfold all. induction m as [|c m IH]; simpl; intros Hm Hk.
  - destruct s as [|c s]; simpl; destruct (k _); congruence.
  - apply andb_prop in Hm. destruct Hm as [Hc Hm]. rewrite Hc.
    destruct (k (c :: m ++ s)); [discriminate|]. now apply IH.
Qed.

Lemma star_complete (R : Type) (g : bool) (p : char16 -> bool)
    (k : jsstring -> option R) (m s : jsstring) :
  all p m -> k s <> None -> star g p k (m ++ s) <> None.
Proof.
  destruct g; [apply star_greedy_complete|apply star_lazy_complete].
Qed.

(** Where there is a match that the continuation accepts, the matcher
    does not fail. *)
Lemma run_complete (r : regex) (s : jsstring) (caps : captures)
    (s' : jsstring) (caps' : captures) :
  rmatch f r s caps s' caps' ->
  forall (R : Type) (k : jsstring -> captures -> option R),
    blind k -> k s' caps' <> None -> run f r s caps k <> None.
Proof.
  induction 1; intros R k Hb Hk; simpl.
  - assumption.
  - now rewrite strip_lit_complete.
  - now rewrite H.
  - apply IHrmatch1.
    + intros t d1 d2. apply run_none_ext. intros t' e1 e2. apply Hb.
    + now apply IHrmatch2.
  - destruct (run f r1 s caps k) eqn:E; [discriminate|].
    now elim (IHrmatch R k Hb Hk).
  - destruct (run f r1 s caps k); [discriminate|]. now apply IHrmatch.
  - apply star_complete; assumption.
  - rewrite H. apply star_complete; assumption.
  - destruct (run f r s caps k) eqn:E; [discriminate|].
    now elim (IHrmatch R k Hb Hk).
  - destruct (run f r s caps k); [discriminate|]. assumption.
  - apply IHrmatch; [|assumption]. intros t d1 d2. apply Hb.
  - destruct (run f r s caps (fun _ caps' => Some caps')) as [d|] eqn:E.
    + intros Hn. apply Hk. eapply Hb. exact Hn.
    + exfalso. revert E. apply IHrmatch; [|discriminate].
      intros t d1 d2. discriminate.
  - assumption.
Qed.

Lemma match_at_complete (r : regex) (s rest : jsstring) (caps : captures) :
  rmatch f r s [] rest caps -> match_at f r s <> None.
Proof.
  intros M. unfold match_at. eapply run_complete; [exact M| |discriminate].
  intros t d1 d2. discriminate.
Qed.

End Completeness.

(* ================================================================== *)
(** * Character classes *)
(* ================================================================== *)

Ltac cmp_cases :=
  repeat match goal with
         | |- context [N.eqb ?a ?b] =>
             destruct (N.eqb_spec a b); try lia; simpl
         | |- context [N.leb ?a ?b] =>
             destruct (N.leb_spec a b); try lia; simpl
         end.

Lemma is_lower_cases (c : char16) :
  (is_lower c = true /\ 97 <= c <= 122)
  \/ (is_lower c = false /\ (c < 97 \/ 122 < c)).
Proof. unfold is_lower. cmp_cases; auto. Qed.

Lemma is_upper_cases (c : char16) :
  (is_upper c = true /\ 65 <= c <= 90)
  \/ (is_upper c = false /\ (c < 65 \/ 90 < c)).
Proof. unfold is_upper. cmp_cases; auto. Qed.

Lemma upper_not_letter (c : char16) : is_lower c = false -> upper c = c.
Proof. unfold upper. now intros ->. Qed.

Lemma lower_not_letter (c : char16) : is_upper c = false -> lower c = c.
Proof. unfold lower. now intros ->. Qed.

Lemma is_space_not_letter (c : char16) :
  is_space c = true -> is_lower c = false /\ is_upper c = false.
Proof.
  unfold is_space, is_line_terminator, is_lower, is_upper.
  cmp_cases; intros Hc; try discriminate; now split.
Qed.

Lemma letter_not_space (c : char16) :
  (65 <= c <= 122) -> is_space c = false.
Proof.
  intros Hc. unfold is_space, is_line_terminator. cmp_cases; reflexivity.
Qed.

Lemma is_line_terminator_space (c : char16) :
  is_line_terminator c = true -> is_space c = true.
Proof. unfold is_space. intros ->. now rewrite !orb_true_r. Qed.

(** [\s] is the same with and without the [i] flag. *)
Lemma class_space (f : flags) (c : char16) :
  class_match f [CSpace] c = is_space c.
Proof.
  unfold class_match. simpl. rewrite orb_false_r.
  destruct (is_space c) eqn:E; [reflexivity|]. simpl.
  destruct (ignoreCase f); [simpl|reflexivity].
  unfold upper, lower.
  destruct (is_lower c) eqn:El, (is_upper c) eqn:Eu; rewrite ?E; simpl;
    unfold is_lower, is_upper in *;
    repeat match goal with
           | H : (_ && _)%bool = true |- _ =>
               apply andb_prop in H; destruct H
           | H : (_ <=? _) = true |- _ => apply N.leb_le in H
           end;
    rewrite ?letter_not_space by lia; reflexivity.
Qed.

(** [.] without the [s] flag is every character but the line
    terminators; with it, every character. *)
Lemma class_dot (c : char16) :
  class_match flags_i [CDot] c = negb (is_line_terminator c).
Proof.
  unfold class_match. simpl. rewrite orb_false_r.
  destruct (is_line_terminator c) eqn:E; [simpl|reflexivity].
  destruct (is_space_not_letter c (is_line_terminator_space c E)) as [El Eu].
  now rewrite (upper_not_letter c El), (lower_not_letter c Eu), E.
Qed.

Lemma class_dot_all (c : char16) : class_match flags_is [CDot] c = true.
Proof. reflexivity. Qed.

(** The token class: the digits, the letters a to f in either case, and
    the dash. *)
Lemma token_char_spec (c : char16) :
  token_char c = true
  <-> (48 <= c <= 57) \/ (97 <= c <= 102) \/ (65 <= c <= 70) \/ c = 45.
Proof.
  unfold token_char, class_match, cset_mem, flags_i, ignoreCase, upper, lower,
    ch. simpl.
  destruct (is_lower_cases c) as [[-> Hl]|[-> Hl]];
    destruct (is_upper_cases c) as [[-> Hu]|[-> Hu]];
    cmp_cases; split; intros Hc; try discriminate; try reflexivity; try lia.
Qed.

Lemma token_char_not_space (c : char16) :
  token_char c = true -> is_space c = false.
Proof.
  intros Hc. apply token_char_spec in Hc.
  unfold is_space, is_line_terminator. cmp_cases; reflexivity.
Qed.

Lemma all_app (p : char16 -> bool) (a b : jsstring) :
  all p (a ++ b) <-> all p a /\ all p b.
Proof. unfold all. rewrite forallb_app. apply andb_true_iff. Qed.

Lemma all_cons (p : char16 -> bool) (c : char16) (m : jsstring) :
  all p (c :: m) <-> p c = true /\ all p m.
Proof. unfold all. simpl. apply andb_true_iff. Qed.

Lemma all_ext (p q : char16 -> bool) (m : jsstring) :
  (forall c, p c = q c) -> all p m -> all q m.
Proof.
  unfold all. intros E. induction m as [|c m IH]; simpl; [trivial|].
  rewrite (E c). intros H. apply andb_prop in H. destruct H as [-> H].
  now apply IH.
Qed.

Lemma drop_while_app (p : char16 -> bool) (m s : jsstring) :
  all p m -> drop_while p (m ++ s) = drop_while p s.
Proof.
  unfold all. induction m as [|c m IH]; simpl; [reflexivity|].
  intros H. apply andb_prop in H. destruct H as [-> H]. now apply IH.
Qed.


(* ================================================================== *)
(** * Reading a match backwards *)
(* ================================================================== *)

Section Inversion.
Variable f : flags.

Lemma rmatch_seq_inv r1 r2 s caps s2 caps2 :
  rmatch f (Seq r1 r2) s caps s2 caps2 ->
  exists s1 caps1, rmatch f r1 s caps s1 caps1
                   /\ rmatch f r2 s1 caps1 s2 caps2.
Proof. intros M. inversion M; subst. eauto. Qed.

Lemma rmatch_str_inv l s caps s' caps' :
  rmatch f (Str l) s caps s' caps' ->
  caps' = caps /\ exists m, s = m ++ s' /\ lit_eq f l m.
Proof. intros M. inversion M; subst. eauto. Qed.

Lemma rmatch_star_inv g cs s caps s' caps' :
  rmatch f (Star g cs) s caps s' caps' ->
  caps' = caps /\ exists m, s = m ++ s' /\ all (class_match f cs) m.
Proof. intros M. inversion M; subst. eauto. Qed.

Lemma rmatch_plus_inv g cs s caps s' caps' :
  rmatch f (Plus g cs) s caps s' caps' ->
  caps' = caps
  /\ exists c m, s = c :: m ++ s' /\ class_match f cs c = true
                 /\ all (class_match f cs) m.
Proof. intros M. inversion M; subst. eauto 6. Qed.

Lemma rmatch_group_inv n r s caps s' caps' :
  rmatch f (Group n r) s caps s' caps' ->
  exists caps1, rmatch f r s caps s' caps1
                /\ caps' = set_cap n (consumed s s') caps1.
Proof. intros M. inversion M; subst. eauto. Qed.

Lemma rmatch_opt_inv r s caps s' caps' :
  rmatch f (Opt r) s caps s' caps' ->
  rmatch f r s caps s' caps' \/ (s' = s /\ caps' = caps).
Proof. intros M. inversion M; subst; auto. Qed.

Lemma rmatch_alt_inv r1 r2 s caps s' caps' :
  rmatch f (Alt r1 r2) s caps s' caps' ->
  rmatch f r1 s caps s' caps' \/ rmatch f r2 s caps s' caps'.
Proof. intros M. inversion M; subst; auto. Qed.

Lemma rmatch_lookahead_inv r s caps s' caps' :
  rmatch f (Lookahead r) s caps s' caps' ->
  s' = s /\ exists s'', rmatch f r s caps s'' caps'.
Proof. intros M. inversion M; subst. eauto. Qed.

Lemma rmatch_end_inv s caps s' caps' :
  rmatch f EndOfInput s caps s' caps' -> s = [] /\ s' = [] /\ caps' = caps.
Proof. intros M. inversion M; subst. auto. Qed.

End Inversion.

(* ================================================================== *)
(** * The continuation-token pattern *)
(* ================================================================== *)

Lemma sessionRe_rmatch (s rest : jsstring) (caps : captures) :
  rmatch flags_i ClaudeSpawner.sessionRe s [] rest caps
  <-> exists mk ws tok,
        s = mk ++ ws ++ tok ++ rest
        /\ lit_eq flags_i (lit "Session ID:") mk
        /\ all is_space ws
        /\ tok <> [] /\ all token_char tok
        /\ caps = [(1%nat, tok)].
Proof.
  unfold ClaudeSpawner.sessionRe. split.
  - intros M.
    apply rmatch_seq_inv in M. destruct M as (s1 & c1 & M1 & M).
    apply rmatch_seq_inv in M. destruct M as (s2 & c2 & M2 & M3).
    apply rmatch_str_inv in M1. destruct M1 as (-> & mk & -> & Hmk).
    apply rmatch_star_inv in M2. destruct M2 as (-> & ws & -> & Hws).
    apply rmatch_group_inv in M3. destruct M3 as (c3 & M3 & ->).
    apply rmatch_plus_inv in M3. destruct M3 as (-> & c & m & -> & Hc & Hm).
    exists mk, ws, (c :: m). rewrite consumed_cons_app.
    repeat split; trivial.
    + eapply all_ext; [|eassumption]. apply class_space.
    + discriminate.
    + apply all_cons. split; [exact Hc|exact Hm].
  - intros (mk & ws & tok & -> & Hmk & Hws & Hne & Htok & ->).
    destruct tok as [|c tok]; [congruence|].
    apply all_cons in Htok. destruct Htok as [Hc Htok].
    econstructor; [now constructor|].
    econstructor.
    + unfold spaces. constructor. eapply all_ext; [|exact Hws].
      intros c'. symmetry. apply class_space.
    + rewrite <- (consumed_cons_app c tok rest) at 2.
      constructor. simpl. now constructor.
Qed.

(** The pattern matches somewhere exactly when the output carries the
    marker, and what it captures is the token of a marker. *)
Lemma sessionMatch_some (stdout tok : jsstring) :
  ClaudeSpawner.sessionMatch stdout = Some tok ->
  exists pre post, marker_at stdout pre tok post.
Proof.
  unfold ClaudeSpawner.sessionMatch, str_match. intros H.
  destruct (exec_from flags_i ClaudeSpawner.sessionRe 0 stdout)
    as [[m rest]|] eqn:E; [|discriminate]. simpl in H.
  destruct (exec_from_sound _ _ _ _ _ _ E) as (pre & Hs & _ & M).
  apply sessionRe_rmatch in M.
  destruct M as (mk & ws & tok' & Hm & Hmk & Hws & Hne & Htok & Hcaps).
  unfold group in H. rewrite Hcaps in H. simpl in H. inversion H; subst tok'.
  exists pre, rest, mk, ws. rewrite Hs, Hm. now repeat split.
Qed.

Lemma sessionMatch_none (stdout : jsstring) :
  ClaudeSpawner.sessionMatch stdout = None <-> ~ has_marker stdout.
Proof.
  split.
  - intros H (pre & tok & post & mk & ws & Hs & Hmk & Hws & Hne & Htok).
    unfold ClaudeSpawner.sessionMatch, str_match in H.
    destruct (exec_from flags_i ClaudeSpawner.sessionRe 0 stdout)
      as [[m rest]|] eqn:E.
    + simpl in H.
      destruct (exec_from_sound _ _ _ _ _ _ E) as (pre' & _ & _ & M).
      apply sessionRe_rmatch in M.
      destruct M as (_ & _ & tok' & _ & _ & _ & _ & _ & Hcaps).
      unfold group in H. rewrite Hcaps in H. discriminate.
    + revert E.
      apply (exec_from_some flags_i _ _ 0%nat pre (mk ++ ws ++ tok ++ post) Hs).
      apply (match_at_complete flags_i _ _ post [(1%nat, tok)]).
      apply sessionRe_rmatch. exists mk, ws, tok. now repeat split.
  - intros H. destruct (ClaudeSpawner.sessionMatch stdout) as [tok|] eqn:E;
      [|reflexivity].
    destruct (sessionMatch_some _ _ E) as (pre & post & Hm).
    elim H. now exists pre, tok, post.
Qed.

(* ================================================================== *)
(** * Literals and repetition: what the matcher returns *)
(* ================================================================== *)

(** Under the [i] flag a text that reads as a literal has the upper case of
    the literal as its upper case. *)
Lemma lit_eq_upper (l m : jsstring) :
  lit_eq flags_i l m -> toUpperCase m = toUpperCase l.
Proof.
  unfold toUpperCase.
  induction 1 as [|a c l m E _ IH]; simpl; [reflexivity|].
  unfold char_eq, canonicalize in E. simpl in E.
  apply N.eqb_eq in E. now rewrite IH, E.
Qed.

Lemma char_eq_i (a c : char16) :
  char_eq flags_i a c = true <-> upper a = upper c.
Proof. unfold char_eq, canonicalize. simpl ignoreCase. apply N.eqb_eq. Qed.

(** A character that reads as a capital letter under the [i] flag is that
    letter in one of its two cases. *)
Lemma char_eq_i_capital (a c : char16) :
  65 <= a <= 90 -> char_eq flags_i a c = true ->
  65 <= c <= 122 /\ upper c = a.
Proof.
  intros Ha E. apply char_eq_i in E. unfold upper in E.
  destruct (is_lower_cases a) as [[Ea Hl]|[Ea Hl]]; [lia|]. rewrite Ea in E.
  unfold upper.
  destruct (is_lower_cases c) as [[Ec Hc]|[Ec Hc]]; rewrite Ec in *; lia.
Qed.

Lemma lit_eq_refl (f : flags) (l : jsstring) : lit_eq f l l.
Proof.
  induction l as [|a l IH]; constructor; [|exact IH].
  unfold char_eq. destruct (ignoreCase f); apply N.eqb_refl.
Qed.


Lemma star_greedy_cons (R : Type) (p : char16 -> bool)
    (k : jsstring -> option R) (c : char16) (s : jsstring) :
  star_greedy p k (c :: s)
  = if p c then match star_greedy p k s with
                | Some x => Some x
                | None => k (c :: s)
                end
    else k (c :: s).
Proof. reflexivity. Qed.

(** A greedy repetition whose continuation accepts the longest run returns
    what the continuation returns there. *)
Lemma star_greedy_longest (R : Type) (p : char16 -> bool)
    (k : jsstring -> option R) (m s : jsstring) (x : R) :
  all p m -> stops p s -> k s = Some x -> star_greedy p k (m ++ s) = Some x.
Proof.
  intros Hm Hs Hk. induction m as [|c m IH]; simpl.
  - destruct s as [|c s]; simpl; [assumption|].
    simpl in Hs. now rewrite Hs.
  - apply all_cons in Hm. destruct Hm as [-> Hm]. now rewrite (IH Hm).
Qed.

(** A lazy repetition returns what its continuation returns at the first
    place where the continuation accepts. *)
Lemma star_lazy_first (R : Type) (p : char16 -> bool)
    (k : jsstring -> option R) (m s : jsstring) :
  all p m ->
  (forall m1 m2, m = m1 ++ m2 -> m2 <> [] -> k (m2 ++ s) = None) ->
  star_lazy p k (m ++ s) = match k s with
                           | Some x => Some x
                           | None => match s with
                                     | c :: s' =>
                                         if p c then star_lazy p k s' else None
                                     | [] => None
                                     end
                           end.
Proof.
  intros Hm. induction m as [|c m IH]; intros Hk; simpl.
  - now destruct s.
  - apply all_cons in Hm. destruct Hm as [Hc Hm].
    pose proof (Hk [] (c :: m) eq_refl) as H0. simpl in H0.
    rewrite H0 by discriminate. rewrite Hc.
    apply IH; [exact Hm|].
    intros m1 m2 -> Hne. apply (Hk (c :: m1) m2 eq_refl Hne).
Qed.

Lemma star_lazy_accept (R : Type) (p : char16 -> bool)
    (k : jsstring -> option R) (m s : jsstring) (x : R) :
  all p m ->
  (forall m1 m2, m = m1 ++ m2 -> m2 <> [] -> k (m2 ++ s) = None) ->
  k s = Some x ->
  star_lazy p k (m ++ s) = Some x.
Proof.
  intros Hm Hk Hx. rewrite (star_lazy_first R p k m s Hm Hk). now rewrite Hx.
Qed.

(** Two characters have the same capital exactly when they have the same
    small letter. *)
Lemma upper_lower_eq (a c : char16) : upper a = upper c <-> lower a = lower c.
Proof.
  unfold upper, lower.
  destruct (is_lower_cases a) as [[-> Ha]|[-> Ha]];
    destruct (is_upper_cases a) as [[-> Ha']|[-> Ha']];
    destruct (is_lower_cases c) as [[-> Hc]|[-> Hc]];
    destruct (is_upper_cases c) as [[-> Hc']|[-> Hc']]; lia.
Qed.

Lemma char_eq_i_lower (a c : char16) :
  char_eq flags_i a c = (lower a =? lower c).
Proof.
  destruct (N.eqb_spec (lower a) (lower c)) as [E|E].
  - now apply char_eq_i, upper_lower_eq.
  - destruct (char_eq flags_i a c) eqn:H; [|reflexivity].
    apply char_eq_i, upper_lower_eq in H. contradiction.
Qed.

Lemma strip_lit_opens_with (w s : jsstring) :
  strip_lit flags_i w s = opens_with w s.
Proof.
  revert s. induction w as [|a w IH]; intros s; [reflexivity|].
  destruct s as [|c s]; [reflexivity|]. simpl.
  rewrite char_eq_i_lower. now rewrite IH.
Qed.

Lemma lit_eq_reads_as (w m : jsstring) : lit_eq flags_i w m <-> reads_as w m.
Proof.
  unfold lit_eq, reads_as. split; intros H;
    (induction H as [|a c w m E _ IH]; constructor; [|exact IH]).
  - rewrite char_eq_i_lower in E. now apply N.eqb_eq.
  - rewrite char_eq_i_lower. now apply N.eqb_eq.
Qed.

Lemma begins_nowhere_split (test : jsstring -> bool) (pre rest : jsstring) :
  begins_nowhere test pre rest = true ->
  forall p1 p2, pre = p1 ++ p2 -> p2 <> [] -> test (p2 ++ rest) = false.
Proof.
  induction pre as [|c pre IH]; intros H p1 p2 E Hne.
  - destruct p1, p2; try discriminate. congruence.
  - simpl in H. apply andb_prop in H. destruct H as [Hc H].
    destruct p1 as [|x p1]; simpl in E.
    + subst p2. now apply negb_true_iff in Hc.
    + inversion E; subst. now apply (IH H p1 p2).
Qed.

(** The leftmost match: the first place at which the pattern matches. *)
Lemma exec_from_first (f : flags) (r : regex) (pre s0 m0 : jsstring)
    (caps : captures) (rest : jsstring) :
  (forall p1 p2, pre = p1 ++ p2 -> p2 <> [] ->
                 match_at f r (p2 ++ s0) = None) ->
  match_at f r s0 = Some (m0, caps, rest) ->
  forall i, exec_from f r i (pre ++ s0)
            = Some ({| index := (i + length pre)%nat; matched := m0;
                       groups := caps |}, rest).
Proof.
  intros Hpre Hm. induction pre as [|c pre IH]; intros i.
  - simpl app. rewrite (exec_from_front f r i s0 m0 caps rest Hm).
    simpl. now rewrite Nat.add_0_r.
  - simpl app. simpl exec_from.
    pose proof (Hpre [] (c :: pre) eq_refl) as H0. simpl app in H0.
    rewrite H0 by discriminate.
    rewrite IH.
    + simpl length. do 3 f_equal. lia.
    + intros p1 p2 -> Hne. apply (Hpre (c :: p1) p2 eq_refl Hne).
Qed.

Lemma begins_nowhere_intro (test : jsstring -> bool) (pre rest : jsstring) :
  (forall p1 p2, pre = p1 ++ p2 -> p2 <> [] -> test (p2 ++ rest) = false) ->
  begins_nowhere test pre rest = true.
Proof.
  induction pre as [|c pre IH]; intros H; [reflexivity|]. simpl.
  apply andb_true_intro. split.
  - apply negb_true_iff. apply (H [] (c :: pre) eq_refl). discriminate.
  - apply IH. intros p1 p2 -> Hne. apply (H (c :: p1) p2 eq_refl Hne).
Qed.

(** What the leftmost match is: the pattern matches where it stands and
    at no earlier place. *)
Lemma exec_from_leftmost (f : flags) (r : regex) (s : jsstring) :
  forall (i : nat) (m : result) (rest : jsstring),
    exec_from f r i s = Some (m, rest) ->
    exists pre,
      s = pre ++ matched m ++ rest
      /\ match_at f r (matched m ++ rest) = Some (matched m, groups m, rest)
      /\ forall p1 p2, pre = p1 ++ p2 -> p2 <> [] ->
                       match_at f r (p2 ++ matched m ++ rest) = None.
Proof.
  induction s as [|c s IH]; intros i m rest H; simpl in H.
  - destruct (match_at f r []) as [[[m0 caps] rest0]|] eqn:E; [|discriminate].
    inversion H; subst. destruct (match_at_sound _ _ _ _ _ _ E) as (_ & Hs).
    exists []. simpl. rewrite <- Hs. split; [reflexivity|]. split; [exact E|].
    intros p1 p2 Hp Hne. destruct p1, p2; try discriminate. congruence.
  - destruct (match_at f r (c :: s)) as [[[m0 caps] rest0]|] eqn:E.
    + inversion H; subst. destruct (match_at_sound _ _ _ _ _ _ E) as (_ & Hs).
      exists []. simpl. rewrite <- Hs. split; [reflexivity|].
      split; [exact E|].
      intros p1 p2 Hp Hne. destruct p1, p2; try discriminate. congruence.
    + destruct (IH _ _ _ H) as (pre & Hs & Hm & Hpre).
      exists (c :: pre). split; [simpl; now rewrite Hs|]. split; [exact Hm|].
      intros p1 p2 Hp Hne. destruct p1 as [|x p1]; simpl in Hp.
      * subst p2. simpl app. now rewrite <- Hs.
      * inversion Hp; subst. now apply (Hpre p1 p2).
Qed.

(** The longest run of characters that satisfy [p] at the front of a
    text. *)
Lemma longest_run (p : char16 -> bool) (s : jsstring) :
  exists m rest, s = m ++ rest /\ all p m
                 /\ match rest with [] => True | c :: _ => p c = false end.
Proof.
  induction s as [|c s IH].
  - now exists [], [].
  - destruct (p c) eqn:E.
    + destruct IH as (m & rest & -> & Hm & Hrest).
      exists (c :: m), rest. split; [reflexivity|]. split; [|exact Hrest].
      now apply all_cons.
    + exists [], (c :: s). now repeat split.
Qed.

(** A literal does not match a text that begins with another character. *)
Lemma strip_lit_mismatch (f : flags) (a : char16) (l : jsstring)
    (c : char16) (s : jsstring) :
  char_eq f a c = false -> strip_lit f (a :: l) (c :: s) = None.
Proof. simpl. now intros ->. Qed.

(* ================================================================== *)
(** * The equations of the matcher *)
(* ================================================================== *)

Section RunEquations.
Variable f : flags.
Variable R : Type.
Variables (s : jsstring) (caps : captures).
Variable k : jsstring -> captures -> option R.

Lemma run_seq r1 r2 :
  run f (Seq r1 r2) s caps k = run f r1 s caps (fun s1 c1 => run f r2 s1 c1 k).
Proof. reflexivity. Qed.

Lemma run_str l :
  run f (Str l) s caps k = match strip_lit f l s with
                           | Some s' => k s' caps
                           | None => None
                           end.
Proof. reflexivity. Qed.

Lemma run_star_greedy cs :
  run f (Star true cs) s caps k
  = star_greedy (class_match f cs) (fun s' => k s' caps) s.
Proof. reflexivity. Qed.

Lemma run_plus_lazy cs :
  run f (Plus false cs) s caps k
  = match s with
    | c :: s' => if class_match f cs c
                 then star_lazy (class_match f cs) (fun s'' => k s'' caps) s'
                 else None
    | [] => None
    end.
Proof. reflexivity. Qed.

Lemma run_group n r :
  run f (Group n r) s caps k
  = run f r s caps (fun s' caps' => k s' (set_cap n (consumed s s') caps')).
Proof. reflexivity. Qed.

Lemma run_alt r1 r2 :
  run f (Alt r1 r2) s caps k = match run f r1 s caps k with
                               | Some x => Some x
                               | None => run f r2 s caps k
                               end.
Proof. reflexivity. Qed.

Lemma run_opt r :
  run f (Opt r) s caps k = match run f r s caps k with
                           | Some x => Some x
                           | None => k s caps
                           end.
Proof. reflexivity. Qed.

End RunEquations.


(* ================================================================== *)
(** * The decision pattern *)
(* ================================================================== *)

Lemma decisionRe_rmatch (s rest : jsstring) (caps : captures) :
  rmatch flags_i CronScheduler.decisionRe s [] rest caps ->
  exists mk ws d,
    s = mk ++ ws ++ d ++ rest
    /\ lit_eq flags_i (lit "DECISION:") mk
    /\ all is_space ws
    /\ (lit_eq flags_i (lit "YES") d \/ lit_eq flags_i (lit "NO") d)
    /\ caps = [(1%nat, d)].
Proof.
  unfold CronScheduler.decisionRe. intros M.
  apply rmatch_seq_inv in M. destruct M as (s1 & c1 & M1 & M).
  apply rmatch_seq_inv in M. destruct M as (s2 & c2 & M2 & M3).
  apply rmatch_str_inv in M1. destruct M1 as (-> & mk & -> & Hmk).
  apply rmatch_star_inv in M2. destruct M2 as (-> & ws & -> & Hws).
  apply rmatch_group_inv in M3. destruct M3 as (c3 & M3 & ->).
  assert (Hd : exists d, s2 = d ++ rest /\ c3 = []
                         /\ (lit_eq flags_i (lit "YES") d
                             \/ lit_eq flags_i (lit "NO") d)).
  { apply rmatch_alt_inv in M3. destruct M3 as [M3|M3];
      apply rmatch_str_inv in M3; destruct M3 as (-> & d & -> & Hd);
      exists d; auto. }
  destruct Hd as (d & -> & -> & Hd).
  exists mk, ws, d. rewrite consumed_app. repeat split; trivial.
  eapply all_ext; [|eassumption]. apply class_space.
Qed.

(** The handler goes ahead only on a text that says yes. *)
Lemma shouldCheckin_says_yes (text : jsstring) :
  CronScheduler.shouldCheckin text = true -> says_yes_at text.
Proof.
  unfold CronScheduler.shouldCheckin, str_match. intros H.
  destruct (exec_from flags_i CronScheduler.decisionRe 0 text)
    as [[m rest]|] eqn:E; [|discriminate]. simpl in H.
  destruct (exec_from_sound _ _ _ _ _ _ E) as (pre & Hs & _ & M).
  apply decisionRe_rmatch in M.
  destruct M as (mk & ws & d & Hm & Hmk & Hws & Hd & Hcaps).
  unfold group in H. rewrite Hcaps in H. simpl in H.
  apply jsstring_eqb_eq in H.
  exists pre, mk, ws, d, rest. rewrite Hs, Hm. repeat split; trivial.
  destruct Hd as [Hd|Hd]; [exact Hd|].
  apply lit_eq_upper in Hd. rewrite Hd in H. discriminate.
Qed.

(** A text that opens with the decision NO is not acted upon. *)
Lemma shouldCheckin_opens_with_no (mk ws n post : jsstring) :
  lit_eq flags_i (lit "DECISION:") mk -> all is_space ws ->
  lit_eq flags_i (lit "NO") n ->
  CronScheduler.shouldCheckin (mk ++ ws ++ n ++ post) = false.
Proof.
  intros Hmk Hws Hn. unfold CronScheduler.shouldCheckin, str_match.
  assert (E : match_at flags_i CronScheduler.decisionRe (mk ++ ws ++ n ++ post)
              = Some (mk ++ ws ++ n, [(1%nat, n)], post)).
  { unfold match_at, CronScheduler.decisionRe, spaces.
    rewrite run_seq, run_str, (strip_lit_complete flags_i _ _ _ Hmk).
    rewrite run_seq, run_star_greedy.
    assert (Hno : stops (class_match flags_i [CSpace]) (n ++ post)).
    { inversion Hn as [|a c l m Ec Hn']; subst.
      change (class_match flags_i [CSpace] c = false).
      rewrite class_space. apply letter_not_space.
      apply char_eq_i_capital in Ec; [tauto|]. unfold ch. simpl. lia. }
    apply star_greedy_longest.
    - eapply all_ext; [|exact Hws]. intros x. symmetry. apply class_space.
    - exact Hno.
    - rewrite run_group, run_alt, !run_str.
      assert (Hyes : strip_lit flags_i (lit "YES") (n ++ post) = None).
      { inversion Hn as [|a c l m Ec Hn']; subst. apply strip_lit_mismatch.
        apply char_eq_i_capital in Ec; [|unfold ch; simpl; lia].
        destruct Ec as [_ Ec].
        destruct (char_eq flags_i (ch "Y") c) eqn:Ey; [|reflexivity].
        apply char_eq_i_capital in Ey; [|unfold ch; simpl; lia].
        destruct Ey as [_ Ey]. rewrite Ec in Ey. discriminate. }
      rewrite Hyes, (strip_lit_complete flags_i _ _ _ Hn).
      rewrite consumed_app.
      rewrite !app_assoc, consumed_app. reflexivity. }
  assert (E' : exec_from flags_i CronScheduler.decisionRe 0
                 (mk ++ ws ++ n ++ post)
               = Some ({| index := 0; matched := mk ++ ws ++ n;
                          groups := [(1%nat, n)] |}, post)).
  { now apply exec_from_front. }
  rewrite E'. simpl. unfold group. simpl.
  rewrite (lit_eq_upper _ _ Hn). reflexivity.
Qed.

Lemma says_yes_unfold (text : jsstring) :
  says_yes text = yes_here text
                  || match text with
                     | [] => false
                     | _ :: text' => says_yes text'
                     end.
Proof. now destruct text. Qed.

Lemma says_yes_at_test (text : jsstring) :
  says_yes_at text -> says_yes text = true.
Proof.
  intros (pre & mk & ws & y & post & -> & Hmk & Hws & Hy).
  induction pre as [|c pre IH].
  - rewrite says_yes_unfold. apply orb_true_iff. left.
    unfold yes_here. simpl app.
    rewrite (strip_lit_complete flags_i _ _ _ Hmk).
    rewrite (drop_while_app _ _ _ Hws).
    assert (Hd : drop_while is_space (y ++ post) = y ++ post).
    { inversion Hy as [|a c l m Ec Hy']; subst. simpl.
      rewrite letter_not_space; [reflexivity|].
      apply char_eq_i_capital in Ec; [tauto|]. unfold ch. simpl. lia. }
    rewrite Hd. now rewrite (strip_lit_complete flags_i _ _ _ Hy).
  - rewrite says_yes_unfold. apply orb_true_iff. right. exact IH.
Qed.

Lemma drop_while_span (p : char16 -> bool) (s : jsstring) :
  exists ws, s = ws ++ drop_while p s /\ all p ws.
Proof.
  induction s as [|c s IH]; simpl.
  - now exists [].
  - destruct (p c) eqn:E.
    + destruct IH as (ws & Hs & Hws). exists (c :: ws). split.
      * simpl. now rewrite <- Hs.
      * apply all_cons. now split.
    + now exists [].
Qed.

(** The test and the statement say the same. *)
Lemma says_yes_test_at (text : jsstring) :
  says_yes text = true -> says_yes_at text.
Proof.
  induction text as [|c text IH]; rewrite says_yes_unfold;
    intros H; apply orb_true_iff in H.
  - destruct H as [H|H]; [discriminate H|discriminate].
  - destruct H as [H|H].
    + unfold yes_here in H.
      destruct (strip_lit flags_i (lit "DECISION:") (c :: text))
        as [rest|] eqn:E; [|discriminate].
      destruct (strip_lit flags_i (lit "YES") (drop_while is_space rest))
        as [post|] eqn:E'; [|discriminate].
      destruct (strip_lit_sound _ _ _ _ E) as (mk & Hs & Hmk).
      destruct (strip_lit_sound _ _ _ _ E') as (y & Hd & Hy).
      destruct (drop_while_span is_space rest) as (ws & Hr & Hws).
      exists [], mk, ws, y, post. simpl. rewrite Hs, Hr at 1. rewrite Hd.
      now repeat split.
    + destruct (IH H) as (pre & mk & ws & y & post & -> & Hmk & Hws & Hy).
      now exists (c :: pre), mk, ws, y, post.
Qed.


(* ================================================================== *)
(** * Occurrences of a text in another *)
(* ================================================================== *)

Lemma strip_prefix_some (pat s rest : jsstring) :
  strip_prefix pat s = Some rest <-> s = pat ++ rest.
Proof.
  revert s. induction pat as [|a pat IH]; intros s; simpl.
  - split; intros H; congruence.
  - destruct s as [|c s]; [split; discriminate|].
    destruct (N.eqb_spec a c) as [->|Hne].
    + rewrite IH. split; intros H; congruence.
    + split; [discriminate|]. intros H. congruence.
Qed.

Lemma contains_occurs (pat s : jsstring) :
  contains pat s = true <-> occurs pat s.
Proof.
  unfold occurs. induction s as [|c s IH]; simpl.
  - destruct (strip_prefix pat []) as [rest|] eqn:E.
    + apply strip_prefix_some in E. split; [|reflexivity].
      intros _. now exists [], rest.
    + split; [discriminate|]. intros (pre & post & H).
      destruct pre; [|discriminate]. simpl in H.
      apply strip_prefix_some in H. congruence.
  - destruct (strip_prefix pat (c :: s)) as [rest|] eqn:E.
    + apply strip_prefix_some in E. split; [|reflexivity].
      intros _. now exists [], rest.
    + rewrite IH. split.
      * intros (pre & post & ->). now exists (c :: pre), post.
      * intros (pre & post & H). destruct pre as [|c' pre]; simpl in H.
        -- apply strip_prefix_some in H. congruence.
        -- inversion H; subst. now exists pre, post.
Qed.

Lemma contains_not_occurs (pat s : jsstring) :
  contains pat s = false <-> ~ occurs pat s.
Proof.
  rewrite <- contains_occurs. destruct (contains pat s); split; congruence.
Qed.

(** An occurrence in [a ++ b] lies in [a], lies in [b], or straddles the
    two. *)
Lemma occurs_app_cases (pat a b : jsstring) :
  occurs pat (a ++ b) ->
  occurs pat a \/ occurs pat b
  \/ exists p1 p2, p1 <> [] /\ p2 <> [] /\ pat = p1 ++ p2
                   /\ (exists a', a = a' ++ p1) /\ (exists b', b = p2 ++ b').
Proof.
  intros (pre & post & H).
  apply app_eq_app in H. destruct H as (l & [[-> H]|[-> H]]).
  - (* a = pre ++ l, pat ++ post = l ++ b *)
    apply app_eq_app in H. destruct H as (l' & [[-> H]|[-> H]]).
    + (* pat = l ++ l', b = l' ++ post *)
      destruct l as [|c l].
      * right. left. exists [], post. simpl in *. now subst.
      * destruct l' as [|c' l'].
        -- left. exists pre, []. now rewrite !app_nil_r.
        -- right. right. exists (c :: l), (c' :: l').
           repeat split; try discriminate; eauto.
    + (* l = pat ++ l' *)
      left. exists pre, l'. reflexivity.
  - (* pre = a ++ l *)
    right. left. now exists l, post.
Qed.

(** A text without line feed occurs in two lines only if it occurs in one
    of them. *)
Lemma occurs_lines (pat a b : jsstring) :
  ~ In 10 pat -> occurs pat (a ++ 10 :: b) -> occurs pat a \/ occurs pat b.
Proof.
  intros Hnl H. destruct pat as [|h pat]; [left; now exists [], a|].
  change (a ++ 10 :: b) with (a ++ [10] ++ b) in H.
  apply occurs_app_cases in H.
  destruct H as [H|[H|(p1 & p2 & _ & Hp2 & Hp & _ & (b' & Hb))]]; [now left| |].
  - apply (occurs_app_cases (h :: pat) [10] b) in H.
    destruct H as [(pre & post & H)|[H|(p1 & p2 & Hp1 & _ & Hp & (a' & Ha) & _)]].
    + elim Hnl. destruct pre as [|c pre].
      * inversion H; subst. now left.
      * inversion H as [[Hc Hp]]. destruct pre; discriminate.
    + now right.
    + elim Hnl. rewrite Hp. apply in_or_app. left.
      destruct a' as [|c a'].
      * simpl in Ha. subst p1. now left.
      * inversion Ha as [[Hc Hq]]. symmetry in Hq.
        apply app_eq_nil in Hq. destruct Hq as [_ Hq]. contradiction.
  - elim Hnl. rewrite Hp. apply in_or_app. right.
    destruct p2 as [|c p2]; [congruence|]. inversion Hb; subst. now left.
Qed.

(** A text occurs in a join by line feeds only if it occurs in a part. *)
Lemma occurs_join (pat : jsstring) (parts : list jsstring) :
  ~ In 10 pat -> pat <> [] -> occurs pat (join [10] parts) ->
  exists p, In p parts /\ occurs pat p.
Proof.
  intros Hnl Hne. induction parts as [|p parts IH]; intros H.
  - destruct H as (pre & post & H). simpl in H.
    destruct pre; [|discriminate]. destruct pat; [congruence|discriminate].
  - destruct parts as [|q parts].
    + exists p. split; [now left|exact H].
    + change (join [10] (p :: q :: parts))
        with (p ++ 10 :: join [10] (q :: parts)) in H.
      apply occurs_lines in H; [|exact Hnl]. destruct H as [H|H].
      * exists p. split; [now left|exact H].
      * destruct (IH H) as (p' & Hin & Hp'). exists p'. split; [now right|exact Hp'].
Qed.

(** An occurrence does not begin in a text that lacks its first character,
    and does not end in one that lacks its last. *)
Lemma occurs_skip_front (t : jsstring) (h : char16) (pat x y : jsstring) :
  t = h :: pat -> ~ In h x -> occurs t (x ++ y) -> occurs t y.
Proof.
  intros -> Hx H. apply occurs_app_cases in H.
  destruct H as [(pre & post & ->)|[H|(p1 & p2 & Hp1 & _ & Hp & (a' & ->) & _)]].
  - elim Hx. apply in_or_app. right. now left.
  - exact H.
  - elim Hx. apply in_or_app. right.
    destruct p1 as [|c p1]; [congruence|]. inversion Hp; subst. now left.
Qed.

Lemma occurs_skip_back (t : jsstring) (z : char16) (pat y w : jsstring) :
  t = pat ++ [z] -> ~ In z w -> occurs t (y ++ w) -> occurs t y.
Proof.
  intros -> Hw H. apply occurs_app_cases in H.
  destruct H as [H|[(pre & post & ->)|(p1 & p2 & _ & Hp2 & Hp & _ & (b' & ->))]].
  - exact H.
  - elim Hw. apply in_or_app. right. apply in_or_app. left.
    apply in_or_app. right. now left.
  - elim Hw. apply in_or_app. left.
    destruct (exists_last Hp2) as (p2' & z' & ->).
    rewrite app_assoc in Hp. apply app_inj_tail in Hp. destruct Hp as [_ ->].
    apply in_or_app. right. now left.
Qed.

(* ================================================================== *)
(** * The tag patterns on well-formed tags *)
(* ================================================================== *)

Lemma tag_char_facts (c : char16) :
  tag_char c = true ->
  class_match flags_i [CDot] c = true
  /\ c <> 91 /\ c <> 93 /\ c <> 124.
Proof.
  unfold tag_char. intros H.
  apply andb_prop in H. destruct H as [H H4].
  apply andb_prop in H. destruct H as [H H3].
  apply andb_prop in H. destruct H as [H1 H2].
  apply negb_true_iff in H1, H2, H3, H4.
  rewrite class_dot, H1. repeat split; try reflexivity; intros ->.
  - vm_compute in H2. discriminate.
  - vm_compute in H3. discriminate.
  - vm_compute in H4. discriminate.
Qed.

Lemma tag_text_facts (t : jsstring) :
  tag_text t = true ->
  exists c t', t = c :: t' /\ is_space c = false
               /\ is_space (last t 0) = false /\ all tag_char t.
Proof.
  unfold tag_text. destruct t as [|c t']; [discriminate|]. intros H.
  apply andb_prop in H. destruct H as [H H3].
  apply andb_prop in H. destruct H as [H1 H2].
  apply negb_true_iff in H1, H2. exists c, t'. now repeat split.
Qed.

Lemma all_forall (p : char16 -> bool) (m : jsstring) :
  all p m <-> forall c, In c m -> p c = true.
Proof. unfold all. apply forallb_forall. Qed.

Lemma all_tag_dot (t : jsstring) :
  all tag_char t -> all (class_match flags_i [CDot]) t.
Proof.
  rewrite !all_forall. intros H c Hc. now apply tag_char_facts, H.
Qed.

Lemma lit_one_mismatch (f : flags) (a c : char16) (s : jsstring) :
  char_eq f a c = false -> strip_lit f [a] (c :: s) = None.
Proof. apply strip_lit_mismatch. Qed.

Lemma char_eq_i_other (a c : char16) :
  is_lower a = false -> is_upper a = false -> c <> a ->
  char_eq flags_i a c = false.
Proof.
  intros Hl Hu Hne. destruct (char_eq flags_i a c) eqn:E; [|reflexivity].
  apply char_eq_i in E. rewrite (upper_not_letter a Hl) in E.
  unfold upper in E.
  destruct (is_lower_cases c) as [[Ec Hc]|[Ec Hc]]; rewrite Ec in E.
  - exfalso. subst a. unfold is_upper in Hu.
    destruct (N.leb_spec 65 (c - 32)); destruct (N.leb_spec (c - 32) 90);
      simpl in Hu; try discriminate; lia.
  - congruence.
Qed.

(** The closing bracket of a tag does not match a character of the text
    of a tag. *)
Lemma close_fails (R : Type) (c : char16) (s : jsstring) (caps : captures)
    (k : jsstring -> captures -> option R) :
  c <> 93 -> run flags_i (Str (lit "]")) (c :: s) caps k = None.
Proof.
  intros Hc. rewrite run_str. change (lit "]") with [ch "]"].
  rewrite (lit_one_mismatch flags_i (ch "]") c s); [reflexivity|].
  apply char_eq_i_other; trivial.
Qed.

Lemma close_fails_text (R : Type) (m s : jsstring) (caps : captures)
    (k : jsstring -> captures -> option R) :
  all tag_char m -> m <> [] ->
  run flags_i (Str (lit "]")) (m ++ s) caps k = None.
Proof.
  intros Hm Hne. destruct m as [|c m]; [congruence|].
  apply all_cons in Hm. destruct Hm as [Hc _].
  apply close_fails. now apply tag_char_facts in Hc.
Qed.

Lemma close_matches (R : Type) (s : jsstring) (caps : captures)
    (k : jsstring -> captures -> option R) :
  run flags_i (Str (lit "]")) (lit "]" ++ s) caps k = k s caps.
Proof.
  rewrite run_str.
  now rewrite (strip_lit_complete flags_i _ _ s (lit_eq_refl flags_i (lit "]"))).
Qed.

(** A lazy capture group takes a text up to the first place where the
    rest of the pattern matches. *)
Lemma run_group_lazy (R : Type) (n : nat) (c : char16) (t' s : jsstring)
    (caps : captures) (k : jsstring -> captures -> option R) :
  all (class_match flags_i [CDot]) (c :: t') ->
  (forall m1 m2 caps', t' = m1 ++ m2 -> m2 <> [] -> k (m2 ++ s) caps' = None) ->
  run flags_i (Group n (Plus false [CDot])) ((c :: t') ++ s) caps k
  = match k s (set_cap n (c :: t') caps) with
    | Some x => Some x
    | None =>
        run flags_i (Group n (Plus false [CDot])) ((c :: t') ++ s) caps k
    end.
Proof.
  intros Hall Hk.
  destruct (k s (set_cap n (c :: t') caps)) as [x|] eqn:E; [|reflexivity].
  apply all_cons in Hall. destruct Hall as [Hc Ht].
  rewrite run_group, run_plus_lazy. simpl app. cbv iota. rewrite Hc.
  apply star_lazy_accept.
  - exact Ht.
  - intros m1 m2 E' Hne. now apply Hk with (m1 := m1).
  - now rewrite (consumed_cons_app c t' s).
Qed.

(** Leading white space in front of a text that does not begin with
    white space: the greedy repetition takes it all. *)
Lemma run_spaces (R : Type) (ws s : jsstring) (caps : captures)
    (k : jsstring -> captures -> option R) (x : R) :
  all is_space ws -> stops is_space s -> k s caps = Some x ->
  run flags_i spaces (ws ++ s) caps k = Some x.
Proof.
  intros Hws Hs Hk. unfold spaces. rewrite run_star_greedy.
  apply star_greedy_longest.
  - eapply all_ext; [|exact Hws]. intros c. symmetry. apply class_space.
  - destruct s as [|c s]; [exact I|].
    change (class_match flags_i [CSpace] c = false).
    rewrite class_space. exact Hs.
  - exact Hk.
Qed.

(** The pattern of [REMEMBER] and of [DONE], for a tag name [name]: on a
    well-formed tag it matches the whole tag and captures its text. *)
Lemma simple_tag_match (name X rest : jsstring) :
  tag_text X = true ->
  match_at flags_i
    (Str name >> spaces >> Group 1 MemorySystem.dot_plus_lazy >> Str (lit "]"))
    (name ++ lit " " ++ X ++ lit "]" ++ rest)
  = Some (name ++ lit " " ++ X ++ lit "]", [(1%nat, X)], rest).
Proof.
  intros HX. destruct (tag_text_facts X HX) as (c & X' & -> & Hc & _ & Hall).
  unfold match_at, MemorySystem.dot_plus_lazy.
  rewrite run_seq, run_str.
  rewrite (strip_lit_complete flags_i _ _ _ (lit_eq_refl flags_i name)).
  rewrite run_seq.
  apply (run_spaces _ (lit " ")); [reflexivity|exact Hc|].
  rewrite run_seq.
  rewrite (run_group_lazy _ 1 c X' (lit "]" ++ rest)).
  - rewrite close_matches.
    replace (name ++ lit " " ++ (c :: X') ++ lit "]" ++ rest)
      with ((name ++ lit " " ++ (c :: X') ++ lit "]") ++ rest)
      by now rewrite <- !app_assoc.
    now rewrite consumed_app.
  - now apply all_tag_dot.
  - intros m1 m2 caps' E Hne. apply close_fails_text; [|exact Hne].
    apply all_cons in Hall. destruct Hall as [_ Hall]. rewrite E in Hall.
    now apply all_app in Hall.
Qed.

(** White space and a vertical bar do not match inside the text of a
    tag: the text has no bar and does not end with white space. *)
Lemma spaces_bar_rejects (R : Type) (m s : jsstring)
    (k : jsstring -> option R) :
  (forall c s', c <> 124 -> k (c :: s') = None) ->
  m <> [] -> all tag_char m -> is_space (last m 0) = false ->
  star_greedy (class_match flags_i [CSpace]) k (m ++ s) = None.
Proof.
  intros Hk. induction m as [|c m IH]; intros Hne Hall Hlast; [congruence|].
  apply all_cons in Hall. destruct Hall as [Hc Hall].
  assert (Hkc : k (c :: m ++ s) = None).
  { apply Hk. now apply tag_char_facts in Hc. }
  change ((c :: m) ++ s) with (c :: m ++ s). rewrite star_greedy_cons.
  destruct m as [|c' m].
  - simpl in Hlast. rewrite class_space, Hlast. exact Hkc.
  - rewrite IH; [|discriminate|exact Hall|exact Hlast].
    now destruct (class_match flags_i [CSpace] c).
Qed.

Lemma bar_fails (R : Type) (r : regex) (c : char16) (s : jsstring)
    (caps : captures) (k : jsstring -> captures -> option R) :
  c <> 124 -> run flags_i (Str (lit "|") >> r) (c :: s) caps k = None.
Proof.
  intros Hc. rewrite run_seq, run_str. change (lit "|") with [ch "|"].
  rewrite (lit_one_mismatch flags_i (ch "|") c s); [reflexivity|].
  apply char_eq_i_other; trivial.
Qed.


Lemma deadline_clause_rejects (R : Type) (m s : jsstring) (caps : captures)
    (k : jsstring -> captures -> option R) :
  m <> [] -> all tag_char m -> is_space (last m 0) = false ->
  run flags_i deadline_clause (m ++ s) caps k = None.
Proof.
  intros Hne Hall Hlast. unfold deadline_clause, spaces at 1.
  rewrite run_seq, run_star_greedy.
  apply spaces_bar_rejects; trivial.
  intros c s' Hc. now apply bar_fails.
Qed.

Lemma last_app_nonempty (m1 m2 : jsstring) (d : char16) :
  m2 <> [] -> last (m1 ++ m2) d = last m2 d.
Proof.
  intros Hne. induction m1 as [|c m1 IH]; [reflexivity|].
  simpl. rewrite IH. destruct (m1 ++ m2) eqn:E; [|reflexivity].
  apply app_eq_nil in E. destruct E as [_ E]. congruence.
Qed.

Lemma deadline_clause_matches (R : Type) (Z rest : jsstring) (caps : captures)
    (k : jsstring -> captures -> option R) :
  tag_text Z = true ->
  run flags_i (deadline_clause >> Str (lit "]"))
    (lit " " ++ lit "|" ++ lit " " ++ lit "DEADLINE:" ++ lit " " ++ Z
     ++ lit "]" ++ rest) caps k
  = match k rest (set_cap 2 Z caps) with
    | Some x => Some x
    | None =>
        run flags_i (deadline_clause >> Str (lit "]"))
          (lit " " ++ lit "|" ++ lit " " ++ lit "DEADLINE:" ++ lit " " ++ Z
           ++ lit "]" ++ rest) caps k
    end.
Proof.
  intros HZ. destruct (k rest (set_cap 2 Z caps)) as [x|] eqn:E; [|reflexivity].
  destruct (tag_text_facts Z HZ) as (c & Z' & -> & Hc & _ & Hall).
  unfold deadline_clause, MemorySystem.dot_plus_lazy.
  rewrite !run_seq.
  apply (run_spaces _ (lit " ")); [reflexivity|reflexivity|]. cbv beta.
  rewrite run_seq, run_str.
  rewrite (strip_lit_complete flags_i _ _ _ (lit_eq_refl flags_i (lit "|"))).
  rewrite run_seq.
  apply (run_spaces _ (lit " ")); [reflexivity|reflexivity|]. cbv beta.
  rewrite run_seq, run_str.
  rewrite (strip_lit_complete flags_i _ _ _
             (lit_eq_refl flags_i (lit "DEADLINE:"))).
  rewrite run_seq.
  apply (run_spaces _ (lit " ")); [reflexivity|exact Hc|]. cbv beta.
  rewrite (run_group_lazy _ 2 c Z' (lit "]" ++ rest)).
  - now rewrite close_matches, E.
  - now apply all_tag_dot.
  - intros m1 m2 caps' E' Hne. apply close_fails_text; [|exact Hne].
    apply all_cons in Hall. destruct Hall as [_ Hall]. rewrite E' in Hall.
    now apply all_app in Hall.
Qed.

(** The goal pattern on a well-formed tag with a deadline: it matches
    the whole tag and captures the goal and the deadline. *)
Lemma goal_tag_match (Y Z rest : jsstring) :
  tag_text Y = true -> tag_text Z = true ->
  match_at flags_i MemorySystem.goalRe (goal_tag Y Z ++ rest)
  = Some (goal_tag Y Z, [(2%nat, Z); (1%nat, Y)], rest).
Proof.
  intros HY HZ.
  destruct (tag_text_facts Y HY) as (c & Y' & -> & Hc & Hlast & Hall).
  unfold match_at.
  change MemorySystem.goalRe
    with (Str (lit "[GOAL:") >> spaces >> Group 1 (Plus false [CDot])
          >> Opt deadline_clause >> Str (lit "]")).
  replace (goal_tag (c :: Y') Z ++ rest)
    with (lit "[GOAL:" ++ lit " " ++ (c :: Y')
          ++ (lit " " ++ lit "|" ++ lit " " ++ lit "DEADLINE:" ++ lit " " ++ Z
              ++ lit "]" ++ rest))
    by (unfold goal_tag; now rewrite <- !app_assoc).
  rewrite run_seq, run_str.
  rewrite (strip_lit_complete flags_i _ _ _ (lit_eq_refl flags_i (lit "[GOAL:"))).
  rewrite run_seq.
  apply (run_spaces _ (lit " ")); [reflexivity|exact Hc|]. cbv beta.
  rewrite run_seq, run_group_lazy.
  - cbv beta. rewrite run_seq, run_opt, <- run_seq.
    rewrite (deadline_clause_matches _ Z rest _ _ HZ).
    replace (lit "[GOAL:" ++ lit " " ++ (c :: Y')
             ++ lit " " ++ lit "|" ++ lit " " ++ lit "DEADLINE:" ++ lit " "
             ++ Z ++ lit "]" ++ rest)
      with (goal_tag (c :: Y') Z ++ rest)
      by (unfold goal_tag; now rewrite <- !app_assoc).
    now rewrite consumed_app.
  - now apply all_tag_dot.
  - intros m1 m2 caps' E Hne. rewrite run_seq, run_opt.
    assert (Hm2 : all tag_char m2).
    { apply all_cons in Hall. destruct Hall as [_ Hall]. rewrite E in Hall.
      now apply all_app in Hall. }
    assert (Hl2 : is_space (last m2 0) = false).
    { rewrite <- Hlast, E.
      change (c :: m1 ++ m2) with ((c :: m1) ++ m2).
      now rewrite last_app_nonempty. }
    rewrite deadline_clause_rejects by assumption.
    now apply close_fails_text.
Qed.

(* ================================================================== *)
(** * All the matches of a pattern *)
(* ================================================================== *)

Section MatchAll.
Variable f : flags.
Variable r : regex.

Lemma matchAll_from_skip (m rest : jsstring) (i : nat) :
  matchAll_from f r (length m) i (m ++ rest)
  = matchAll_from f r 0 (i + length m) rest.
Proof.
  revert i. induction m as [|c m IH]; intros i; simpl.
  - now rewrite Nat.add_0_r.
  - rewrite IH. f_equal. lia.
Qed.

(** A match at the front: the next search starts behind it. *)
Lemma matchAll_from_match (m0 rest : jsstring) (caps : captures) (i : nat) :
  match_at f r (m0 ++ rest) = Some (m0, caps, rest) -> m0 <> [] ->
  matchAll_from f r 0 i (m0 ++ rest)
  = {| index := i; matched := m0; groups := caps |}
    :: matchAll_from f r 0 (i + length m0) rest.
Proof.
  intros H Hne. destruct m0 as [|c m0]; [congruence|].
  simpl app in *. simpl matchAll_from. rewrite H. f_equal.
  simpl length. rewrite Nat.pred_succ, matchAll_from_skip. f_equal. lia.
Qed.

(** A stretch in which no match begins is passed over. *)
Lemma matchAll_from_miss (m rest : jsstring) :
  (forall m1 m2, m = m1 ++ m2 -> m2 <> [] -> match_at f r (m2 ++ rest) = None) ->
  forall i, matchAll_from f r 0 i (m ++ rest)
            = matchAll_from f r 0 (i + length m) rest.
Proof.
  induction m as [|c m IH]; intros H i.
  - simpl. now rewrite Nat.add_0_r.
  - simpl app. simpl matchAll_from.
    pose proof (H [] (c :: m) eq_refl) as H0. simpl app in H0.
    rewrite H0 by discriminate. rewrite IH.
    + simpl length. f_equal. lia.
    + intros m1 m2 -> Hne. apply (H (c :: m1) m2 eq_refl Hne).
Qed.

Lemma matchAll_from_end (i : nat) :
  match_at f r [] = None -> matchAll_from f r 0 i [] = [].
Proof. intros H. simpl. now rewrite H. Qed.

End MatchAll.


Lemma tag_pattern_char (a : char16) (name : jsstring) (r : regex)
    (c : char16) (s : jsstring) :
  c <> 91 -> match_at flags_i (tag_pattern a name r) (c :: s) = None.
Proof.
  intros Hc. unfold match_at, tag_pattern. rewrite run_seq, run_str.
  rewrite strip_lit_mismatch; [reflexivity|].
  apply char_eq_i_other; trivial.
Qed.

Lemma tag_pattern_name (a : char16) (name : jsstring) (r : regex)
    (c : char16) (s : jsstring) :
  char_eq flags_i a c = false ->
  match_at flags_i (tag_pattern a name r) (91 :: c :: s) = None.
Proof.
  intros Hc. unfold match_at, tag_pattern. rewrite run_seq, run_str.
  simpl strip_lit. now rewrite Hc.
Qed.

Lemma tag_pattern_nil (a : char16) (name : jsstring) (r : regex) :
  match_at flags_i (tag_pattern a name r) [] = None.
Proof. reflexivity. Qed.


Lemma no_open_head (c : char16) (s : jsstring) : no_open (c :: s) -> c <> 91.
Proof.
  intros H. apply all_cons in H. destruct H as [H _].
  apply negb_true_iff in H. now apply N.eqb_neq.
Qed.

Lemma tag_text_no_open (t : jsstring) : all tag_char t -> no_open t.
Proof.
  unfold no_open. rewrite !all_forall. intros H c Hc.
  apply H, tag_char_facts in Hc. apply negb_true_iff, N.eqb_neq. tauto.
Qed.

(** A tag pattern finds nothing in a text without opening bracket. *)
Lemma tag_pattern_miss_text (a : char16) (name : jsstring) (r : regex)
    (m rest : jsstring) (i : nat) :
  no_open m ->
  matchAll_from flags_i (tag_pattern a name r) 0 i (m ++ rest)
  = matchAll_from flags_i (tag_pattern a name r) 0 (i + length m) rest.
Proof.
  intros Hm. apply matchAll_from_miss. intros m1 m2 -> Hne.
  apply all_app in Hm. destruct Hm as [_ Hm].
  destruct m2 as [|c m2]; [congruence|].
  apply tag_pattern_char. now apply (no_open_head c m2).
Qed.

(** Nor in a tag of another name. *)
Lemma tag_pattern_miss_tag (a : char16) (name : jsstring) (r : regex)
    (c : char16) (body rest : jsstring) (i : nat) :
  char_eq flags_i a c = false -> no_open (c :: body) ->
  matchAll_from flags_i (tag_pattern a name r) 0 i ((91 :: c :: body) ++ rest)
  = matchAll_from flags_i (tag_pattern a name r) 0
      (i + length (91 :: c :: body)) rest.
Proof.
  intros Hc Hbody. apply matchAll_from_miss. intros m1 m2 E Hne.
  destruct m1 as [|x m1]; simpl in E.
  - subst m2. now apply tag_pattern_name.
  - inversion E as [[Hx E']]. rewrite E' in Hbody.
    apply all_app in Hbody. destruct Hbody as [_ Hm2].
    destruct m2 as [|y m2]; [congruence|].
    apply tag_pattern_char. now apply (no_open_head y m2).
Qed.

Lemma tag_pattern_miss_end (a : char16) (name : jsstring) (r : regex)
    (m : jsstring) (i : nat) :
  no_open m -> matchAll_from flags_i (tag_pattern a name r) 0 i m = [].
Proof.
  intros Hm. rewrite <- (app_nil_r m).
  rewrite tag_pattern_miss_text by exact Hm.
  apply matchAll_from_end, tag_pattern_nil.
Qed.

Lemma no_open_app (a b : jsstring) : no_open a -> no_open b -> no_open (a ++ b).
Proof. intros Ha Hb. apply all_app. now split. Qed.

Lemma tag_text_all (t : jsstring) : tag_text t = true -> all tag_char t.
Proof.
  intros H. now destruct (tag_text_facts t H) as (c & t' & _ & _ & _ & Hall).
Qed.

Lemma tag_text_nonempty (t : jsstring) : tag_text t = true -> t <> [].
Proof. destruct t; [discriminate|]. intros _. discriminate. Qed.

(** The three tags, as an opening bracket, the first letter of the name
    and a text without opening bracket. *)
Lemma remember_tag_shape (X : jsstring) :
  tag_text X = true ->
  exists body, remember_tag X = 91 :: ch "R" :: body
               /\ no_open (ch "R" :: body).
Proof.
  intros HX. exists (lit "EMEMBER: " ++ X ++ lit "]").
  split; [reflexivity|].
  change (no_open (lit "REMEMBER: " ++ X ++ lit "]")).
  repeat apply no_open_app; try reflexivity.
  now apply tag_text_no_open, tag_text_all.
Qed.

Lemma goal_tag_shape (Y Z : jsstring) :
  tag_text Y = true -> tag_text Z = true ->
  exists body, goal_tag Y Z = 91 :: ch "G" :: body
               /\ no_open (ch "G" :: body).
Proof.
  intros HY HZ. exists (lit "OAL: " ++ Y ++ lit " | DEADLINE: " ++ Z ++ lit "]").
  split; [reflexivity|].
  change (no_open (lit "GOAL: " ++ Y ++ lit " | DEADLINE: " ++ Z ++ lit "]")).
  repeat apply no_open_app; try reflexivity;
    now apply tag_text_no_open, tag_text_all.
Qed.

Lemma done_tag_shape (Y : jsstring) :
  tag_text Y = true ->
  exists body, done_tag Y = 91 :: ch "D" :: body
               /\ no_open (ch "D" :: body).
Proof.
  intros HY. exists (lit "ONE: " ++ Y ++ lit "]").
  split; [reflexivity|].
  change (no_open (lit "DONE: " ++ Y ++ lit "]")).
  repeat apply no_open_app; try reflexivity.
  now apply tag_text_no_open, tag_text_all.
Qed.

Section ThreeTags.
Variables X Y Z pre post : jsstring.
Hypothesis HX : tag_text X = true.
Hypothesis HY : tag_text Y = true.
Hypothesis HZ : tag_text Z = true.
Hypothesis Hpre : no_open pre.
Hypothesis Hpost : no_open post.


Lemma remember_matches :
  exists i,
    matchAll flags_i MemorySystem.rememberRe (three_tags X Y Z pre post)
    = [{| index := i; matched := remember_tag X; groups := [(1%nat, X)] |}].
Proof.
  destruct (goal_tag_shape Y Z HY HZ) as (b2 & E2 & H2).
  destruct (done_tag_shape Y HY) as (b3 & E3 & H3).
  eexists. unfold matchAll, three_tags.
  change MemorySystem.rememberRe
    with (tag_pattern (ch "R") (lit "EMEMBER:")
            (spaces >> Group 1 MemorySystem.dot_plus_lazy >> Str (lit "]"))).
  rewrite tag_pattern_miss_text by exact Hpre.
  rewrite matchAll_from_match with (caps := [(1%nat, X)]).
  - f_equal. rewrite E2, tag_pattern_miss_tag by (reflexivity || exact H2).
    rewrite E3, tag_pattern_miss_tag by (reflexivity || exact H3).
    now apply tag_pattern_miss_end.
  - unfold tag_pattern, remember_tag. rewrite <- !app_assoc.
    apply (simple_tag_match (lit "[REMEMBER:") X _ HX).
  - discriminate.
Qed.

Lemma goal_matches :
  exists i,
    matchAll flags_i MemorySystem.goalRe (three_tags X Y Z pre post)
    = [{| index := i; matched := goal_tag Y Z;
          groups := [(2%nat, Z); (1%nat, Y)] |}].
Proof.
  destruct (remember_tag_shape X HX) as (b1 & E1 & H1).
  destruct (done_tag_shape Y HY) as (b3 & E3 & H3).
  eexists. unfold matchAll, three_tags.
  pose proof (goal_tag_match Y Z (done_tag Y ++ post) HY HZ) as Hm.
  revert Hm.
  change MemorySystem.goalRe
    with (tag_pattern (ch "G") (lit "OAL:")
            (spaces >> Group 1 MemorySystem.dot_plus_lazy
             >> Opt (spaces >> Str (lit "|") >> spaces >> Str (lit "DEADLINE:")
                     >> spaces >> Group 2 MemorySystem.dot_plus_lazy)
             >> Str (lit "]"))).
  intros Hm.
  rewrite tag_pattern_miss_text by exact Hpre.
  rewrite E1, tag_pattern_miss_tag by (reflexivity || exact H1).
  rewrite matchAll_from_match with (caps := [(2%nat, Z); (1%nat, Y)]).
  - f_equal. rewrite E3, tag_pattern_miss_tag by (reflexivity || exact H3).
    now apply tag_pattern_miss_end.
  - exact Hm.
  - discriminate.
Qed.

Lemma done_matches :
  exists i,
    matchAll flags_i MemorySystem.doneRe (three_tags X Y Z pre post)
    = [{| index := i; matched := done_tag Y; groups := [(1%nat, Y)] |}].
Proof.
  destruct (remember_tag_shape X HX) as (b1 & E1 & H1).
  destruct (goal_tag_shape Y Z HY HZ) as (b2 & E2 & H2).
  eexists. unfold matchAll, three_tags.
  change MemorySystem.doneRe
    with (tag_pattern (ch "D") (lit "ONE:")
            (spaces >> Group 1 MemorySystem.dot_plus_lazy >> Str (lit "]"))).
  rewrite tag_pattern_miss_text by exact Hpre.
  rewrite E1, tag_pattern_miss_tag by (reflexivity || exact H1).
  rewrite E2, tag_pattern_miss_tag by (reflexivity || exact H2).
  rewrite matchAll_from_match with (caps := [(1%nat, Y)]).
  - f_equal. now apply tag_pattern_miss_end.
  - unfold tag_pattern, done_tag. rewrite <- !app_assoc.
    apply (simple_tag_match (lit "[DONE:") Y _ HY).
  - discriminate.
Qed.

End ThreeTags.

(* ================================================================== *)
(** * Removing a tag, trimming *)
(* ================================================================== *)

Lemma remove_first_unfold (pat s : jsstring) :
  remove_first pat s
  = match strip_prefix pat s with
    | Some rest => rest
    | None => match s with
              | c :: s' => c :: remove_first pat s'
              | [] => []
              end
    end.
Proof. now destruct s. Qed.

Lemma strip_prefix_mismatch (a c : char16) (pat s : jsstring) :
  a <> c -> strip_prefix (a :: pat) (c :: s) = None.
Proof.
  intros H.
  change (strip_prefix (a :: pat) (c :: s))
    with (if a =? c then strip_prefix pat s else None).
  now destruct (N.eqb_spec a c).
Qed.

(** The first occurrence of a tag in a text whose front has no opening
    bracket is the one behind that front. *)
Lemma remove_first_tag (tag pre rest : jsstring) (t : jsstring) :
  tag = 91 :: t -> no_open pre ->
  remove_first tag (pre ++ tag ++ rest) = pre ++ rest.
Proof.
  intros -> Hpre. induction pre as [|c pre IH].
  - rewrite remove_first_unfold.
    match goal with
    | |- context [strip_prefix ?a ?b] =>
        assert (E : strip_prefix a b = Some rest)
          by (apply strip_prefix_some; reflexivity);
        rewrite E
    end.
    reflexivity.
  - pose proof (no_open_head c pre Hpre) as Hc.
    apply all_cons in Hpre. destruct Hpre as [_ Hpre].
    rewrite remove_first_unfold.
    match goal with
    | |- context [strip_prefix ?a ?b] =>
        assert (E : strip_prefix a b = None)
          by (apply strip_prefix_mismatch; congruence);
        rewrite E
    end.
    change ((c :: pre) ++ (91 :: t) ++ rest)
      with (c :: pre ++ (91 :: t) ++ rest).
    cbv iota. change ((c :: pre) ++ rest) with (c :: pre ++ rest).
    f_equal. now apply IH.
Qed.

Lemma all_drop_while (p q : char16 -> bool) (s : jsstring) :
  all p s -> all p (drop_while q s).
Proof.
  induction s as [|c s IH]; intros H; simpl; [exact H|].
  destruct (q c); [|exact H]. apply IH. now apply all_cons in H.
Qed.

Lemma all_rev (p : char16 -> bool) (s : jsstring) : all p s -> all p (rev s).
Proof.
  rewrite !all_forall. intros H c Hc. apply H. now apply in_rev.
Qed.

Lemma all_trim (p : char16 -> bool) (s : jsstring) : all p s -> all p (trim s).
Proof.
  intros H. unfold trim.
  now apply all_rev, all_drop_while, all_rev, all_drop_while.
Qed.

(** A text without opening bracket holds no tag. *)
Lemma no_open_no_tag (t s : jsstring) :
  no_open s -> contains (91 :: t) s = false.
Proof.
  intros Hs. apply contains_not_occurs. intros (a & b & ->).
  apply all_app in Hs. destruct Hs as [_ Hs].
  now apply (no_open_head 91 (t ++ b)) in Hs.
Qed.

(* ================================================================== *)
(** * The first decision and the first message of a text *)
(* ================================================================== *)

Lemma trim_space_cons (c : char16) (s : jsstring) :
  is_space c = true -> trim (c :: s) = trim s.
Proof. intros H. unfold trim. simpl drop_while. now rewrite H. Qed.

Lemma drop_while_head (p : char16 -> bool) (s : jsstring) (c : char16)
    (r : jsstring) :
  drop_while p s = c :: r -> p c = false.
Proof.
  induction s as [|x s IH]; simpl; [discriminate|].
  destruct (p x) eqn:E; [exact IH|]. intros H. now inversion H; subst.
Qed.

(** The leftmost match, read off the text place by place. *)
Lemma exec_from_scan (A : Type) (f : flags) (r : regex)
    (here : jsstring -> option A) (ok : A -> captures -> Prop) :
  (forall s, here s = None -> match_at f r s = None) ->
  (forall s a, here s = Some a ->
               exists m0 caps rest,
                 match_at f r s = Some (m0, caps, rest) /\ ok a caps) ->
  forall s i,
    match first_of here s with
    | None => exec_from f r i s = None
    | Some a => exists m rest, exec_from f r i s = Some (m, rest)
                               /\ ok a (groups m)
    end.
Proof.
  intros Hnone Hsome. induction s as [|c s IH]; intros i.
  - simpl. destruct (here []) as [a|] eqn:E.
    + destruct (Hsome _ _ E) as (m0 & caps & rest & -> & Hok).
      now eexists _, _.
    + now rewrite (Hnone _ E).
  - simpl. destruct (here (c :: s)) as [a|] eqn:E.
    + destruct (Hsome _ _ E) as (m0 & caps & rest & -> & Hok).
      now eexists _, _.
    + rewrite (Hnone _ E). apply IH.
Qed.

Lemma strip_lit_is_opens_with (w s : jsstring) :
  strip_lit flags_is w s = opens_with w s.
Proof.
  revert s. induction w as [|a w IH]; intros s; [reflexivity|].
  destruct s as [|c s]; [reflexivity|]. simpl.
  change (char_eq flags_is a c) with (char_eq flags_i a c).
  rewrite char_eq_i_lower. now rewrite IH.
Qed.

Lemma opens_with_reads (w s rest : jsstring) :
  opens_with w s = Some rest -> exists m, s = m ++ rest /\ lit_eq flags_i w m.
Proof. rewrite <- strip_lit_opens_with. apply strip_lit_sound. Qed.

(** A word of letters is not taken by white space. *)
Lemma word_stops_space (w m rest : jsstring) (a : char16) (w' : jsstring) :
  w = a :: w' -> 65 <= a <= 90 -> lit_eq flags_i w m ->
  stops is_space (m ++ rest).
Proof.
  intros -> Ha Hm. inversion Hm as [|x c l m' Ec Hm']; subst. simpl.
  apply letter_not_space. apply char_eq_i_capital in Ec; [tauto|exact Ha].
Qed.

Lemma drop_while_stops (s : jsstring) :
  stops is_space s -> drop_while is_space s = s.
Proof. destruct s as [|c s]; [reflexivity|]. simpl. now intros ->. Qed.

(** What the decision pattern finds at a place. *)
Lemma decision_here_none (s : jsstring) :
  decision_here s = None -> match_at flags_i CronScheduler.decisionRe s = None.
Proof.
  intros H.
  destruct (match_at flags_i CronScheduler.decisionRe s)
    as [[[m0 caps] rest]|] eqn:E; [|reflexivity].
  apply match_at_sound in E. destruct E as [M _].
  apply decisionRe_rmatch in M.
  destruct M as (mk & ws & d & -> & Hmk & Hws & Hd & _).
  unfold decision_here in H.
  rewrite <- strip_lit_opens_with, (strip_lit_complete flags_i _ _ _ Hmk) in H.
  rewrite (drop_while_app _ _ _ Hws) in H.
  rewrite <- !strip_lit_opens_with in H.
  destruct Hd as [Hd|Hd].
  - rewrite drop_while_stops in H
      by (eapply (word_stops_space (lit "YES")); [reflexivity| |exact Hd];
          unfold ch; simpl; lia).
    now rewrite (strip_lit_complete flags_i _ _ _ Hd) in H.
  - rewrite drop_while_stops in H
      by (eapply (word_stops_space (lit "NO")); [reflexivity| |exact Hd];
          unfold ch; simpl; lia).
    rewrite (strip_lit_complete flags_i _ _ _ Hd) in H.
    now destruct (strip_lit flags_i (lit "YES") (d ++ rest)).
Qed.

Lemma decision_here_some (s : jsstring) (a : bool) :
  decision_here s = Some a ->
  exists m0 caps rest,
    match_at flags_i CronScheduler.decisionRe s = Some (m0, caps, rest)
    /\ exists d, caps = [(1%nat, d)]
                 /\ toUpperCase d = if a then lit "YES" else lit "NO".
Proof.
  unfold decision_here.
  destruct (opens_with (lit "DECISION:") s) as [rest|] eqn:E; [|discriminate].
  destruct (opens_with_reads _ _ _ E) as (mk & -> & Hmk).
  destruct (drop_while_span is_space rest) as (ws & Hrest & Hws).
  set (word := drop_while is_space rest) in *.
  assert (Hrun : forall d post,
            word = d ++ post ->
            (lit_eq flags_i (lit "YES") d
             \/ (lit_eq flags_i (lit "NO") d
                 /\ strip_lit flags_i (lit "YES") word = None)) ->
            match_at flags_i CronScheduler.decisionRe (mk ++ rest)
            = Some (mk ++ ws ++ d, [(1%nat, d)], post)).
  { intros d post Hw Hd.
    assert (Hstop : stops is_space word).
    { rewrite Hw. destruct Hd as [Hd|[Hd _]].
      - eapply (word_stops_space (lit "YES")); [reflexivity| |exact Hd].
        unfold ch; simpl; lia.
      - eapply (word_stops_space (lit "NO")); [reflexivity| |exact Hd].
        unfold ch; simpl; lia. }
    unfold match_at, CronScheduler.decisionRe.
    rewrite run_seq, run_str, (strip_lit_complete flags_i _ _ _ Hmk).
    rewrite run_seq, Hrest. eapply run_spaces; [exact Hws|exact Hstop|].
    rewrite run_group, run_alt, !run_str.
    destruct Hd as [Hd|[Hd Hn]].
    - rewrite Hw, (strip_lit_complete flags_i _ _ _ Hd).
      rewrite consumed_app.
      replace (mk ++ ws ++ d ++ post) with ((mk ++ ws ++ d) ++ post)
        by (now rewrite <- !app_assoc).
      now rewrite consumed_app.
    - rewrite Hn, Hw, (strip_lit_complete flags_i _ _ _ Hd).
      rewrite consumed_app.
      replace (mk ++ ws ++ d ++ post) with ((mk ++ ws ++ d) ++ post)
        by (now rewrite <- !app_assoc).
      now rewrite consumed_app. }
  destruct (opens_with (lit "YES") word) as [post|] eqn:Ey.
  - intros Ha. inversion Ha; subst a.
    destruct (opens_with_reads _ _ _ Ey) as (d & Hw & Hd).
    eexists _, _, _. split; [apply (Hrun d post Hw); now left|].
    exists d. split; [reflexivity|]. now rewrite (lit_eq_upper _ _ Hd).
  - destruct (opens_with (lit "NO") word) as [post|] eqn:En; [|discriminate].
    intros Ha. inversion Ha; subst a.
    destruct (opens_with_reads _ _ _ En) as (d & Hw & Hd).
    eexists _, _, _. split.
    + apply (Hrun d post Hw). right. split; [exact Hd|].
      now rewrite strip_lit_opens_with.
    + exists d. split; [reflexivity|]. now rewrite (lit_eq_upper _ _ Hd).
Qed.

(** The check-in is due exactly when the first decision of the text is
    YES. *)
Lemma shouldCheckin_first_decision (text : jsstring) :
  CronScheduler.shouldCheckin text
  = match first_decision text with
    | Some true => true
    | _ => false
    end.
Proof.
  unfold CronScheduler.shouldCheckin, str_match, first_decision.
  pose proof (exec_from_scan bool flags_i CronScheduler.decisionRe
                decision_here
                (fun a caps => exists d, caps = [(1%nat, d)]
                   /\ toUpperCase d = if a then lit "YES" else lit "NO")
                decision_here_none decision_here_some text 0%nat) as H.
  destruct (first_of decision_here text) as [a|].
  - destruct H as (m & rest & -> & d & Hcaps & Hd). simpl.
    unfold group. rewrite Hcaps. simpl. rewrite Hd.
    now destruct a.
  - now rewrite H.
Qed.

Lemma run_lookahead (f : flags) (R : Type) (r : regex) (s : jsstring)
    (caps : captures) (k : jsstring -> captures -> option R) :
  run f (Lookahead r) s caps k
  = match run f r s caps (fun _ caps' => Some caps') with
    | Some caps' => k s caps'
    | None => None
    end.
Proof. reflexivity. Qed.

Lemma run_end (f : flags) (R : Type) (s : jsstring) (caps : captures)
    (k : jsstring -> captures -> option R) :
  run f EndOfInput s caps k
  = match s with
    | [] => k [] caps
    | _ :: _ => None
    end.
Proof. reflexivity. Qed.

(** The lookahead of the message pattern holds exactly where a message
    ends. *)
Lemma lookahead_ends (R : Type) (s : jsstring) (caps : captures)
    (k : jsstring -> captures -> option R) :
  run flags_is (Lookahead (Alt (Str (10 :: lit "REASON:")) EndOfInput))
      s caps k
  = if message_ends s then k s caps else None.
Proof.
  rewrite run_lookahead, run_alt, run_str, run_end, strip_lit_is_opens_with.
  destruct s as [|c s]; [reflexivity|]. unfold message_ends.
  now destruct (opens_with (10 :: lit "REASON:") (c :: s)).
Qed.

Lemma star_lazy_unfold (R : Type) (p : char16 -> bool)
    (k : jsstring -> option R) (s : jsstring) :
  star_lazy p k s
  = match k s with
    | Some x => Some x
    | None =>
        match s with
        | c :: s' => if p c then star_lazy p k s' else None
        | [] => None
        end
    end.
Proof. now destruct s. Qed.

Lemma message_rest_unfold (s : jsstring) :
  message_rest s
  = if message_ends s then []
    else match s with
         | c :: s' => c :: message_rest s'
         | [] => []
         end.
Proof. now destruct s. Qed.

(** A lazy repetition of any character stops at the first place at which
    a message ends. *)
Lemma star_lazy_message (s : jsstring) :
  exists tail,
    s = message_rest s ++ tail
    /\ forall (R : Type) (p : char16 -> bool) (F : jsstring -> R)
              (k : jsstring -> option R),
         (forall c, p c = true) ->
         (forall s', k s' = if message_ends s' then Some (F s') else None) ->
         star_lazy p k s = Some (F tail).
Proof.
  induction s as [|c s IH]; rewrite message_rest_unfold.
  - exists []. split; [reflexivity|]. intros R p F k Hp Hk.
    now rewrite star_lazy_unfold, Hk.
  - destruct (message_ends (c :: s)) eqn:E.
    + exists (c :: s). split; [reflexivity|]. intros R p F k Hp Hk.
      now rewrite star_lazy_unfold, Hk, E.
    + destruct IH as (tail & Hs & Hl). exists tail.
      split; [simpl; now rewrite <- Hs|]. intros R p F k Hp Hk.
      rewrite star_lazy_unfold, Hk, E, Hp. now apply Hl.
Qed.

(** A greedy repetition gives its last character back when the rest of
    the pattern needs one. *)
Lemma star_greedy_back (R : Type) (p : char16 -> bool)
    (k : jsstring -> option R) (m : jsstring) (z : char16) (x : R) :
  all p (m ++ [z]) -> k [] = None -> k [z] = Some x ->
  star_greedy p k (m ++ [z]) = Some x.
Proof.
  intros Hall H0 Hz. induction m as [|c m IH].
  - apply all_cons in Hall. destruct Hall as [Hpz _].
    simpl app. rewrite star_greedy_cons, Hpz. simpl. now rewrite H0.
  - simpl app in *. apply all_cons in Hall. destruct Hall as [Hc Hall].
    rewrite star_greedy_cons, Hc. now rewrite (IH Hall).
Qed.

Lemma run_spaces_any (f : flags) (R : Type) (ws s : jsstring)
    (caps : captures) (k : jsstring -> captures -> option R) (x : R) :
  all is_space ws -> stops is_space s -> k s caps = Some x ->
  run f spaces (ws ++ s) caps k = Some x.
Proof.
  intros Hws Hs Hk. unfold spaces. rewrite run_star_greedy.
  apply star_greedy_longest.
  - eapply all_ext; [|exact Hws]. intros c. symmetry. apply class_space.
  - destruct s as [|c s]; [exact I|].
    change (class_match f [CSpace] c = false).
    rewrite class_space. exact Hs.
  - exact Hk.
Qed.

Lemma opens_with_reads_is (w s rest : jsstring) :
  opens_with w s = Some rest ->
  exists m, s = m ++ rest /\ lit_eq flags_is w m.
Proof. rewrite <- strip_lit_is_opens_with. apply strip_lit_sound. Qed.

(** What the message pattern finds at a place. *)
Lemma message_here_none (s : jsstring) :
  message_here s = None -> match_at flags_is CronScheduler.messageRe s = None.
Proof.
  unfold message_here, match_at, CronScheduler.messageRe.
  rewrite run_seq, run_str, strip_lit_is_opens_with.
  destruct (opens_with (lit "MESSAGE:") s) as [rest|]; [|reflexivity].
  destruct (drop_while is_space rest) as [|c word]; [|discriminate].
  destruct rest as [|c rest]; [reflexivity|discriminate].
Qed.

Lemma message_here_some (s msg : jsstring) :
  message_here s = Some msg ->
  exists m0 caps rest,
    match_at flags_is CronScheduler.messageRe s = Some (m0, caps, rest)
    /\ exists g, caps = [(1%nat, g)] /\ trim g = msg.
Proof.
  unfold message_here.
  destruct (opens_with (lit "MESSAGE:") s) as [rest|] eqn:E; [|discriminate].
  destruct (opens_with_reads_is _ _ _ E) as (mk & -> & Hmk).
  unfold match_at, CronScheduler.messageRe.
  rewrite run_seq, run_str, (strip_lit_complete flags_is _ _ _ Hmk).
  rewrite run_seq.
  destruct (drop_while_span is_space rest) as (ws & Hrest & Hws).
  destruct (drop_while is_space rest) as [|c word] eqn:Ed.
  - destruct rest as [|c0 rest0] eqn:Er; [discriminate|].
    intros Hm. inversion Hm; subst msg. rewrite <- Er in *.
    rewrite app_nil_r in Hrest. subst ws.
    destruct (exists_last (l := rest)) as (m & z & Hlast);
      [rewrite Er; discriminate|].
    rewrite Hlast in *. clear Er.
    unfold spaces. rewrite run_star_greedy.
    eexists _, _, _. split.
    + apply star_greedy_back.
      * eapply all_ext; [|exact Hws]. intros x. symmetry. apply class_space.
      * reflexivity.
      * reflexivity.
    + exists [z]. split; [reflexivity|].
      apply all_app in Hws. destruct Hws as [_ Hz].
      apply all_cons in Hz. destruct Hz as [Hz _].
      now rewrite (trim_space_cons z [] Hz).
  - intros Hm. inversion Hm; subst msg. rewrite Hrest.
    destruct (star_lazy_message word) as (tail & Hword & Hlazy).
    exists (consumed (mk ++ ws ++ c :: word) tail),
      (set_cap 1 (consumed (c :: word) tail) []), tail.
    split.
    + eapply run_spaces_any; [exact Hws| |].
      * simpl. now apply (drop_while_head is_space rest c word).
      * rewrite run_seq, run_group, run_plus_lazy. cbv beta iota.
        rewrite class_dot_all.
        apply (Hlazy _ _
                 (fun s'' => (consumed (mk ++ ws ++ c :: word) s'',
                              set_cap 1 (consumed (c :: word) s'') [], s''))).
        -- apply class_dot_all.
        -- intros s'. apply lookahead_ends.
    + exists (c :: message_rest word). split; [|reflexivity].
      unfold set_cap. simpl. f_equal. f_equal.
      rewrite Hword at 1. apply consumed_cons_app.
Qed.

(** The message of a text is its first message. *)
Lemma message_first_message (text : jsstring) :
  CronScheduler.message text = first_message text.
Proof.
  unfold CronScheduler.message, str_match, first_message.
  pose proof (exec_from_scan jsstring flags_is CronScheduler.messageRe
                message_here
                (fun msg caps => exists g, caps = [(1%nat, g)] /\ trim g = msg)
                message_here_none message_here_some text 0%nat) as H.
  destruct (first_of message_here text) as [msg|].
  - destruct H as (m & rest & -> & g & Hcaps & Hg). simpl.
    unfold group. rewrite Hcaps. simpl. now rewrite Hg.
  - now rewrite H.
Qed.

(** Places at which nothing is found are passed over. *)
Lemma first_of_skip (A : Type) (here : jsstring -> option A)
    (pre rest : jsstring) :
  begins_nowhere (fun s => found (here s)) pre rest = true ->
  first_of here (pre ++ rest) = first_of here rest.
Proof.
  induction pre as [|c pre IH]; intros H; [reflexivity|].
  simpl in H. apply andb_prop in H. destruct H as [Hc H].
  simpl app. simpl first_of. simpl app in Hc.
  destruct (here (c :: pre ++ rest)); [discriminate|]. now apply IH.
Qed.

Lemma first_of_here (A : Type) (here : jsstring -> option A)
    (s : jsstring) (a : A) :
  here s = Some a -> first_of here s = Some a.
Proof. intros H. destruct s; simpl; now rewrite H. Qed.

Lemma drop_while_keep (p : char16 -> bool) (m s : jsstring) :
  drop_while p m <> [] -> drop_while p (m ++ s) = drop_while p m ++ s.
Proof.
  induction m as [|c m IH]; simpl; [congruence|].
  destruct (p c); [exact IH|reflexivity].
Qed.

Lemma drop_while_all (p : char16 -> bool) (m : jsstring) :
  all p m -> drop_while p m = [].
Proof.
  intros H. rewrite <- (app_nil_r m). now rewrite (drop_while_app p m [] H).
Qed.

Lemma drop_while_nil_all (p : char16 -> bool) (m : jsstring) :
  drop_while p m = [] -> all p m.
Proof.
  destruct (drop_while_span p m) as (ws & E & Hws).
  intros H. rewrite H, app_nil_r in E. now subst.
Qed.

(** White space at the end of a text is trimmed away. *)
Lemma trim_trailing (m sp : jsstring) :
  all is_space sp -> trim (m ++ sp) = trim m.
Proof.
  intros Hsp. unfold trim.
  destruct (drop_while is_space m) as [|c u] eqn:E.
  - apply drop_while_nil_all in E.
    rewrite (drop_while_app _ _ _ E), (drop_while_all _ _ Hsp). reflexivity.
  - rewrite drop_while_keep by (rewrite E; discriminate). rewrite E.
    rewrite rev_app_distr.
    now rewrite (drop_while_app _ _ _ (all_rev _ _ Hsp)).
Qed.

(** White space in front of the end of a message belongs to the
    message. *)
Lemma message_rest_spaces (sp tail : jsstring) :
  all is_space sp -> message_ends tail = true ->
  all is_space (message_rest (sp ++ tail)).
Proof.
  intros Hsp Htail. induction sp as [|c sp IH]; rewrite message_rest_unfold.
  - simpl app. now rewrite Htail.
  - destruct (message_ends ((c :: sp) ++ tail)); [reflexivity|].
    apply all_cons in Hsp. destruct Hsp as [Hc Hsp]. simpl app.
    apply all_cons. split; [exact Hc|now apply IH].
Qed.

(** The placeholder: [MESSAGE:], white space, the word [none], and white
    space up to the end of the message. *)
Lemma message_here_placeholder (mk ws sp tail : jsstring) :
  reads_as (lit "MESSAGE:") mk -> all is_space ws -> all is_space sp ->
  message_ends tail = true ->
  message_here (mk ++ ws ++ lit "none" ++ sp ++ tail) = Some (lit "none").
Proof.
  intros Hmk Hws Hsp Htail. apply lit_eq_reads_as in Hmk.
  unfold message_here.
  rewrite <- strip_lit_opens_with, (strip_lit_complete flags_i _ _ _ Hmk).
  rewrite (drop_while_app _ _ _ Hws).
  change (lit "none" ++ sp ++ tail)
    with (110 :: 111 :: 110 :: 101 :: sp ++ tail).
  change (drop_while is_space (110 :: 111 :: 110 :: 101 :: sp ++ tail))
    with (110 :: 111 :: 110 :: 101 :: sp ++ tail).
  cbv iota. f_equal.
  rewrite (message_rest_unfold (111 :: _)).
  change (message_ends (111 :: 110 :: 101 :: sp ++ tail)) with false.
  cbv iota.
  rewrite (message_rest_unfold (110 :: _)).
  change (message_ends (110 :: 101 :: sp ++ tail)) with false.
  cbv iota.
  rewrite (message_rest_unfold (101 :: _)).
  change (message_ends (101 :: sp ++ tail)) with false.
  cbv iota.
  change (110 :: 111 :: 110 :: 101 :: message_rest (sp ++ tail))
    with (lit "none" ++ message_rest (sp ++ tail)).
  now rewrite (trim_trailing _ _ (message_rest_spaces sp tail Hsp Htail)).
Qed.

Lemma begins_nowhere_weaken (t1 t2 : jsstring -> bool) (pre rest : jsstring) :
  (forall s, t1 s = false -> t2 s = false) ->
  begins_nowhere t1 pre rest = true -> begins_nowhere t2 pre rest = true.
Proof.
  intros Ht H. apply begins_nowhere_intro. intros p1 p2 E Hne.
  apply Ht. now apply (begins_nowhere_split _ _ _ H p1 p2).
Qed.

(** Where the word [MESSAGE:] does not stand, no message begins. *)
Lemma message_here_opens (s : jsstring) :
  found (opens_with (lit "MESSAGE:") s) = false ->
  found (message_here s) = false.
Proof.
  unfold message_here.
  now destruct (opens_with (lit "MESSAGE:") s).
Qed.

(* ================================================================== *)
(** * Session manager: mutators and reads *)
(* ================================================================== *)

Section SessionFacts.
Import SessionManager.

Lemma updateSessionId_state (now sid : jsstring) (m : t) (st : SessionState) :
  state m = Some st ->
  exists st', state (updateSessionId now sid m) = Some st'
              /\ sessionId st' = Some sid
              /\ tokenUsage st' = tokenUsage st.
Proof.
  intros H. unfold updateSessionId, mutate. rewrite H. simpl.
  eexists. split; [reflexivity|]. now split.
Qed.

Lemma touch_state (now : jsstring) (m : t) (st : SessionState) :
  state m = Some st ->
  exists st', state (touch now m) = Some st'
              /\ sessionId st' = sessionId st
              /\ tokenUsage st' = tokenUsage st.
Proof.
  intros H. unfold touch, mutate. rewrite H. simpl.
  eexists. split; [reflexivity|]. now split.
Qed.

End SessionFacts.

(** Up to 2^53 a sum of whole numbers is exact. *)
Lemma round_to_double_safe (z : Z) : safe_integer z -> round_to_double z = z.
Proof.
  unfold safe_integer, round_to_double. intros H.
  assert (E : (2 ^ 53 = 9007199254740992)%Z) by reflexivity.
  destruct (Z.ltb_spec (Z.abs z) (2 ^ 53)) as [_|Hge]; [reflexivity|lia].
Qed.

Lemma number_add_safe (a b : Z) :
  safe_integer (a + b)%Z -> number_add a b = (a + b)%Z.
Proof. apply round_to_double_safe. Qed.

(** Rounding does not take a number of 2^53 or more below 2^53. *)
Lemma round_to_double_large (z : Z) :
  (9007199254740992 <= z -> 9007199254740992 <= round_to_double z)%Z.
Proof.
  intros Hz. unfold round_to_double.
  assert (E : (2 ^ 53 = 9007199254740992)%Z) by reflexivity.
  assert (E52 : (2 ^ 52 = 4503599627370496)%Z) by reflexivity.
  rewrite (Z.abs_eq z) by lia.
  destruct (Z.ltb_spec z (2 ^ 53)) as [Hlt|_]; [lia|].
  assert (Hlog : (53 <= Z.log2 z)%Z).
  { rewrite <- (Z.log2_pow2 53) by lia. apply Z.log2_le_mono. lia. }
  destruct (Z.log2_spec z) as [Hlo _]; [lia|].
  set (e := (Z.log2 z - 52)%Z) in *.
  assert (He : (1 <= e)%Z) by (unfold e; lia).
  assert (Hsplit : (2 ^ Z.log2 z = 2 ^ 52 * 2 ^ e)%Z).
  { rewrite <- Z.pow_add_r by lia. f_equal. unfold e. lia. }
  assert (Hulp : (2 <= 2 ^ e)%Z).
  { change 2%Z with (2 ^ 1)%Z at 1. apply Z.pow_le_mono_r; lia. }
  set (ulp := (2 ^ e)%Z) in *.
  assert (Hq : (2 ^ 52 <= z / ulp)%Z).
  { apply Z.div_le_lower_bound; lia. }
  rewrite (Z.sgn_pos z) by lia.
  destruct (2 * (z mod ulp) <? ulp)%Z; [nia|].
  destruct (ulp <? 2 * (z mod ulp))%Z; [nia|].
  destruct (Z.even (z / ulp)); nia.
Qed.

(** Adding an amount that is not negative to a safe counter does not
    lower it. *)
Lemma number_add_grows (c a : Z) :
  safe_integer c -> (0 <= a)%Z -> (c <= number_add c a)%Z.
Proof.
  unfold safe_integer. intros Hc Ha. unfold number_add.
  destruct (Z.lt_ge_cases (c + a) 9007199254740992) as [Hlt|Hge].
  - rewrite round_to_double_safe by (unfold safe_integer; lia). lia.
  - pose proof (round_to_double_large (c + a) Hge). lia.
Qed.

(** C4.  [recordUsage] on an initialised session: the session counters
    restart from zero when [isNewSession] is set, then the amounts are added
    to the lifetime and to the session counters in one update, which is
    also written to the session file; [recordUsage(100, 50, true)] followed
    by [recordUsage(10, 5, false)] leaves the session totals at 110 and 55
    and the lifetime totals 110 and 55 above what they were; and no call
    with non-negative amounts, on any manager, lowers a lifetime counter.
    The counters are numbers: the sums are the exact ones as long as they
    are safe integers (below 2^53 in magnitude), which the first two parts
    assume of the sums and the third of the counters before the call;
    beyond, a sum is rounded, and 1 added to a counter of 2^53 leaves it
    as it is. *)
Theorem recordUsage_fresh_session_reset
    (m : SessionManager.t) (st : SessionState)
    (Hinit : SessionManager.state m = Some st) :
  (forall now (tokensIn tokensOut : Z) (isNewSession : bool),
     safe_integer (totalInput (tokenUsage st) + tokensIn)%Z ->
     safe_integer (totalOutput (tokenUsage st) + tokensOut)%Z ->
     safe_integer ((if isNewSession then 0
                    else sessionInput (tokenUsage st)) + tokensIn)%Z ->
     safe_integer ((if isNewSession then 0
                    else sessionOutput (tokenUsage st)) + tokensOut)%Z ->
     exists st',
       SessionManager.state
         (SessionManager.recordUsage now tokensIn tokensOut isNewSession m)
         = Some st'
       /\ SessionManager.file
            (SessionManager.recordUsage now tokensIn tokensOut isNewSession m)
          = Some st'
       /\ totalInput (tokenUsage st')
          = (totalInput (tokenUsage st) + tokensIn)%Z
       /\ totalOutput (tokenUsage st')
          = (totalOutput (tokenUsage st) + tokensOut)%Z
       /\ sessionInput (tokenUsage st')
          = ((if isNewSession then 0 else sessionInput (tokenUsage st))
             + tokensIn)%Z
       /\ sessionOutput (tokenUsage st')
          = ((if isNewSession then 0 else sessionOutput (tokenUsage st))
             + tokensOut)%Z
       /\ sessionId st' = sessionId st
       /\ model st' = model st
       /\ ((0 <= tokensIn)%Z -> (0 <= tokensOut)%Z ->
           (totalInput (tokenUsage st) <= totalInput (tokenUsage st'))%Z
           /\ (totalOutput (tokenUsage st) <= totalOutput (tokenUsage st'))%Z))
  /\ (forall now1 now2,
        safe_integer (totalInput (tokenUsage st))%Z ->
        safe_integer (totalInput (tokenUsage st) + 110)%Z ->
        safe_integer (totalOutput (tokenUsage st))%Z ->
        safe_integer (totalOutput (tokenUsage st) + 55)%Z ->
        exists stats,
          SessionManager.getTokenUsage
            (SessionManager.recordUsage now2 10 5 false
               (SessionManager.recordUsage now1 100 50 true m))
          = Returned stats
          /\ stats_sessionInput stats = 110%Z
          /\ stats_sessionOutput stats = 55%Z
          /\ stats_input stats = (totalInput (tokenUsage st) + 100 + 10)%Z
          /\ stats_output stats = (totalOutput (tokenUsage st) + 50 + 5)%Z)
  /\ (forall m' now tokensIn tokensOut isNewSession before after,
        (0 <= tokensIn)%Z -> (0 <= tokensOut)%Z ->
        SessionManager.getTokenUsage m' = Returned before ->
        safe_integer (stats_input before)%Z ->
        safe_integer (stats_output before)%Z ->
        SessionManager.getTokenUsage
          (SessionManager.recordUsage now tokensIn tokensOut isNewSession m')
        = Returned after ->
        (stats_input before <= stats_input after)%Z
        /\ (stats_output before <= stats_output after)%Z)
  /\ (forall now isNewSession,
        totalInput (tokenUsage st) = 9007199254740992%Z ->
        exists st',
          SessionManager.state
            (SessionManager.recordUsage now 1 0 isNewSession m) = Some st'
          /\ totalInput (tokenUsage st') = 9007199254740992%Z).
Proof.
  split; [|split; [|split]].
  - intros now tokensIn tokensOut isNewSession H1 H2 H3 H4.
    unfold SessionManager.recordUsage, SessionManager.mutate.
    rewrite Hinit. simpl.
    eexists. split; [reflexivity|]. split; [reflexivity|].
    unfold SessionManager.add_usage. cbn [tokenUsage totalInput totalOutput
      sessionInput sessionOutput sessionId model].
    rewrite !number_add_safe by assumption.
    repeat split; try reflexivity; lia.
  - intros now1 now2 H1 H2 H3 H4.
    unfold SessionManager.recordUsage, SessionManager.mutate.
    rewrite Hinit. simpl.
    eexists. split; [reflexivity|].
    unfold SessionManager.add_usage. cbn [tokenUsage totalInput totalOutput
      sessionInput sessionOutput stats_sessionInput stats_sessionOutput
      stats_input stats_output].
    unfold safe_integer in *.
    rewrite (number_add_safe (totalInput (tokenUsage st)) 100)
      by (unfold safe_integer; lia).
    rewrite (number_add_safe (totalOutput (tokenUsage st)) 50)
      by (unfold safe_integer; lia).
    rewrite (number_add_safe (totalInput (tokenUsage st) + 100) 10)
      by (unfold safe_integer; lia).
    rewrite (number_add_safe (totalOutput (tokenUsage st) + 50) 5)
      by (unfold safe_integer; lia).
    repeat split; reflexivity.
  - intros m' now tokensIn tokensOut isNewSession before after Hin Hout.
    unfold SessionManager.getTokenUsage, SessionManager.recordUsage,
      SessionManager.mutate.
    destruct (SessionManager.state m') as [st'|] eqn:E; simpl.
    + intros Hb Hsi Hso Ha. inversion Hb; subst. inversion Ha; subst.
      simpl in *. split; now apply number_add_grows.
    + rewrite E. intros Hb _ _ Ha. inversion Hb; subst. inversion Ha; subst.
      simpl. lia.
  - intros now isNewSession Htot.
    unfold SessionManager.recordUsage, SessionManager.mutate.
    rewrite Hinit. simpl.
    eexists. split; [reflexivity|].
    unfold SessionManager.add_usage. cbn [tokenUsage totalInput].
    rewrite Htot. reflexivity.
Qed.

Lemma recordUsage_fresh_session_reset_witness :
  SessionManager.state Sample.manager0 = Some Sample.state0
  /\ exists stats,
       SessionManager.getTokenUsage
         (SessionManager.recordUsage (lit "t2") 10 5 false
            (SessionManager.recordUsage (lit "t1") 100 50 true
               Sample.manager0))
       = Returned stats
       /\ stats_sessionInput stats = 110%Z
       /\ stats_sessionOutput stats = 55%Z
       /\ stats_input stats = 1110%Z
       /\ stats_output stats = 455%Z.
Proof.
  split; [reflexivity|].
  destruct (recordUsage_fresh_session_reset Sample.manager0 Sample.state0 eq_refl)
    as (_ & H & _).
  destruct (H (lit "t1") (lit "t2")) as (stats & E & H1 & H2 & H3 & H4);
    try (unfold safe_integer; simpl; lia).
  exists stats. simpl in H3, H4. repeat split; assumption || lia.
Defined.

(** C7, as stated, fails: the usage summary of a manager that was never
    initialised is returned, all zero, instead of throwing. *)
Lemma uninitialised_usage_read_returns_zeros :
  SessionManager.state (SessionManager.create None) = None
  /\ SessionManager.getTokenUsage (SessionManager.create None)
     = Returned zero_stats.
Proof. split; reflexivity. Qed.

(** C7, amended.  Before initialisation [getState] throws "Session not
    initialized. Call init() first." and never returns a state, while
    [getTokenUsage] does not throw and returns the all-zero summary; once the
    manager is initialised both return what the state holds. *)
Theorem uninitialised_reads
    (m : SessionManager.t) (Huninit : SessionManager.state m = None) :
  SessionManager.getState m
  = Thrown (lit "Session not initialized. Call init() first.")
  /\ SessionManager.getTokenUsage m = Returned zero_stats
  /\ (forall now cfgMode cfgModel,
        exists st,
          SessionManager.getState (SessionManager.init now cfgMode cfgModel m)
          = Returned st
          /\ exists stats,
               SessionManager.getTokenUsage
                 (SessionManager.init now cfgMode cfgModel m)
               = Returned stats
               /\ stats_input stats = totalInput (tokenUsage st)
               /\ stats_output stats = totalOutput (tokenUsage st)
               /\ stats_sessionInput stats = sessionInput (tokenUsage st)
               /\ stats_sessionOutput stats = sessionOutput (tokenUsage st)).
Proof.
  unfold SessionManager.getState, SessionManager.getTokenUsage.
  rewrite Huninit. repeat split.
  intros now cfgMode cfgModel.
  unfold SessionManager.init, SessionManager.load.
  destruct (SessionManager.file m) as [st|]; simpl;
    (eexists; split; [reflexivity|]; eexists; split; [reflexivity|];
     now repeat split).
Qed.

Lemma uninitialised_reads_witness :
  SessionManager.getState (SessionManager.create None)
  = Thrown (lit "Session not initialized. Call init() first.")
  /\ SessionManager.getTokenUsage (SessionManager.create None)
     = Returned zero_stats.
Proof.
  destruct (uninitialised_reads (SessionManager.create None) eq_refl)
    as (H1 & H2 & _).
  split; assumption.
Defined.

(* ================================================================== *)
(** * The spawner and the text handler *)
(* ================================================================== *)

(** A failed invocation gets an error notice and nothing else. *)
Lemma handleText_resume_error (env : Env) (r : ClaudeResponse) (w : World)
    (e : jsstring) :
  error r = Some e -> e <> [] ->
  MessageHandler.handleText_resume env r w
  = MessageHandler.say (Reply ([9888; 65039] ++ lit " Error: " ++ e)) w.
Proof.
  intros He Hne. unfold MessageHandler.handleText_resume.
  rewrite He. now rewrite (or_else_some e None Hne).
Qed.

(** An answer that carries a token: the session of the world afterwards. *)
Lemma handleText_resume_token (env : Env) (r : ClaudeResponse) (w : World)
    (sid : jsstring) :
  error r = None -> resp_sessionId r = Some sid -> sid <> [] ->
  session (MessageHandler.handleText_resume env r w)
  = SessionManager.touch (env_now env)
      (SessionManager.updateSessionId (env_now env) sid (session w)).
Proof.
  intros He Hs Hne. unfold MessageHandler.handleText_resume.
  rewrite He, Hs. simpl or_else at 1. rewrite (or_else_some sid None Hne).
  destruct (MemorySystem.processMemoryIntents _ _ _) as [clean db].
  reflexivity.
Qed.

(** C1, as stated, fails: two invocations read the token [0000-aaaa]; the
    second one's answer is applied first and commits [bbbb-2222], the first
    one's answer is applied afterwards and replaces it by [aaaa-1111]. *)
Lemma late_result_overwrites_token :
  let w0 := Sample.world0 in
  let '(w1, o1) :=
    MessageHandler.handleText_request Sample.cfg (Sample.env_at "09:00")
      (lit "first") w0 in
  let '(w2, o2) :=
    MessageHandler.handleText_request Sample.cfg (Sample.env_at "09:01")
      (lit "second") w1 in
  match o1, o2 with
  | Returned options1, Returned options2 =>
      let r2 := ClaudeSpawner.spawn options2
                  (Exited (lit "two
Session ID: bbbb-2222") [] 0) in
      let w3 := MessageHandler.handleText_resume (Sample.env_at "09:02") r2 w2 in
      let r1 := ClaudeSpawner.spawn options1
                  (Exited (lit "one
Session ID: aaaa-1111") [] 0) in
      let w4 := MessageHandler.handleText_resume (Sample.env_at "09:03") r1 w3 in
      opt_sessionId options1 = Some (lit "0000-aaaa")
      /\ opt_sessionId options2 = Some (lit "0000-aaaa")
      /\ option_map sessionId (SessionManager.state (session w3))
         = Some (Some (lit "bbbb-2222"))
      /\ option_map sessionId (SessionManager.state (session w4))
         = Some (Some (lit "aaaa-1111"))
      /\ option_map sessionId (SessionManager.state (session w4))
         <> Some (Some (lit "bbbb-2222"))
  | _, _ => False
  end.
Proof. vm_compute. repeat split. discriminate. Qed.

(** C1, amended.  The token update is an unconditional overwrite: when
    the answers of two invocations both carry a token and the first
    invocation's answer is applied after the second's, the session ends with
    the token of the first invocation, whatever token the second had
    committed; the answer applied last wins. *)
Theorem token_update_is_blind_overwrite
    (w : World) (st : SessionState) (env1 env2 : Env)
    (r1 r2 : ClaudeResponse) (t1 t2 : jsstring)
    (Hinit : SessionManager.state (session w) = Some st)
    (Hok1 : error r1 = None) (Hok2 : error r2 = None)
    (Htok1 : resp_sessionId r1 = Some t1) (Hne1 : t1 <> [])
    (Htok2 : resp_sessionId r2 = Some t2) (Hne2 : t2 <> []) :
  let w2 := MessageHandler.handleText_resume env2 r2 w in
  let w1 := MessageHandler.handleText_resume env1 r1 w2 in
  option_map sessionId (SessionManager.state (session w2)) = Some (Some t2)
  /\ option_map sessionId (SessionManager.state (session w1)) = Some (Some t1).
Proof.
  intros w2 w1. subst w1 w2.
  rewrite (handleText_resume_token env1 r1 _ t1 Hok1 Htok1 Hne1).
  rewrite (handleText_resume_token env2 r2 _ t2 Hok2 Htok2 Hne2).
  destruct (updateSessionId_state (env_now env2) t2 _ _ Hinit)
    as (sa & Ha & Hida & _).
  destruct (touch_state (env_now env2) _ _ Ha)
    as (sb & Hb & Hidb & _).
  destruct (updateSessionId_state (env_now env1) t1 _ _ Hb)
    as (sc & Hc & Hidc & _).
  destruct (touch_state (env_now env1) _ _ Hc)
    as (sd & Hd & Hidd & _).
  rewrite Hb, Hd. simpl. split; congruence.
Qed.

Lemma token_update_is_blind_overwrite_witness :
  let r1 := ClaudeSpawner.spawn Sample.options0
              (Exited (lit "one
Session ID: aaaa-1111") [] 0) in
  let r2 := ClaudeSpawner.spawn Sample.options0
              (Exited (lit "two
Session ID: bbbb-2222") [] 0) in
  option_map sessionId
    (SessionManager.state
       (session (MessageHandler.handleText_resume (Sample.env_at "09:03") r1
                   (MessageHandler.handleText_resume (Sample.env_at "09:02") r2
                      Sample.world0))))
  = Some (Some (lit "aaaa-1111")).
Proof.
  intros r1 r2.
  refine (proj2 (token_update_is_blind_overwrite Sample.world0 Sample.state0
            (Sample.env_at "09:03") (Sample.env_at "09:02") r1 r2
            (lit "aaaa-1111") (lit "bbbb-2222") eq_refl eq_refl eq_refl
            _ _ _ _)).
  - vm_compute. reflexivity.
  - discriminate.
  - vm_compute. reflexivity.
  - discriminate.
Defined.

(** The world after the part of [handleText] that precedes the call of
    [spawn]: the session manager is only read. *)
Lemma handleText_request_session (cfg : Config) (env : Env) (text : jsstring)
    (w : World) :
  session (fst (MessageHandler.handleText_request cfg env text w)) = session w.
Proof.
  unfold MessageHandler.handleText_request. simpl.
  now destruct (SessionManager.getState (session w)).
Qed.

(** The exit codes of a process, 1 to 255, are rendered as their decimal
    numerals. *)
Lemma number_to_string_decimal (n : Z) :
  (1 <= n <= 255)%Z -> number_to_string n = decimal n.
Proof.
  intros Hn.
  assert (Hall : forallb (fun k => jsstring_eqb (number_to_string k)
                                     (decimal k))
                   (map Z.of_nat (seq 1 255)) = true)
    by (vm_compute; reflexivity).
  rewrite forallb_forall in Hall. apply jsstring_eqb_eq, Hall.
  apply in_map_iff. exists (Z.to_nat n). split; [lia|].
  apply in_seq. lia.
Qed.

(** C3.  When the engine exits with a non-zero code the result has empty
    content, no token, and as error the captured stderr, or "Claude exited
    with code N" when stderr is empty, whatever stdout held; the handler
    then answers with an error notice and leaves the session manager, hence
    the continuation token and the usage counters, and the memory table as
    they were before the call.  With exit code 1 and stderr "rate limited"
    the result is content "" and error "rate limited".  N is the decimal
    numeral of the exit code: with exit code 3 and empty stderr the error
    is "Claude exited with code 3", with exit code 127 it is "Claude exited
    with code 127". *)
Theorem nonzero_exit_is_error_and_state_unchanged
    (options : ClaudeSpawnOptions) (stdout stderr : jsstring) (exitCode : Z)
    (Hcode : exitCode <> 0%Z) :
  let r := ClaudeSpawner.spawn options (Exited stdout stderr exitCode) in
  content r = []
  /\ resp_sessionId r = None
  /\ error r = Some (if truthy stderr then stderr
                     else lit "Claude exited with code "
                          ++ number_to_string exitCode)
  /\ (forall env w,
        session (MessageHandler.handleText_resume env r w) = session w
        /\ store (MessageHandler.handleText_resume env r w) = store w)
  /\ (forall cfg env text w,
        session (MessageHandler.handleText cfg env text
                   (Exited stdout stderr exitCode) w) = session w)
  /\ ClaudeSpawner.spawn options (Exited stdout (lit "rate limited") 1)
     = {| content := []; resp_sessionId := None;
          error := Some (lit "rate limited") |}
  /\ (stderr = [] -> (1 <= exitCode <= 255)%Z ->
      error r = Some (lit "Claude exited with code " ++ decimal exitCode))
  /\ ClaudeSpawner.spawn options (Exited stdout [] 3)
     = {| content := []; resp_sessionId := None;
          error := Some (lit "Claude exited with code 3") |}
  /\ ClaudeSpawner.spawn options (Exited stdout [] 127)
     = {| content := []; resp_sessionId := None;
          error := Some (lit "Claude exited with code 127") |}.
Proof.
  assert (Hr : ClaudeSpawner.spawn options (Exited stdout stderr exitCode)
               = {| content := []; resp_sessionId := None;
                    error := Some (if truthy stderr then stderr
                                   else lit "Claude exited with code "
                                        ++ number_to_string exitCode) |}).
  { unfold ClaudeSpawner.spawn.
    destruct (Z.eqb_spec exitCode 0) as [E|_]; [contradiction|]. simpl.
    now destruct stderr. }
  assert (Hne : (if truthy stderr then stderr
                 else lit "Claude exited with code "
                      ++ number_to_string exitCode) <> []).
  { destruct stderr; simpl; discriminate. }
  assert (Hresume : forall options' env w,
            MessageHandler.handleText_resume env
              (ClaudeSpawner.spawn options' (Exited stdout stderr exitCode)) w
            = MessageHandler.say
                (Reply ([9888; 65039] ++ lit " Error: "
                        ++ (if truthy stderr then stderr
                            else lit "Claude exited with code "
                                 ++ number_to_string exitCode))) w).
  { intros options' env w. apply handleText_resume_error; [|exact Hne].
    unfold ClaudeSpawner.spawn.
    destruct (Z.eqb_spec exitCode 0) as [E|_]; [contradiction|]. simpl.
    now destruct stderr. }
  intros r. subst r.
  split; [now rewrite Hr|]. split; [now rewrite Hr|]. split; [now rewrite Hr|].
  split; [intros env w; now rewrite Hresume|].
  split; [|split; [unfold ClaudeSpawner.spawn; reflexivity|]].
  - intros cfg env text w. unfold MessageHandler.handleText.
    destruct (or_else text None) as [t|]; [|reflexivity].
    pose proof (handleText_request_session cfg env t w) as Hs.
    destruct (MessageHandler.handleText_request cfg env t w) as [w' [o|e]];
      simpl in Hs; [|assumption].
    rewrite Hresume. simpl. assumption.
  - split; [|split; reflexivity].
    intros -> Hrange. rewrite Hr. simpl.
    now rewrite (number_to_string_decimal exitCode Hrange).
Qed.

Lemma nonzero_exit_is_error_and_state_unchanged_witness :
  ClaudeSpawner.spawn Sample.options0
    (Exited (lit "partial output") (lit "rate limited") 1)
  = {| content := []; resp_sessionId := None;
       error := Some (lit "rate limited") |}
  /\ session (MessageHandler.handleText Sample.cfg (Sample.env_at "09:00")
                (Some (lit "hello"))
                (Exited (lit "partial output") (lit "rate limited") 1)
                Sample.world0)
     = session Sample.world0
  /\ error (ClaudeSpawner.spawn Sample.options0
              (Exited (lit "partial output") [] 42))
     = Some (lit "Claude exited with code 42").
Proof.
  destruct (nonzero_exit_is_error_and_state_unchanged Sample.options0
              (lit "partial output") (lit "rate limited") 1%Z
              ltac:(discriminate)) as (_ & _ & _ & _ & H & _).
  split; [reflexivity|]. split; [apply H|].
  destruct (nonzero_exit_is_error_and_state_unchanged Sample.options0
              (lit "partial output") [] 42%Z
              ltac:(discriminate)) as (_ & _ & _ & _ & _ & _ & H42 & _).
  apply H42; [reflexivity|lia].
Defined.

(* ================================================================== *)
(** * The continuation token of a result *)
(* ================================================================== *)

Lemma spawn_success (options : ClaudeSpawnOptions) (stdout stderr : jsstring) :
  ClaudeSpawner.spawn options (Exited stdout stderr 0)
  = {| content := trim stdout;
       resp_sessionId := or_else (ClaudeSpawner.sessionMatch stdout)
                           (opt_sessionId options);
       error := None |}.
Proof. reflexivity. Qed.

Lemma hex_or_dash_token (c : char16) : hex_or_dash c = token_char c.
Proof.
  destruct (token_char c) eqn:E.
  - apply token_char_spec in E. unfold hex_or_dash. cmp_cases; reflexivity.
  - destruct (hex_or_dash c) eqn:H; [|reflexivity].
    rewrite <- E. symmetry. apply token_char_spec.
    unfold hex_or_dash in H. revert H.
    cmp_cases; intros H; try discriminate H; lia.
Qed.

Lemma run_plus_greedy (f : flags) (R : Type) (s : jsstring) (caps : captures)
    (k : jsstring -> captures -> option R) (cs : list cset) :
  run f (Plus true cs) s caps k
  = match s with
    | c :: s' =>
        if class_match f cs c
        then star_greedy (class_match f cs) (fun s'' => k s'' caps) s'
        else None
    | [] => None
    end.
Proof. reflexivity. Qed.

(** At a marker the pattern takes the words, the white space and the
    token to its full length. *)
Lemma sessionRe_match_here (mk ws tok post : jsstring) :
  reads_as (lit "Session ID:") mk -> all is_space ws ->
  tok <> [] -> all hex_or_dash tok ->
  match post with [] => True | c :: _ => hex_or_dash c = false end ->
  match_at flags_i ClaudeSpawner.sessionRe (mk ++ ws ++ tok ++ post)
  = Some (mk ++ ws ++ tok, [(1%nat, tok)], post).
Proof.
  intros Hmk Hws Hne Htok Hpost. apply lit_eq_reads_as in Hmk.
  destruct tok as [|t tok]; [congruence|].
  apply all_cons in Htok. destruct Htok as [Ht Htok].
  rewrite hex_or_dash_token in Ht.
  unfold match_at, ClaudeSpawner.sessionRe.
  rewrite run_seq, run_str, (strip_lit_complete flags_i _ _ _ Hmk).
  rewrite run_seq. eapply run_spaces; [exact Hws| |].
  - simpl. now apply token_char_not_space.
  - rewrite run_group, run_plus_greedy. simpl app. cbv beta iota.
    change (class_match flags_i
              [CRange (ch "a") (ch "f"); CRange (ch "0") (ch "9");
               CChar (ch "-")] t) with (token_char t).
    rewrite Ht. apply star_greedy_longest.
    + eapply all_ext; [|exact Htok]. intros x. apply hex_or_dash_token.
    + destruct post as [|c post]; [exact I|].
      change (token_char c = false). now rewrite <- hex_or_dash_token.
    + cbv beta. change (t :: tok ++ post) with ((t :: tok) ++ post).
      rewrite (consumed_app (t :: tok) post).
      replace (mk ++ ws ++ (t :: tok) ++ post)
        with ((mk ++ ws ++ t :: tok) ++ post)
        by (now rewrite <- !app_assoc).
      now rewrite consumed_app.
Qed.

(** Where no marker begins the pattern does not match. *)
Lemma sessionRe_no_match (s : jsstring) :
  marker_begins s = false -> match_at flags_i ClaudeSpawner.sessionRe s = None.
Proof.
  intros H.
  destruct (match_at flags_i ClaudeSpawner.sessionRe s)
    as [[[m0 caps] rest]|] eqn:E; [|reflexivity].
  apply match_at_sound in E. destruct E as [M _].
  apply sessionRe_rmatch in M.
  destruct M as (mk & ws & tok & -> & Hmk & Hws & Hne & Htok & _).
  unfold marker_begins in H.
  rewrite <- strip_lit_opens_with, (strip_lit_complete flags_i _ _ _ Hmk) in H.
  rewrite (drop_while_app _ _ _ Hws) in H.
  destruct tok as [|t tok]; [congruence|].
  apply all_cons in Htok. destruct Htok as [Ht _].
  simpl in H. rewrite (token_char_not_space _ Ht) in H.
  rewrite hex_or_dash_token in H. congruence.
Qed.

Lemma first_marker_extracted (stdout pre tok post : jsstring) :
  first_marker_at stdout pre tok post ->
  ClaudeSpawner.sessionMatch stdout = Some tok.
Proof.
  intros (mk & ws & -> & Hmk & Hws & Hne & Htok & Hpost & Hfirst).
  unfold ClaudeSpawner.sessionMatch, str_match.
  rewrite (exec_from_first flags_i ClaudeSpawner.sessionRe pre
             (mk ++ ws ++ tok ++ post) (mk ++ ws ++ tok) [(1%nat, tok)] post).
  - reflexivity.
  - intros p1 p2 E Hp2. apply sessionRe_no_match.
    now apply (begins_nowhere_split _ _ _ Hfirst p1 p2).
  - now apply sessionRe_match_here.
Qed.

(** Where a marker begins the pattern matches. *)
Lemma sessionRe_match_begins (s : jsstring) :
  marker_begins s = true -> match_at flags_i ClaudeSpawner.sessionRe s <> None.
Proof.
  unfold marker_begins. rewrite <- strip_lit_opens_with.
  destruct (strip_lit flags_i (lit "Session ID:") s) as [rest|] eqn:E;
    [|discriminate].
  destruct (strip_lit_sound _ _ _ _ E) as (mk & -> & Hmk).
  destruct (drop_while_span is_space rest) as (ws & Hrest & Hws).
  destruct (drop_while is_space rest) as [|c t] eqn:Ed; [discriminate|].
  intros Hc. rewrite hex_or_dash_token in Hc.
  apply (match_at_complete flags_i _ _ t [(1%nat, [c])]).
  apply sessionRe_rmatch. exists mk, ws, [c].
  rewrite Hrest. repeat split; trivial; try discriminate.
  now apply all_cons.
Qed.

(** A stdout that holds a marker has a first marker. *)
Lemma has_first_marker (stdout : jsstring) :
  has_marker stdout -> exists pre tok post, first_marker_at stdout pre tok post.
Proof.
  intros Hm.
  destruct (ClaudeSpawner.sessionMatch stdout) as [tok0|] eqn:E;
    [|now apply sessionMatch_none in E].
  unfold ClaudeSpawner.sessionMatch, str_match in E.
  destruct (exec_from flags_i ClaudeSpawner.sessionRe 0 stdout)
    as [[m rest]|] eqn:Ex; [|discriminate].
  destruct (exec_from_leftmost _ _ _ _ _ _ Ex) as (pre & Hs & Hhere & Hpre).
  apply match_at_sound in Hhere. destruct Hhere as [M _].
  apply sessionRe_rmatch in M.
  destruct M as (mk & ws & tok & Hmr & Hmk & Hws & Hne & Htok & _).
  destruct (longest_run hex_or_dash rest) as (ext & post & -> & Hext & Hpost).
  exists pre, (tok ++ ext), post, mk, ws.
  split; [rewrite Hs, Hmr; now rewrite <- !app_assoc|].
  split; [now apply lit_eq_reads_as|]. split; [exact Hws|].
  split; [destruct tok; [congruence|discriminate]|].
  split.
  { apply all_app. split; [|exact Hext].
    eapply all_ext; [|exact Htok]. intros x. symmetry.
    apply hex_or_dash_token. }
  split; [exact Hpost|].
  apply begins_nowhere_intro. intros p1 p2 Hp Hp2.
  destruct (marker_begins (p2 ++ mk ++ ws ++ (tok ++ ext) ++ post)) eqn:Eb;
    [|reflexivity].
  apply sessionRe_match_begins in Eb. elim Eb.
  rewrite <- (Hpre p1 p2 Hp Hp2). f_equal. rewrite Hmr.
  now rewrite <- !app_assoc.
Qed.

(** C2.  For a request that carries the token [T1] and an engine that
    exits with code 0: when stdout holds no marker "Session ID: <token>"
    the result reports [T1]; when it holds one, the result reports the
    token of a marker of stdout in place of [T1], namely the token of the
    first marker of stdout, taken to its full length (a stdout that holds
    a marker has a first one); in both cases the result has a token, no
    error, and the trimmed stdout as content. *)
Theorem sticky_continuation_token
    (options : ClaudeSpawnOptions) (T1 stdout stderr : jsstring)
    (Hreq : opt_sessionId options = Some T1) :
  let r := ClaudeSpawner.spawn options (Exited stdout stderr 0) in
  error r = None
  /\ content r = trim stdout
  /\ resp_sessionId r <> None
  /\ (~ has_marker stdout -> resp_sessionId r = Some T1)
  /\ (has_marker stdout ->
      exists pre tok post,
        marker_at stdout pre tok post /\ resp_sessionId r = Some tok)
  /\ (forall pre tok post,
        first_marker_at stdout pre tok post -> resp_sessionId r = Some tok)
  /\ (has_marker stdout ->
      exists pre tok post, first_marker_at stdout pre tok post).
Proof.
  intros r. subst r. rewrite spawn_success. simpl. rewrite Hreq.
  split; [reflexivity|]. split; [reflexivity|].
  destruct (ClaudeSpawner.sessionMatch stdout) as [tok|] eqn:E.
  - destruct (sessionMatch_some _ _ E) as (pre & post & Hm).
    assert (Hne : tok <> []) by (destruct Hm as (mk & ws & _ & _ & _ & H & _);
                                 exact H).
    rewrite (or_else_some tok (Some T1) Hne).
    split; [discriminate|]. split; [|split; [|split]].
    + intros Hn. elim Hn. now exists pre, tok, post.
    + intros _. now exists pre, tok, post.
    + intros pre' tok' post' Hf. apply first_marker_extracted in Hf.
      congruence.
    + apply has_first_marker.
  - simpl. split; [discriminate|]. split; [reflexivity|].
    split; [intros Hm; now apply sessionMatch_none in E|].
    split; [|apply has_first_marker].
    intros pre' tok' post' Hf. apply first_marker_extracted in Hf.
    congruence.
Qed.

Lemma sticky_continuation_token_witness :
  resp_sessionId
    (ClaudeSpawner.spawn Sample.options0 (Exited (lit "All good.") [] 0))
  = Some (lit "0000-aaaa")
  /\ resp_sessionId
       (ClaudeSpawner.spawn Sample.options0
          (Exited (lit "Done.
Session ID: 12ab-34cd
Session ID: ffff") [] 0))
     = Some (lit "12ab-34cd").
Proof.
  split.
  - refine (proj1 (proj2 (proj2 (proj2
      (sticky_continuation_token Sample.options0 (lit "0000-aaaa")
         (lit "All good.") [] eq_refl)))) _).
    apply sessionMatch_none. vm_compute. reflexivity.
  - refine (proj1 (proj2 (proj2 (proj2 (proj2 (proj2
      (sticky_continuation_token Sample.options0 (lit "0000-aaaa")
         (lit "Done.
Session ID: 12ab-34cd
Session ID: ffff") [] eq_refl))))))
      (lit "Done.
") (lit "12ab-34cd") (lit "
Session ID: ffff") _).
    exists (lit "Session ID:"), (lit " ").
    split; [reflexivity|]. split; [repeat constructor|].
    repeat split; try reflexivity. discriminate.
Defined.

Lemma marker_tokens_foreign_unfold (stdout : jsstring) :
  marker_tokens_foreign stdout
  = match strip_lit flags_i (lit "Session ID:") stdout with
    | Some post => foreign_token post
    | None => true
    end
    && match stdout with
       | [] => true
       | _ :: stdout' => marker_tokens_foreign stdout'
       end.
Proof. now destruct stdout. Qed.

Lemma foreign_token_marker (ws tok post : jsstring) :
  all is_space ws -> tok <> [] -> all token_char tok ->
  foreign_token (ws ++ tok ++ post) = false.
Proof.
  intros Hws Hne Htok. unfold foreign_token.
  rewrite (drop_while_app _ _ _ Hws).
  destruct tok as [|t tok]; [congruence|].
  apply all_cons in Htok. destruct Htok as [Ht _].
  simpl. now rewrite (token_char_not_space _ Ht), Ht.
Qed.

Lemma marker_tokens_foreign_no_marker (stdout : jsstring) :
  marker_tokens_foreign stdout = true -> ~ has_marker stdout.
Proof.
  intros H (pre & tok & post & mk & ws & -> & Hmk & Hws & Hne & Htok).
  induction pre as [|c pre IH].
  - rewrite marker_tokens_foreign_unfold in H. simpl app in H.
    rewrite (strip_lit_complete flags_i _ _ _ Hmk) in H.
    rewrite (foreign_token_marker _ _ _ Hws Hne Htok) in H. discriminate.
  - apply IH. rewrite marker_tokens_foreign_unfold in H.
    apply andb_prop in H. destruct H as [_ H]. exact H.
Qed.



(* ================================================================== *)
(** * The decision of the smart check-in *)
(* ================================================================== *)

Lemma decide_unfold (text : jsstring) :
  CronScheduler.decide text
  = match CronScheduler.message text with
    | Some msg =>
        if CronScheduler.shouldCheckin text && truthy msg
           && negb (jsstring_eqb msg (lit "none"))
        then Some msg else None
    | None => None
    end.
Proof. reflexivity. Qed.




(* ================================================================== *)
(** * The enriched prompt *)
(* ================================================================== *)

Lemma push_section_present (h : jsstring) (d : option jsstring)
    (parts : list jsstring) :
  ClaudeSpawner.push_section h d parts
  = parts ++ (if present (h, d) then section_parts (h, d) else []).
Proof.
  unfold ClaudeSpawner.push_section, present, section_parts. simpl.
  destruct d as [d|]; simpl; [|now rewrite app_nil_r].
  destruct (truthy d); [reflexivity|now rewrite app_nil_r].
Qed.

Lemma push_sections (secs : list (jsstring * option jsstring)) :
  forall parts,
    fold_left (fun ps sec => ClaudeSpawner.push_section (fst sec) (snd sec) ps)
      secs parts
    = parts ++ flat_map section_parts (filter present secs).
Proof.
  induction secs as [|[h d] secs IH]; intros parts; simpl.
  - now rewrite app_nil_r.
  - rewrite IH, push_section_present.
    destruct (present (h, d)); simpl.
    + now rewrite <- app_assoc.
    + now rewrite app_nil_r.
Qed.

Lemma enrichedParts_ordered (cfg : Config) (timeStr userMessage : jsstring)
    (files : ClaudeSpawner.WorkspaceFiles)
    (memoryContext relevantMessages : option jsstring) :
  ClaudeSpawner.enrichedParts cfg timeStr userMessage files memoryContext
    relevantMessages
  = ordered_parts cfg timeStr userMessage
      (sections files memoryContext relevantMessages).
Proof.
  unfold ordered_parts, identity_part, ClaudeSpawner.enrichedParts.
  set (base := if truthy (user_name cfg) then _ else _).
  change ((fold_left
             (fun ps sec => ClaudeSpawner.push_section (fst sec) (snd sec) ps)
             (sections files memoryContext relevantMessages)
             (base ++ [lit "Current time: " ++ timeStr])
           ++ ClaudeSpawner.instructions)
          ++ [ClaudeSpawner.hdr_user ++ userMessage]
          = ClaudeSpawner.preamble
            ++ (if truthy (user_name cfg)
                then [lit "
You are assisting " ++ user_name cfg ++ lit "."]
                else [])
            ++ [lit "Current time: " ++ timeStr]
            ++ flat_map section_parts
                 (filter present (sections files memoryContext relevantMessages))
            ++ ClaudeSpawner.instructions
            ++ [ClaudeSpawner.hdr_user ++ userMessage]).
  rewrite push_sections. subst base.
  destruct (truthy (user_name cfg)); simpl app; now rewrite <- !app_assoc.
Qed.

Lemma is_title_facts (t : jsstring) :
  is_title t = true ->
  ~ In 10 t /\ t <> []
  /\ (exists pat, t = 35 :: pat)
  /\ (exists pat z, t = pat ++ [z] /\ z <> 46).
Proof.
  unfold is_title. destruct t as [|c t]; [discriminate|].
  intros H. apply andb_prop in H. destruct H as [H Hlast].
  apply andb_prop in H. destruct H as [Hc Hnl].
  apply N.eqb_eq in Hc. subst c.
  apply negb_true_iff in Hnl, Hlast. apply N.eqb_neq in Hlast.
  repeat split.
  - intros Hin.
    assert (E : existsb (N.eqb 10) (35 :: t) = true).
    { apply existsb_exists. exists 10. split; [exact Hin|apply N.eqb_refl]. }
    pose proof (eq_trans (eq_sym E) Hnl) as X. discriminate X.
  - discriminate.
  - now exists t.
  - destruct (@exists_last _ (35 :: t)) as (pat & z & E); [discriminate|].
    exists pat, z. split; [exact E|].
    rewrite <- (last_last pat z 0). rewrite <- E. exact Hlast.
Qed.

(** A title that occurs in none of the emitted texts and in none of the
    texts of the caller does not occur in the prompt. *)
Lemma title_absent (t : jsstring) (cfg : Config)
    (timeStr userMessage : jsstring)
    (secs : list (jsstring * option jsstring)) :
  is_title t = true ->
  (forall p, In p fixed_lines -> contains t p = false) ->
  (forall sec, In sec secs -> present sec = true -> contains t (fst sec) = false) ->
  (forall x, In x (user_name cfg :: timeStr :: userMessage
                   :: map (fun sec => text_of (snd sec)) secs) ->
             contains t x = false) ->
  contains t (join (lit "
") (ordered_parts cfg timeStr userMessage secs)) = false.
Proof.
  intros Ht Hfixed Hhdr Htexts.
  destruct (is_title_facts t Ht) as (Hnl & Hne & (pat & Hfront) & (pat' & z & Hback & Hz)).
  apply contains_not_occurs. intros Hocc.
  apply (occurs_join t _ Hnl Hne) in Hocc. destruct Hocc as (p & Hin & Hp).
  assert (Hno : forall x, contains t x = false -> ~ occurs t x)
    by (intros x; apply contains_not_occurs).
  assert (Hempty : ~ occurs t []).
  { intros (pre & post & H). destruct pre; [|discriminate].
    destruct t; [congruence|discriminate]. }
  unfold ordered_parts in Hin.
  apply in_app_or in Hin. destruct Hin as [Hin|Hin].
  { apply (Hno p); [|exact Hp]. apply Hfixed. unfold fixed_lines.
    apply in_or_app. now left. }
  apply in_app_or in Hin. destruct Hin as [Hin|Hin].
  { unfold identity_part in Hin.
    destruct (truthy (user_name cfg)); [|contradiction].
    destruct Hin as [<-|[]].
    change (lit "
You are assisting " ++ user_name cfg ++ lit ".")
      with ([] ++ 10 :: lit "You are assisting " ++ user_name cfg ++ lit ".")
      in Hp.
    apply (occurs_lines t _ _ Hnl) in Hp. destruct Hp as [Hp|Hp]; [auto|].
    apply (occurs_skip_front t 35 pat _ _ Hfront) in Hp.
    - apply (occurs_skip_back t z pat' _ _ Hback) in Hp.
      + apply (Hno (user_name cfg)); [|exact Hp]. apply Htexts. now left.
      + intros [E|[]]. apply Hz. now symmetry.
    - vm_compute. intuition discriminate. }
  apply in_app_or in Hin. destruct Hin as [Hin|Hin].
  { destruct Hin as [<-|[]].
    apply (occurs_skip_front t 35 pat _ _ Hfront) in Hp.
    - apply (Hno timeStr); [|exact Hp]. apply Htexts. right. now left.
    - vm_compute. intuition discriminate. }
  apply in_app_or in Hin. destruct Hin as [Hin|Hin].
  { apply in_flat_map in Hin. destruct Hin as (sec & Hsec & Hin).
    apply filter_In in Hsec. destruct Hsec as [Hsec Hpres].
    destruct Hin as [<-|[<-|[]]].
    - apply (Hno (fst sec)); [|exact Hp]. now apply Hhdr.
    - apply (Hno (text_of (snd sec))); [|exact Hp]. apply Htexts.
      right. right. right. apply in_map_iff. now exists sec. }
  apply in_app_or in Hin. destruct Hin as [Hin|Hin].
  { apply (Hno p); [|exact Hp]. apply Hfixed. unfold fixed_lines.
    apply in_or_app. right. apply in_or_app. now left. }
  destruct Hin as [<-|[]].
  change (ClaudeSpawner.hdr_user ++ userMessage)
    with ([] ++ 10 :: lit "## USER MESSAGE" ++ 10 :: userMessage) in Hp.
  apply (occurs_lines t _ _ Hnl) in Hp. destruct Hp as [Hp|Hp]; [auto|].
  apply (occurs_lines t _ _ Hnl) in Hp. destruct Hp as [Hp|Hp].
  - apply (Hno (lit "## USER MESSAGE")); [|exact Hp]. apply Hfixed.
    unfold fixed_lines. apply in_or_app. right. apply in_or_app. right.
    now left.
  - apply (Hno userMessage); [|exact Hp]. apply Htexts. right. right. now left.
Qed.

(** C9.  The prompt is the join, by line feeds, of its parts in the fixed
    order: the system preamble, the line naming the user, the current time,
    then the persona, workspace-guide, environment-notes, curated-memory,
    facts-and-goals and relevant-history sections, the memory-management
    instructions and the user message, where a section whose document is
    empty or missing contributes nothing.  So the title of such a section
    occurs nowhere in the prompt, unless one of the texts the caller passed
    in holds it; and when all six documents are empty the prompt has no
    optional section at all. *)
Theorem empty_sections_omitted_in_fixed_order
    (cfg : Config) (timeStr userMessage : jsstring)
    (files : ClaudeSpawner.WorkspaceFiles)
    (memoryContext relevantMessages : option jsstring) :
  let secs := sections files memoryContext relevantMessages in
  let prompt :=
    ClaudeSpawner.buildEnrichedPrompt cfg timeStr userMessage files
      memoryContext relevantMessages in
  prompt = join (lit "
") (ordered_parts cfg timeStr userMessage secs)
  /\ (forall h d,
        In (h, d) secs -> present (h, d) = false ->
        (forall x, In x (user_name cfg :: timeStr :: userMessage
                         :: map (fun sec => text_of (snd sec)) secs) ->
                   contains (trim h) x = false) ->
        contains (trim h) prompt = false)
  /\ ((forall sec, In sec secs -> present sec = false) ->
      prompt = join (lit "
") (ClaudeSpawner.preamble ++ identity_part cfg
          ++ [lit "Current time: " ++ timeStr]
          ++ ClaudeSpawner.instructions
          ++ [ClaudeSpawner.hdr_user ++ userMessage])).
Proof.
  intros secs prompt.
  assert (Hprompt : prompt = join (lit "
") (ordered_parts cfg timeStr userMessage secs)).
  { unfold prompt, ClaudeSpawner.buildEnrichedPrompt.
    now rewrite enrichedParts_ordered. }
  split; [exact Hprompt|]. split.
  - intros h d Hin Hpres Htexts. rewrite Hprompt.
    unfold secs, sections in Hin. simpl in Hin.
    destruct Hin as [E|[E|[E|[E|[E|[E|[]]]]]]]; inversion E; subst h d;
      clear E;
      (apply title_absent;
       [ vm_compute; reflexivity
       | intros p Hp; unfold fixed_lines in Hp; simpl in Hp;
         repeat (destruct Hp as [<-|Hp]; [vm_compute; reflexivity|]);
         contradiction
       | intros sec Hsec Hp; unfold secs, sections in Hsec; simpl in Hsec;
         destruct Hsec as [<-|[<-|[<-|[<-|[<-|[<-|[]]]]]]];
         try (vm_compute; reflexivity); congruence
       | exact Htexts ]).
  - intros Hnone. rewrite Hprompt. unfold ordered_parts.
    assert (E : filter present secs = []).
    { clear - Hnone. induction secs as [|sec l IH]; simpl; [reflexivity|].
      rewrite (Hnone sec (or_introl eq_refl)). apply IH.
      intros s Hs. apply Hnone. now right. }
    now rewrite E.
Qed.

Lemma empty_sections_omitted_in_fixed_order_witness :
  let files :=
    {| ClaudeSpawner.agents := Some (lit "Be kind.");
       ClaudeSpawner.tools := None;
       ClaudeSpawner.soul := Some [];
       ClaudeSpawner.memory := Some (lit "Ann likes tea.") |} in
  let prompt :=
    ClaudeSpawner.buildEnrichedPrompt Sample.cfg (lit "Monday, 9:00 AM")
      (lit "hello") files (Some []) None in
  contains (lit "## WHO YOU ARE") prompt = false
  /\ contains (lit "## LOCAL ENVIRONMENT") prompt = false
  /\ contains (lit "## WORKSPACE GUIDE") prompt = true.
Proof.
  intros files prompt.
  destruct (empty_sections_omitted_in_fixed_order Sample.cfg
              (lit "Monday, 9:00 AM") (lit "hello") files (Some []) None)
    as (_ & H & _).
  split; [|split].
  - apply (H ClaudeSpawner.hdr_soul (Some [])).
    + simpl. now left.
    + reflexivity.
    + intros x Hx. simpl in Hx.
      repeat (destruct Hx as [<-|Hx]; [vm_compute; reflexivity|]).
      contradiction.
  - apply (H ClaudeSpawner.hdr_tools None).
    + simpl. auto.
    + reflexivity.
    + intros x Hx. simpl in Hx.
      repeat (destruct Hx as [<-|Hx]; [vm_compute; reflexivity|]).
      contradiction.
  - vm_compute. reflexivity.
Defined.

(* ================================================================== *)
(** * Completing a goal *)
(* ================================================================== *)

Section LikeFacts.
Variable lower : N -> N.

Lemma like_percent (p t : list N) (c : N) :
  Sql.is_percent c = true ->
  Sql.like lower (c :: p) t
  = Sql.like lower p t || match t with
                          | _ :: t' => Sql.like lower (c :: p) t'
                          | [] => false
                          end.
Proof. intros H. destruct t; simpl; now rewrite H. Qed.

(** A pattern that begins with a percent sign matches the texts of which
    some tail matches the rest of the pattern. *)
Lemma like_percent_tail (p t : list N) (c : N) :
  Sql.is_percent c = true ->
  Sql.like lower (c :: p) t = true
  <-> exists pre t', t = pre ++ t' /\ Sql.like lower p t' = true.
Proof.
  intros Hc. induction t as [|x t IH]; rewrite (like_percent p _ c Hc).
  - rewrite orb_false_r. split.
    + intros H. now exists [], [].
    + intros (pre & t' & E & H). symmetry in E.
      apply app_eq_nil in E. destruct E as [_ ->]. exact H.
  - rewrite orb_true_iff, IH. split.
    + intros [H|(pre & t' & -> & H)].
      * now exists [], (x :: t).
      * now exists (x :: pre), t'.
    + intros (pre & t' & E & H). destruct pre as [|y pre]; simpl in E.
      * left. now subst t'.
      * right. inversion E; subst. now exists pre, t'.
Qed.

Lemma like_plain (c : N) (p t : list N) :
  plain_char c = true ->
  Sql.like lower (c :: p) t
  = match t with
    | x :: t' => (lower c =? lower x) && Sql.like lower p t'
    | [] => false
    end.
Proof.
  unfold plain_char. intros H. apply negb_true_iff in H.
  assert (Hp : Sql.is_percent c = false).
  { unfold Sql.is_percent. destruct (c =? 37), (c =? 42); trivial;
      discriminate. }
  assert (Hu : Sql.is_underscore c = false).
  { unfold Sql.is_underscore. destruct (c =? 37), (c =? 42), (c =? 95);
      trivial; discriminate. }
  assert (He : Sql.is_escape c = false).
  { unfold Sql.is_escape.
    destruct (c =? 37), (c =? 42), (c =? 95), (c =? 92); trivial;
      discriminate. }
  destruct t; simpl; now rewrite Hp, Hu, He.
Qed.

(** A run of plain characters in front of a pattern matches the same run,
    up to the small letters, in front of a text. *)
Lemma like_plain_prefix (text p : list N) :
  forallb plain_char text = true ->
  forall t,
    Sql.like lower (text ++ p) t = true
    <-> exists m t',
          t = m ++ t'
          /\ Forall2 (fun a c => lower a = lower c) text m
          /\ Sql.like lower p t' = true.
Proof.
  induction text as [|c text IH]; intros Hplain t.
  - simpl. split.
    + intros H. exists [], t. repeat split; [constructor|exact H].
    + intros (m & t' & -> & Hm & H). inversion Hm; subst. exact H.
  - simpl in Hplain. apply andb_prop in Hplain. destruct Hplain as [Hc Hplain].
    simpl app. rewrite (like_plain c _ t Hc). destruct t as [|x t].
    + split; [discriminate|]. intros (m & t' & E & Hm & _).
      inversion Hm; subst. discriminate.
    + rewrite andb_true_iff, (IH Hplain t), N.eqb_eq. split.
      * intros (Hx & m & t' & -> & Hm & H).
        exists (x :: m), t'. repeat split; [now constructor|exact H].
      * intros (m & t' & E & Hm & H). inversion Hm; subst.
        inversion E; subst. split; [assumption|]. eauto.
Qed.

(** Between two percent signs, a run of plain characters matches the
    texts that hold it, up to the small letters. *)
Lemma like_contains (text content : list N) :
  forallb plain_char text = true ->
  Sql.like lower (37 :: text ++ [37]) content = true
  <-> exists pre m post,
        content = pre ++ m ++ post
        /\ Forall2 (fun a c => lower a = lower c) text m.
Proof.
  intros Hplain.
  rewrite (like_percent_tail (text ++ [37]) content 37 eq_refl).
  split.
  - intros (pre & t' & -> & H).
    apply (like_plain_prefix text _ Hplain) in H.
    destruct H as (m & post & -> & Hm & _). now exists pre, m, post.
  - intros (pre & m & post & -> & Hm). exists pre, (m ++ post).
    split; [reflexivity|]. apply (like_plain_prefix text _ Hplain).
    exists m, post. repeat split; [exact Hm|].
    apply (like_percent_tail [] post 37 eq_refl).
    exists post, []. now rewrite app_nil_r.
Qed.

End LikeFacts.

Lemma code_points_unfold (s : jsstring) :
  code_points s
  = match s with
    | [] => []
    | c :: s' =>
        if is_high_surrogate c then
          match s' with
          | d :: s'' =>
              if is_low_surrogate d
              then (65536 + (c - 55296) * 1024 + (d - 56320))
                   :: code_points s''
              else 65533 :: code_points s'
          | [] => [65533]
          end
        else if is_low_surrogate c then 65533 :: code_points s'
        else c :: code_points s'
    end.
Proof. now destruct s. Qed.

(** A character that is not half a pair stands for itself at the end of
    a string. *)
Lemma code_points_snoc (c : char16) :
  is_high_surrogate c = false -> is_low_surrogate c = false ->
  forall s, code_points (s ++ [c]) = code_points s ++ [c].
Proof.
  intros Hh Hl.
  assert (H : forall n s, (length s <= n)%nat ->
                          code_points (s ++ [c]) = code_points s ++ [c]).
  { induction n as [|n IH]; intros s Hn.
    - destruct s; [|simpl in Hn; lia]. simpl. now rewrite Hh, Hl.
    - destruct s as [|x s]; [simpl; now rewrite Hh, Hl|].
      change ((x :: s) ++ [c]) with (x :: (s ++ [c])).
      rewrite (code_points_unfold (x :: (s ++ [c]))),
        (code_points_unfold (x :: s)).
      simpl in Hn.
      destruct (is_high_surrogate x).
      + destruct s as [|d s].
        * change ([] ++ [c]) with [c]. cbv iota. rewrite Hl. simpl.
          now rewrite Hh, Hl.
        * change ((d :: s) ++ [c]) with (d :: (s ++ [c])). cbv iota.
          destruct (is_low_surrogate d).
          -- simpl in Hn. rewrite (IH s) by lia. reflexivity.
          -- change (d :: s ++ [c]) with ((d :: s) ++ [c]).
             rewrite (IH (d :: s)) by lia. reflexivity.
      + destruct (is_low_surrogate x); rewrite (IH s) by lia; reflexivity. }
  intros s. now apply (H (length s)).
Qed.

Lemma code_points_percent (text : jsstring) :
  code_points (lit "%" ++ text ++ lit "%") = 37 :: code_points text ++ [37].
Proof.
  change (lit "%" ++ text ++ lit "%") with (37 :: (text ++ [37])).
  rewrite code_points_unfold.
  change (is_high_surrogate 37) with false.
  change (is_low_surrogate 37) with false. cbv iota.
  now rewrite code_points_snoc.
Qed.

(** For a search text without pattern characters, the rows selected are
    those whose content holds the text, up to the case of letters. *)
Lemma ilike_contains (srv : Server) (text content : jsstring) :
  plain_text text = true ->
  Sql.ilike srv (lit "%" ++ text ++ lit "%") content = true
  <-> holds_text srv text content.
Proof.
  intros Hplain. unfold Sql.ilike, holds_text, same_text.
  rewrite code_points_percent. now apply like_contains.
Qed.

Lemma completeGoal_unfold (now text : jsstring) (db : Store) :
  memory (MemorySystem.completeGoal now text db)
  = match filter (done_hit (server db) text) (memory db) with
    | r :: _ => map (fun x => if id x =? id r then Sql.complete_row now x else x)
                    (memory db)
    | [] => memory db
    end
  /\ messages (MemorySystem.completeGoal now text db) = messages db
  /\ server (MemorySystem.completeGoal now text db) = server db.
Proof.
  unfold MemorySystem.completeGoal, Sql.select_goal_ids.
  change (fun r => MemoryType_eqb (type r) goal
                   && Sql.ilike (server db) (lit "%" ++ text ++ lit "%")
                        (mem_content r))
    with (done_hit (server db) text).
  destruct (filter (done_hit (server db) text) (memory db)) as [|r l]; simpl;
    now repeat split.
Qed.

Lemma filter_none (A : Type) (p : A -> bool) (l : list A) :
  (forall x, In x l -> p x = false) -> filter p l = [].
Proof.
  induction l as [|a l IH]; intros H; simpl; [reflexivity|].
  rewrite (H a (or_introl eq_refl)). apply IH. intros x Hx. apply H. now right.
Qed.

Lemma map_update_other (now : jsstring) (key : N) (l : list MemoryRow) :
  ~ In key (map id l) ->
  map (fun x => if id x =? key then Sql.complete_row now x else x) l = l.
Proof.
  induction l as [|a l IH]; intros H; simpl; [reflexivity|].
  destruct (N.eqb_spec (id a) key) as [E|_].
  - elim H. left. exact E.
  - rewrite IH; [reflexivity|]. intros Hin. apply H. now right.
Qed.

(** C8, as stated, fails.  With the goals "Call mom" and, stored after it,
    "Call mom again" both open, [DONE: call mom] completes the older one and
    leaves the most recent one open; and [DONE: m_m] completes "Call mom"
    although that content does not hold the text "m_m". *)
Lemma older_goal_is_completed :
  map (fun r => (mem_content r, created_at r, type r))
      (memory Sample.two_goals)
  = [(lit "Call mom", 0, goal); (lit "Call mom again", 1, goal)]
  /\ map (fun r => (mem_content r, created_at r, type r))
         (memory (MemorySystem.completeGoal (lit "now") (lit "call mom")
                    Sample.two_goals))
     = [(lit "Call mom", 0, completed_goal); (lit "Call mom again", 1, goal)]
  /\ map type
         (memory (MemorySystem.completeGoal (lit "now") (lit "m_m")
                    (MemorySystem.saveGoal (lit "Call mom") None
                       Sample.store0)))
     = [completed_goal]
  /\ contains (lit "m_m") (lit "call mom") = false.
Proof. vm_compute. repeat split. Qed.

(** C8, amended.  [DONE: <search text>] asks the store for the open goals
    (type goal) whose content is like the search text and takes the first
    row the store returns; the query names no order, so this need not be
    the most recent goal.  That row is completed in place (same id, same
    content, type completed_goal, completion time set) and every other row
    and the number of rows stay as they were; when no open goal matches,
    the memory table is unchanged.  For a search text without the pattern
    characters percent, star, underscore and backslash, a content is like
    it exactly when it holds the text up to the case of letters, character
    by character (a surrogate pair being one character), the case of a
    letter being what the collation of the server makes of it: on a server
    that knows the letters of Latin-1, "appeler e'milie" written with a
    small e acute finds "Appeler E'MILIE" written with a capital one, and
    the pattern a_b finds an a and a b with one emoji between them. *)
Theorem completeGoal_first_returned (now text : jsstring) (db : Store) :
  ((forall r, In r (memory db) -> done_hit (server db) text r = false) ->
   memory (MemorySystem.completeGoal now text db) = memory db
   /\ messages (MemorySystem.completeGoal now text db) = messages db)
  /\ (forall before r after,
        memory db = before ++ r :: after ->
        NoDup (map id (memory db)) ->
        (forall x, In x before -> done_hit (server db) text x = false) ->
        done_hit (server db) text r = true ->
        memory (MemorySystem.completeGoal now text db)
        = before
          ++ {| id := id r; created_at := created_at r;
                type := completed_goal; mem_content := mem_content r;
                deadline := deadline r; completed_at := Some now |}
          :: after
        /\ type r = goal
        /\ length (memory (MemorySystem.completeGoal now text db))
           = length (memory db))
  /\ (plain_text text = true ->
      forall r,
        done_hit (server db) text r = true
        <-> type r = goal
            /\ exists pre m post,
                 code_points (mem_content r) = pre ++ m ++ post
                 /\ Forall2 (fun a c => lower_char (server db) a
                                        = lower_char (server db) c)
                            (code_points text) m)
  /\ (let row content :=
        {| id := 7; created_at := 7; type := goal; mem_content := content;
           deadline := None; completed_at := None |} in
      done_hit Sample.server0 (lit "appeler " ++ [233] ++ lit "milie")
        (row (lit "Appeler " ++ [201] ++ lit "MILIE")) = true
      /\ done_hit Sample.server0 (lit "a_b")
           (row (lit "a" ++ [55357; 56832] ++ lit "b")) = true
      /\ done_hit Sample.server0 (lit "a__b")
           (row (lit "a" ++ [55357; 56832] ++ lit "b")) = false
      /\ done_hit Sample.server0 (lit "mom") (row (lit "Call Mom")) = true
      /\ done_hit Sample.server0 (lit "mum") (row (lit "Call Mom")) = false).
Proof.
  destruct (completeGoal_unfold now text db) as (Hmem & Hmsg & _).
  split; [|split; [|split; [|vm_compute; now repeat split]]].
  - intros Hnone. split; [|exact Hmsg].
    rewrite Hmem. now rewrite (filter_none _ _ _ Hnone).
  - intros before r after Hdb Hnodup Hbefore Hr.
    assert (Hgoal : type r = goal).
    { unfold done_hit in Hr. apply andb_prop in Hr. destruct Hr as [Hr _].
      now destruct (type r). }
    assert (E : memory (MemorySystem.completeGoal now text db)
                = before ++ Sql.complete_row now r :: after).
    { rewrite Hmem, Hdb, filter_app. simpl.
      rewrite (filter_none _ _ _ Hbefore), Hr. simpl.
      rewrite Hdb, map_app in Hnodup. simpl in Hnodup.
      apply NoDup_remove_2 in Hnodup.
      rewrite map_app. simpl. rewrite N.eqb_refl.
      rewrite !map_update_other; [reflexivity| |].
      - intros Hin. apply Hnodup. apply in_or_app. now right.
      - intros Hin. apply Hnodup. apply in_or_app. now left. }
    split; [exact E|]. split; [exact Hgoal|].
    rewrite E, Hdb, !length_app. reflexivity.
  - intros Hplain r. unfold done_hit. rewrite andb_true_iff.
    rewrite (ilike_contains (server db) text _ Hplain).
    unfold holds_text, same_text.
    split; intros [Ht H]; (split; [|exact H]).
    + now destruct (type r).
    + now rewrite Ht.
Qed.

Lemma completeGoal_first_returned_witness :
  map (fun r => (id r, type r, completed_at r))
      (memory (MemorySystem.completeGoal (lit "now") (lit "CALL MOM")
                 Sample.two_goals))
  = [(0, completed_goal, Some (lit "now")); (1, goal, None)]
  /\ done_hit Sample.server0 (lit "appeler " ++ [233] ++ lit "milie")
       {| id := 7; created_at := 7; type := goal;
          mem_content := lit "Appeler " ++ [201] ++ lit "MILIE";
          deadline := None; completed_at := None |} = true.
Proof.
  split.
  - destruct (completeGoal_first_returned (lit "now") (lit "CALL MOM")
                Sample.two_goals) as (_ & H & _).
    destruct (H [] {| id := 0; created_at := 0; type := goal;
                      mem_content := lit "Call mom"; deadline := None;
                      completed_at := None |}
                [{| id := 1; created_at := 1; type := goal;
                    mem_content := lit "Call mom again"; deadline := None;
                    completed_at := None |}]) as (E & _).
    + reflexivity.
    + repeat constructor; simpl; intuition discriminate.
    + intros x [].
    + reflexivity.
    + rewrite E. reflexivity.
  - destruct (completeGoal_first_returned (lit "now")
                (lit "appeler " ++ [233] ++ lit "milie")
                Sample.store0) as (_ & _ & H & _).
    apply (H eq_refl). split; [reflexivity|].
    exists [], (code_points (lit "Appeler " ++ [201] ++ lit "MILIE")), [].
    split; [reflexivity|]. repeat constructor.
Defined.

(* ================================================================== *)
(** * Memory intents *)
(* ================================================================== *)


Lemma processMemoryIntents_three_tags (now X Y Z pre post : jsstring)
    (db : Store) :
  tag_text X = true -> tag_text Y = true -> tag_text Z = true ->
  no_open pre -> no_open post ->
  MemorySystem.processMemoryIntents now (three_tags X Y Z pre post) db
  = (trim (pre ++ post), after_tags now X Y Z db).
Proof.
  intros HX HY HZ Hpre Hpost.
  destruct (remember_matches X Y Z pre post HX HY HZ Hpre Hpost) as (i1 & E1).
  destruct (goal_matches X Y Z pre post HX HY HZ Hpre Hpost) as (i2 & E2).
  destruct (done_matches X Y Z pre post HX HY HZ Hpre Hpost) as (i3 & E3).
  unfold MemorySystem.processMemoryIntents. rewrite E1, E2, E3.
  unfold MemorySystem.for_each_match, MemorySystem.group1, group.
  simpl fold_left. cbv beta iota. simpl get_cap. simpl fst. simpl snd.
  replace (truthy Z) with true
    by (symmetry; apply truthy_nonempty, tag_text_nonempty, HZ).
  unfold after_tags. f_equal.
  destruct (remember_tag_shape X HX) as (b1 & S1 & _).
  destruct (goal_tag_shape Y Z HY HZ) as (b2 & S2 & _).
  destruct (done_tag_shape Y HY) as (b3 & S3 & _).
  unfold three_tags.
  rewrite (remove_first_tag (remember_tag X) pre _ _ S1 Hpre).
  rewrite (remove_first_tag (goal_tag Y Z) pre _ _ S2 Hpre).
  now rewrite (remove_first_tag (done_tag Y) pre _ _ S3 Hpre).
Qed.


Lemma for_each_match_snd (call : result -> Store -> Store)
    (ms : list result) (st : jsstring * Store) :
  snd (MemorySystem.for_each_match call ms st)
  = fold_left (fun d m => call m d) ms (snd st).
Proof.
  unfold MemorySystem.for_each_match. revert st.
  induction ms as [|m ms IH]; intros [clean db]; simpl; [reflexivity|].
  now rewrite IH.
Qed.

Lemma fold_requests_exact (call : result -> Store -> Store)
    (g : result -> Request) (ms : list result) :
  (forall m d, requests (call m d) = requests d ++ [g m]) ->
  forall db, requests (fold_left (fun d m => call m d) ms db)
             = requests db ++ map g ms.
Proof.
  intros Hcall. induction ms as [|m ms IH]; intros db; simpl.
  - now rewrite app_nil_r.
  - rewrite IH, Hcall. now rewrite <- app_assoc.
Qed.

Lemma completeGoal_requests (now text : jsstring) (db : Store) :
  exists completion,
    requests (MemorySystem.completeGoal now text db)
    = requests db
      ++ SelectGoalIds (lit "%" ++ text ++ lit "%") 1 :: completion
    /\ match filter (done_hit (server db) text) (memory db) with
       | r :: _ => completion = [UpdateCompleted (id r) now]
       | [] => completion = []
       end.
Proof.
  unfold MemorySystem.completeGoal, Sql.select_goal_ids.
  change (fun r => MemoryType_eqb (type r) goal
                   && Sql.ilike (server db) (lit "%" ++ text ++ lit "%")
                        (mem_content r))
    with (done_hit (server db) text).
  destruct (filter (done_hit (server db) text) (memory db)) as [|r l]; simpl.
  - exists []. now split.
  - exists [UpdateCompleted (id r) now]. split; [|reflexivity].
    now rewrite <- app_assoc.
Qed.

Lemma fold_requests_completions (now : jsstring) (ms : list result) :
  forall db, exists completions,
    requests (fold_left
                (fun d m => MemorySystem.completeGoal now
                              (MemorySystem.group1 m) d) ms db)
    = requests db ++ completions
    /\ Forall is_completion completions.
Proof.
  induction ms as [|m ms IH]; intros db; simpl.
  - exists []. split; [now rewrite app_nil_r|constructor].
  - destruct (IH (MemorySystem.completeGoal now (MemorySystem.group1 m) db))
      as (l & E & Hl).
    destruct (completeGoal_requests now (MemorySystem.group1 m) db)
      as (c & Ec & Hc).
    exists ((SelectGoalIds (lit "%" ++ MemorySystem.group1 m ++ lit "%") 1 :: c)
            ++ l).
    split; [rewrite E, Ec; now rewrite <- app_assoc|].
    apply Forall_app. split; [|exact Hl].
    constructor; [exact I|].
    destruct (filter _ _); subst c; repeat constructor.
Qed.

Lemma saveGoal_deadline (Y Z : jsstring) (db : Store) :
  Z <> [] ->
  MemorySystem.saveGoal Y (Some Z) db = Sql.insert_memory goal Y (Some Z) db.
Proof.
  intros HZ. unfold MemorySystem.saveGoal. now rewrite (or_else_some Z None HZ).
Qed.

Lemma saveFact_unfold (X : jsstring) (db : Store) :
  server (MemorySystem.saveFact X db) = server db
  /\ clock (MemorySystem.saveFact X db) = clock db + 1
  /\ requests (MemorySystem.saveFact X db)
     = requests db ++ [InsertMemory fact X None]
  /\ memory (MemorySystem.saveFact X db)
     = (if text_in (server db) X
        then memory db
             ++ [{| id := next_id db; created_at := clock db; type := fact;
                    mem_content := X; deadline := None;
                    completed_at := None |}]
        else memory db)
  /\ next_id (MemorySystem.saveFact X db)
     = (if text_in (server db) X then next_id db + 1 else next_id db).
Proof.
  unfold MemorySystem.saveFact, Sql.insert_memory, Sql.new_row.
  cbn [server clock requests memory next_id].
  destruct (text_in (server db) X); now repeat split.
Qed.

Lemma saveGoal_unfold (Y Z : jsstring) (db : Store) :
  Z <> [] ->
  server (MemorySystem.saveGoal Y (Some Z) db) = server db
  /\ requests (MemorySystem.saveGoal Y (Some Z) db)
     = requests db ++ [InsertMemory goal Y (Some Z)]
  /\ memory (MemorySystem.saveGoal Y (Some Z) db)
     = (if text_in (server db) Y then
          match timestamptz_in (server db) Z with
          | Some ts =>
              memory db
              ++ [{| id := next_id db; created_at := clock db; type := goal;
                     mem_content := Y; deadline := Some ts;
                     completed_at := None |}]
          | None => memory db
          end
        else memory db).
Proof.
  intros HZ. rewrite (saveGoal_deadline Y Z db HZ).
  unfold Sql.insert_memory, Sql.new_row.
  cbn [server clock requests memory next_id].
  destruct (text_in (server db) Y); [|now repeat split].
  destruct (timestamptz_in (server db) Z); now repeat split.
Qed.

Lemma same_text_refl (srv : Server) (text : jsstring) :
  same_text srv text (code_points text).
Proof.
  unfold same_text. induction (code_points text); now constructor.
Qed.

Lemma done_hit_fact (srv : Server) (text : jsstring) (r : MemoryRow) :
  type r = fact -> done_hit srv text r = false.
Proof. intros H. unfold done_hit. now rewrite H. Qed.



